(** * Shallow embedding of qwt's [DArray] (src/darray/mod.rs) and of
    [RSSupportPlain] / [SuperblockPlain] (src/rs_qvector/rs_support_plain/mod.rs).

    Machine integers ([usize], [u16], [u32], [u64], [u128], [i64]) are [Z];
    a wrap-around or a checked operation is written out where the code has it.
    [Vec]s are lists; [v[i]] is [vget], which panics out of range. *)

From Stdlib Require Import ZArith List Lia Bool Sorting.Sorted.
Import ListNotations.
Open Scope Z_scope.

(** ** Rust computations that may panic *)

Inductive outcome (A : Type) : Type :=
| Ret : A -> outcome A
| Panic : outcome A.
Arguments Ret {A} _.
Arguments Panic {A}.

Definition obind {A B} (m : outcome A) (k : A -> outcome B) : outcome B :=
  match m with Ret a => k a | Panic => Panic end.

Notation "x <- m ;; k" := (obind m (fun x => k))
  (at level 61, m at next level, right associativity).

(** [v[i]] on a [Vec] or a slice: panics when [i] is out of range. *)
Definition vget {A} (v : list A) (i : Z) : outcome A :=
  if i <? 0 then Panic
  else match nth_error v (Z.to_nat i) with Some a => Ret a | None => Panic end.

(** [a - b] on [usize]: panics on underflow. *)
Definition usub (a b : Z) : outcome Z := if a <? b then Panic else Ret (a - b).

(** [iter.map(f).collect()] where [f] may panic. *)
Fixpoint omap {A B} (f : A -> outcome B) (l : list A) : outcome (list B) :=
  match l with
  | [] => Ret []
  | x :: l' => y <- f x ;; ys <- omap f l' ;; Ret (y :: ys)
  end.

(** A [for] loop over a list whose body may panic. *)
Fixpoint ofold {A S} (f : S -> A -> outcome S) (l : list A) (s : S) : outcome S :=
  match l with
  | [] => Ret s
  | x :: l' => s' <- f s x ;; ofold f l' s'
  end.

Definition u64_max : Z := 2 ^ 64 - 1.
(** [!w] on [u64]. *)
Definition u64_not (w : Z) : Z := Z.lxor w u64_max.
(** [w << s] on [u64] ([s < 64]). *)
Definition u64_shl (w s : Z) : Z := Z.land (Z.shiftl w s) u64_max.

(** ** The bit container and the word-select primitive *)

Module BitVec.

(** Modelled from the spec: the bit container [BitVector] (crate::BitVector,
    not in src/) is consumed through [get_word], [ones()], [zeros()] (spec 6.1):
    the bit at position [p] is bit [p mod 64] of word [p / 64]; [ones()] and
    [zeros()] are the ascending positions [< len] of the 1-bits and 0-bits.
    It stores its words in a [Vec<u64>], so [get_word] out of range panics. *)
Record BitVector := mk_bv { data : list Z; n_bits : Z }.

Definition get_word (bv : BitVector) (word_idx : Z) : outcome Z :=
  vget (data bv) word_idx.

(** The set bits of a 64-bit word, ascending, shifted by [base]. *)
Definition word_bits (w base : Z) : list Z :=
  if w =? 0 then []
  else map (fun t => base + Z.of_nat t)
         (filter (fun t => Z.testbit w (Z.of_nat t)) (seq 0 64)).

(** The bits of word [k] that lie below [n_bits]. *)
Definition live_mask (bv : BitVector) (k : Z) : Z :=
  Z.ones (Z.max 0 (Z.min 64 (n_bits bv - 64 * k))).

Fixpoint positions_from (pol : bool) (bv : BitVector) (ws : list Z) (k : Z)
  : list Z :=
  match ws with
  | [] => []
  | w :: ws' =>
      word_bits (Z.land (if pol then w else Z.lnot w) (live_mask bv k)) (64 * k)
      ++ positions_from pol bv ws' (k + 1)
  end.

(** [bv.ones()] and [bv.zeros()]. *)
Definition positions (pol : bool) (bv : BitVector) : list Z :=
  positions_from pol bv (data bv) 0.
Definition ones (bv : BitVector) : list Z := positions true bv.
Definition zeros (bv : BitVector) : list Z := positions false bv.

(** Modelled from the spec: [crate::utils::select_in_word] (not in src/)
    returns the position of the (k+1)-th set bit of [w] (spec 4.1); its
    result for [k >= popcount w] is unspecified, here 64. *)
Definition select_in_word (w k : Z) : Z := nth (Z.to_nat k) (word_bits w 0) 64.

(** [_popcnt64(word as i64)]. *)
Definition popcnt64 (w : Z) : Z := Z.of_nat (length (word_bits w 0)).

End BitVec.
Import BitVec.

(** ** DArray *)

Module DArr.

Definition BLOCK_SIZE : Z := 1024.
Definition SUBBLOCK_SIZE : Z := 32.
Definition MAX_IN_BLOCK_DISTACE : Z := 2 ^ 16.
Definition u16_MAX : Z := 65535.

Record Inventories := mk_inv {
  n_sets : Z;
  block_inventory : list Z;      (* Vec<i64> *)
  subblock_inventory : list Z;   (* Vec<u16> *)
  overflow_positions : list Z;   (* Vec<usize> *)
}.

Definition inv_default : Inventories := mk_inv 0 [] [] [].

(** [(0..n).step_by(s)] *)
Definition step_by (n s : nat) : list nat :=
  filter (fun i => Nat.eqb (Nat.modulo i s) 0) (seq 0 n).

(** [Inventories::flush_block]. *)
Definition flush_block (me : Inventories) (curr_positions : list Z)
  : outcome Inventories :=
  match curr_positions with
  | [] => Ret me
  | first :: _ =>
      let lst := last curr_positions first in
      span <- usub lst first ;;
      if span <? MAX_IN_BLOCK_DISTACE then
        let v := first in
        dists <- omap (fun i => p <- vget curr_positions (Z.of_nat i) ;;
                                d <- usub p v ;; Ret (d mod 2 ^ 16))
                      (step_by (length curr_positions) (Z.to_nat SUBBLOCK_SIZE)) ;;
        Ret {| n_sets := n_sets me;
               block_inventory := block_inventory me ++ [v];
               subblock_inventory := subblock_inventory me ++ dists;
               overflow_positions := overflow_positions me |}
      else
        let v := - Z.of_nat (length (overflow_positions me)) - 1 in
        Ret {| n_sets := n_sets me;
               block_inventory := block_inventory me ++ [v];
               subblock_inventory :=
                 subblock_inventory me ++ repeat u16_MAX (length curr_positions);
               overflow_positions := overflow_positions me ++ curr_positions |}
  end.

(** One iteration of the [for curr_pos in ...] loop of [Inventories::new]. *)
Definition inv_push (st : Inventories * list Z) (curr_pos : Z)
  : outcome (Inventories * list Z) :=
  let '(me, curr) := st in
  let curr := curr ++ [curr_pos] in
  if Nat.eqb (length curr) (Z.to_nat BLOCK_SIZE) then
    me' <- flush_block me curr ;;
    Ret ({| n_sets := n_sets me' + 1; block_inventory := block_inventory me';
            subblock_inventory := subblock_inventory me';
            overflow_positions := overflow_positions me' |}, [])
  else
    Ret ({| n_sets := n_sets me + 1; block_inventory := block_inventory me;
            subblock_inventory := subblock_inventory me;
            overflow_positions := overflow_positions me |}, curr).

(** [Inventories::<BIT>::new]; [shrink_to_fit] does not change the contents. *)
Definition inventories_new (bit : bool) (bv : BitVector) : outcome Inventories :=
  st <- ofold inv_push (if bit then ones bv else zeros bv) (inv_default, []) ;;
  let '(me, curr) := st in
  flush_block me curr.

(** [DArray<SELECT0_SUPPORT>]: the const generic is the field [select0_support]. *)
Record DArray := mk_darray {
  select0_support : bool;
  bv : BitVector;
  ones_inventories : Inventories;
  zeroes_inventories : option Inventories;
}.

(** [DArray::new]. *)
Definition darray_new (sel0 : bool) (b : BitVector) : outcome DArray :=
  o <- inventories_new true b ;;
  z <- (if sel0 then (x <- inventories_new false b ;; Ret (Some x)) else Ret None) ;;
  Ret (mk_darray sel0 b o z).

(** The [loop] of [DArray::select]; it leaves with [break] when
    [reminder < popcnt], and otherwise reads the next word.  Each iteration
    reads a word of a strictly larger index, so [get_word] panics before the
    fuel [S (length data)] runs out. *)
Fixpoint scan_words (fuel : nat) (bit : bool) (b : BitVector)
    (word_idx word reminder : Z) : outcome (Z * Z * Z) :=
  match fuel with
  | O => Panic
  | S f =>
      let popcnt := popcnt64 word in
      if reminder <? popcnt then Ret (word_idx, word, reminder)
      else
        let reminder := reminder - popcnt in
        let word_idx := word_idx + 1 in
        w <- get_word b word_idx ;;
        scan_words f bit b word_idx (if bit then w else u64_not w) reminder
  end.

(** [DArray::select::<BIT>]. *)
Definition select (bit : bool) (d : DArray) (i : Z) (inv : Inventories)
  : outcome (option Z) :=
  if n_sets inv <=? i then Ret None
  else
    let block := i / BLOCK_SIZE in
    block_pos <- vget (block_inventory inv) block ;;
    if block_pos <? 0 then
      let overflow_pos := - block_pos - 1 in
      let idx := overflow_pos + Z.land i (BLOCK_SIZE - 1) in
      p <- vget (overflow_positions inv) idx ;;
      Ret (Some p)
    else
      let subblock := i / SUBBLOCK_SIZE in
      sb <- vget (subblock_inventory inv) subblock ;;
      let start_pos := block_pos + sb in
      let reminder := Z.land i (SUBBLOCK_SIZE - 1) in
      if reminder =? 0 then Ret (Some start_pos)
      else
        let word_idx := Z.shiftr start_pos 6 in
        let word_shift := Z.land start_pos 63 in
        w <- get_word (bv d) word_idx ;;
        let word := if bit then Z.land w (u64_shl u64_max word_shift)
                    else Z.land (u64_not w) (u64_shl u64_max word_shift) in
        r <- scan_words (S (length (data (bv d)))) bit (bv d) word_idx word reminder ;;
        let '(word_idx, word, reminder) := r in
        Ret (Some (Z.shiftl word_idx 6 + select_in_word word reminder)).

(** [SelectBin::select1] and [SelectBin::select0] ([assert!(SELECT0_SUPPORT)]
    then [unwrap]). *)
Definition select1 (d : DArray) (i : Z) : outcome (option Z) :=
  select true d i (ones_inventories d).

Definition select0 (d : DArray) (i : Z) : outcome (option Z) :=
  if select0_support d then
    match zeroes_inventories d with
    | Some inv => select false d i inv
    | None => Panic
    end
  else Panic.

(** [SelectBin::select1_unchecked] and [SelectBin::select0_unchecked]: the
    checked select followed by [unwrap]. *)
Definition select1_unchecked (d : DArray) (i : Z) : outcome Z :=
  r <- select1 d i ;; match r with Some p => Ret p | None => Panic end.

Definition select0_unchecked (d : DArray) (i : Z) : outcome Z :=
  r <- select0 d i ;; match r with Some p => Ret p | None => Panic end.

End DArr.
Import DArr.

(** ** RSSupportPlain and SuperblockPlain *)

Module RS.

(** The symbols of a quaternary sequence ([qv.get_unchecked(i)] is in 0..=3). *)
Inductive sym := Sym0 | Sym1 | Sym2 | Sym3.

Definition sym_eqb (a b : sym) : bool :=
  match a, b with
  | Sym0, Sym0 | Sym1, Sym1 | Sym2, Sym2 | Sym3, Sym3 => true
  | _, _ => false
  end.

(** [[T; 4]] indexed by a symbol. *)
Record quad (A : Type) := mk_quad { q0 : A; q1 : A; q2 : A; q3 : A }.
Arguments mk_quad {A} _ _ _ _.
Arguments q0 {A} _. Arguments q1 {A} _. Arguments q2 {A} _. Arguments q3 {A} _.

Definition qget {A} (q : quad A) (s : sym) : A :=
  match s with Sym0 => q0 q | Sym1 => q1 q | Sym2 => q2 q | Sym3 => q3 q end.

Definition qset {A} (q : quad A) (s : sym) (a : A) : quad A :=
  match s with
  | Sym0 => mk_quad a (q1 q) (q2 q) (q3 q)
  | Sym1 => mk_quad (q0 q) a (q2 q) (q3 q)
  | Sym2 => mk_quad (q0 q) (q1 q) a (q3 q)
  | Sym3 => mk_quad (q0 q) (q1 q) (q2 q) a
  end.

Definition qconst {A} (a : A) : quad A := mk_quad a a a a.
Definition qmap {A B} (f : A -> B) (q : quad A) : quad B :=
  mk_quad (f (q0 q)) (f (q1 q)) (f (q2 q)) (f (q3 q)).
Definition qzip {A B C} (f : A -> B -> C) (a : quad A) (b : quad B) : quad C :=
  mk_quad (f (q0 a) (q0 b)) (f (q1 a) (q1 b)) (f (q2 a) (q2 b)) (f (q3 a) (q3 b)).
Definition qall {A} (p : A -> bool) (q : quad A) : bool :=
  p (q0 q) && p (q1 q) && p (q2 q) && p (q3 q).

(** [x as usize] for a [u128] value, and [u128] shifts. *)
Definition as_usize (x : Z) : Z := x mod 2 ^ 64.
Definition u128_shl (x s : Z) : Z := Z.shiftl x s mod 2 ^ 128.

Record SuperblockPlain := mk_sbp { counters : quad Z }.

Definition SBP_BLOCKS_IN_SUPERBLOCK : Z := 8.

(** [SuperblockPlain::new] *)
Definition sbp_new (sbc : quad Z) : SuperblockPlain :=
  mk_sbp (qmap (fun c => u128_shl c 84) sbc).

(** [SuperblockPlain::get_superblock_counter] *)
Definition get_superblock_counter (sb : SuperblockPlain) (symbol : sym) : Z :=
  as_usize (Z.shiftr (qget (counters sb) symbol) 84).

(** [SuperblockPlain::set_block_counters] with its two [assert!]s. *)
Definition set_block_counters (sb : SuperblockPlain) (block_id : Z) (cs : quad Z)
  : outcome SuperblockPlain :=
  if negb (block_id <? 8) then Panic
  else if negb (qall (fun c => c <? 2 ^ 12) cs) then Panic
  else if block_id =? 0 then Ret sb
  else Ret (mk_sbp (qzip (fun c v => Z.lor c (u128_shl v ((block_id - 1) * 12)))
                         (counters sb) cs)).

(** [SuperblockPlain::get_block_counter] (its [debug_assert!] is not modelled). *)
Definition get_block_counter (sb : SuperblockPlain) (symbol : sym) (block_id : Z) : Z :=
  if block_id =? 0 then 0
  else as_usize (Z.land (Z.shiftr (qget (counters sb) symbol) ((block_id - 1) * 12))
                        4095).

(** The loop [for block_id in 1..BLOCKS_IN_SUPERBLOCK] of [block_predecessor]. *)
Fixpoint bp_loop (ids : list Z) (cnt prev_cnt target : Z) : Z * Z :=
  match ids with
  | [] => (SBP_BLOCKS_IN_SUPERBLOCK - 1, prev_cnt)
  | block_id :: ids' =>
      let curr_cnt := as_usize (Z.land cnt 4095) in
      if target <=? curr_cnt then (block_id - 1, prev_cnt)
      else bp_loop ids' (Z.shiftr cnt 12) curr_cnt target
  end.

(** [SuperblockPlain::block_predecessor] *)
Definition block_predecessor (sb : SuperblockPlain) (symbol : sym) (target : Z)
  : Z * Z :=
  bp_loop [1; 2; 3; 4; 5; 6; 7] (qget (counters sb) symbol) 0 target.

Record RSSupportPlain := mk_rs {
  superblocks : list SuperblockPlain;
  occs : quad Z;
  select_samples : quad (list Z);   (* [Vec<u32>; 4] *)
  n : Z;
}.

Definition SELECT_NUM_SAMPLES : Z := 2 ^ 13.
Definition BLOCKS_IN_SUPERBLOCK : Z := 8.

(** The const generic [B_SIZE] ([Self::BLOCK_SIZE]) is the argument [B]. *)
Definition superblock_index (B i : Z) : Z := i / (B * BLOCKS_IN_SUPERBLOCK).
Definition block_index (B i : Z) : Z := i / B.

(** [superblocks.last_mut().unwrap()] updated by a call that may panic. *)
Definition update_last (sbs : list SuperblockPlain)
    (f : SuperblockPlain -> outcome SuperblockPlain) : outcome (list SuperblockPlain) :=
  match sbs with
  | [] => Panic
  | sb0 :: _ => sb' <- f (last sbs sb0) ;; Ret (removelast sbs ++ [sb'])
  end.

(** The local state of the construction loop of [RSSupportPlain::new]. *)
Record build_state := mk_bs {
  bs_superblocks : list SuperblockPlain;
  bs_superblock_counters : quad Z;
  bs_block_counters : quad Z;
  bs_occs : quad Z;
  bs_select_samples : quad (list Z);
}.

Definition bs_init : build_state :=
  mk_bs [] (qconst 0) (qconst 0) (qconst 0) (qconst []).

(** One iteration [i] of [for i in 0..qv.len() + 1]. *)
Definition build_step (B : Z) (qv : list sym) (st : build_state) (i : Z)
  : outcome build_state :=
  let superblock_size := BLOCKS_IN_SUPERBLOCK * B in
  let '(sbs, bc) :=
    if i mod superblock_size =? 0
    then (bs_superblocks st ++ [sbp_new (bs_superblock_counters st)], qconst 0)
    else (bs_superblocks st, bs_block_counters st) in
  sbs <- (if i mod B =? 0 then
            let block_id := (i / B) mod BLOCKS_IN_SUPERBLOCK in
            update_last sbs (fun sb => set_block_counters sb block_id bc)
          else Ret sbs) ;;
  if i <? Z.of_nat (length qv) then
    let symbol := nth (Z.to_nat i) qv Sym0 in
    let samples :=
      if qget (bs_occs st) symbol mod SELECT_NUM_SAMPLES =? 0
      then qset (bs_select_samples st) symbol
             (qget (bs_select_samples st) symbol ++ [superblock_index B i mod 2 ^ 32])
      else bs_select_samples st in
    Ret (mk_bs sbs
           (qset (bs_superblock_counters st) symbol
              (qget (bs_superblock_counters st) symbol + 1))
           (qset bc symbol (qget bc symbol + 1))
           (qset (bs_occs st) symbol (qget (bs_occs st) symbol + 1))
           samples)
  else Ret (mk_bs sbs (bs_superblock_counters st) bc (bs_occs st) (bs_select_samples st)).

(** [RSSupportPlain::<B>::new].  [superblocks.len() as u32 - 1] is taken with
    wrap-around ([u32] arithmetic of a release build); [shrink_to_fit] does not
    change the contents. *)
Definition rs_new (B : Z) (qv : list sym) : outcome RSSupportPlain :=
  let len := Z.of_nat (length qv) in
  if negb (len <? 2 ^ 43) then Panic
  else if negb ((B =? 256) || (B =? 512)) then Panic
  else
    st <- ofold (build_step B qv) (map Z.of_nat (seq 0 (S (length qv)))) bs_init ;;
    let next_block_id := (len / B) mod BLOCKS_IN_SUPERBLOCK + 1 in
    sbs <- (if next_block_id <? BLOCKS_IN_SUPERBLOCK then
              update_last (bs_superblocks st)
                (fun sb => set_block_counters sb next_block_id (bs_block_counters st))
            else Ret (bs_superblocks st)) ;;
    let sentinel := (Z.of_nat (length sbs) mod 2 ^ 32 - 1) mod 2 ^ 32 in
    let samples :=
      qmap (fun l => (match l with [] => [0] | _ => l end) ++ [sentinel])
           (bs_select_samples st) in
    Ret (mk_rs sbs (bs_occs st) samples len).

(** [RSSupport::rank_block::<SYMBOL>] *)
Definition rank_block (B : Z) (rs : RSSupportPlain) (symbol : sym) (i : Z) : outcome Z :=
  let sbi := superblock_index B i in
  let bi := block_index B i in
  sb <- vget (superblocks rs) sbi ;;
  Ret (get_superblock_counter sb symbol + get_block_counter sb symbol (bi mod 8)).

(** [RSSupport::n_occs] *)
Definition n_occs (rs : RSSupportPlain) (symbol : sym) : Z := qget (occs rs) symbol.

(** A [while first_sblock_id < last_sblock_id] loop of [select_block], which
    breaks at the first superblock whose counter reaches [i].  Each iteration
    adds [step >= 1], so the fuel [last - first + 1] is never exhausted. *)
Fixpoint gallop (fuel : nat) (sbs : list SuperblockPlain) (symbol : sym)
    (i step first_sblock_id last_sblock_id : Z) : outcome Z :=
  match fuel with
  | O => Panic
  | S f =>
      if first_sblock_id <? last_sblock_id then
        sb <- vget sbs first_sblock_id ;;
        if i <=? get_superblock_counter sb symbol then Ret first_sblock_id
        else gallop f sbs symbol i step (first_sblock_id + step) last_sblock_id
      else Ret first_sblock_id
  end.

(** [RSSupport::select_block], for a given [f64::sqrt(x as f64) as usize]. *)
Definition select_block_with (fsqrt : Z -> Z) (B : Z) (rs : RSSupportPlain)
    (symbol : sym) (i : Z) : outcome (Z * Z) :=
  im1 <- usub i 1 ;;
  let sampled_i := im1 / SELECT_NUM_SAMPLES in
  first_sblock_id <- vget (qget (select_samples rs) symbol) sampled_i ;;
  nxt <- vget (qget (select_samples rs) symbol) (sampled_i + 1) ;;
  let last_sblock_id := 1 + nxt in
  d <- usub last_sblock_id first_sblock_id ;;
  let step := fsqrt d + 1 in
  let fuel := S (Z.to_nat d) in
  first_sblock_id <- gallop fuel (superblocks rs) symbol i step first_sblock_id last_sblock_id ;;
  first_sblock_id <- usub first_sblock_id step ;;
  first_sblock_id <- gallop fuel (superblocks rs) symbol i 1 first_sblock_id last_sblock_id ;;
  first_sblock_id <- usub first_sblock_id 1 ;;
  let position := first_sblock_id * B * BLOCKS_IN_SUPERBLOCK in
  sb <- vget (superblocks rs) first_sblock_id ;;
  let rank := get_superblock_counter sb symbol in
  t <- usub i rank ;;
  let '(block_id, block_rank) := block_predecessor sb symbol t in
  Ret (position + block_id * B, rank + block_rank).

(** [f64::sqrt(x as f64) as usize] is the integer square root for the
    arguments here (below 2^33, where the rounded square root is exact enough). *)
Definition select_block : Z -> RSSupportPlain -> sym -> Z -> outcome (Z * Z) :=
  select_block_with Z.sqrt.

(** [RSSupport::len] *)
Definition rs_len (rs : RSSupportPlain) : Z := n rs.

(** The rank of [symbol] in the first [k] positions of [qv]. *)
Definition rank_naive (qv : list sym) (symbol : sym) (k : Z) : Z :=
  Z.of_nat (length (filter (sym_eqb symbol) (firstn (Z.to_nat k) qv))).

End RS.
Import RS.

(** ** Definitions used by the statements *)

Module Defs.

(** [Inventories] with its counter [n_sets] replaced. *)
Definition set_nsets (x : Z) (me : Inventories) : Inventories :=
  mk_inv x (block_inventory me) (subblock_inventory me) (overflow_positions me).

(** The DArray blocks of a position sequence: 1024 successive positions each,
    the last one possibly shorter (spec 3.1). *)
Fixpoint blocks_aux (fuel : nat) (l : list Z) : list (list Z) :=
  match fuel with
  | O => []
  | S f =>
      match l with
      | [] => []
      | _ :: _ => firstn 1024 l :: blocks_aux f (skipn 1024 l)
      end
  end.

Definition darray_blocks (l : list Z) : list (list Z) := blocks_aux (length l) l.

(** Block [b]: the positions of index [1024 b] to [1024 b + 1023]. *)
Definition darray_block (l : list Z) (b : nat) : list Z :=
  firstn 1024 (skipn (1024 * b) l).

(** The inventory of a polarity, and the public select of that polarity. *)
Definition inventory_for (d : DArray) (pol : bool) : option Inventories :=
  if pol then Some (ones_inventories d) else zeroes_inventories d.

Definition select_pol (pol : bool) (d : DArray) (i : Z) : outcome (option Z) :=
  if pol then select1 d i else select0 d i.

(** The bit vector of length 200000 whose ones are at 0 and 199999. *)
Definition bv_sparse : BitVector := mk_bv ([1] ++ repeat 0 3123 ++ [2 ^ 63]) 200000.

(** The bit vector of length 65539 whose ones are at 0..1022 and at 65536,
    65537, 65538: its first block of ones (0..1022 and 65536) is sparse, its
    second block (65537, 65538) is dense. *)
Definition bv_sparse_then_dense : BitVector :=
  mk_bv (repeat u64_max 15 ++ [2 ^ 63 - 1] ++ repeat 0 1008 ++ [7]) 65539.

(** A [[T; 4]] given by its value at each symbol. *)
Definition quad_of {A} (f : sym -> A) : quad A := mk_quad (f Sym0) (f Sym1) (f Sym2) (f Sym3).

(** The [u128] counters word of a [SuperblockPlain] whose 12-bit block
    counters are [fs] (block 1 in the lowest bits) and whose superblock
    counter [S] sits above them (from bit 84 when there are 7 of them). *)
Definition sb_enc (S : Z) (fs : list Z) : Z := fold_right (fun f acc => f + 2 ^ 12 * acc) S fs.

(** The block counters of blocks 1 to 7, given as a function of the block id. *)
Definition sb_fields (F : Z -> Z) : list Z := map F [1; 2; 3; 4; 5; 6; 7].

(** [block_predecessor] as the spec describes it: [block_id] is the largest
    index in [0, 7] whose block counter is below [target], and [rank] is that
    counter. *)
Definition bp_described (sb : SuperblockPlain) (symbol : sym) (target : Z)
    (r : Z * Z) : Prop :=
  0 <= fst r <= 7 /\ get_block_counter sb symbol (fst r) < target /\
  (forall j, fst r < j <= 7 -> target <= get_block_counter sb symbol j) /\
  snd r = get_block_counter sb symbol (fst r).

(** The counter of block [j >= 1] of a [SuperblockPlain] counters word [c]
    (the expression of [get_block_counter]). *)
Definition bp_field (c j : Z) : Z := as_usize (Z.land (Z.shiftr c ((j - 1) * 12)) 4095).

(** A superblock whose block 1 counts 5 occurrences of [Sym0] and whose other
    blocks count none. *)
Definition sb_block1_only : SuperblockPlain := mk_sbp (mk_quad 5 0 0 0).

(** A superblock with the non-decreasing [Sym0] block counters 0, 1, 3, 3, 6, 7, 9, 12. *)
Definition sb_increasing : SuperblockPlain :=
  mk_sbp (mk_quad (1 + 3 * 2 ^ 12 + 3 * 2 ^ 24 + 6 * 2 ^ 36 + 7 * 2 ^ 48
                   + 9 * 2 ^ 60 + 12 * 2 ^ 72) 0 0 0).

(** Superblock [j] of [RSSupportPlain::new] as the construction leaves it: its
    counter is the rank of each symbol before the superblock, and block [b] of it
    holds the rank within the superblock up to block [b] when [w j b] says that
    block has been written, and 0 otherwise. *)
Definition sb_exp (B : Z) (qv : list sym) (w : Z -> Z -> bool) (j : Z) : SuperblockPlain :=
  mk_sbp (quad_of (fun x =>
    sb_enc (rank_naive qv x (8 * B * j))
      (sb_fields (fun b => if w j b
                           then rank_naive qv x (8 * B * j + B * b) - rank_naive qv x (8 * B * j)
                           else 0)))).

(** The superblocks [0 .. cnt - 1]. *)
Definition sbs_exp (B : Z) (qv : list sym) (w : Z -> Z -> bool) (cnt : nat)
  : list SuperblockPlain :=
  map (fun j => sb_exp B qv w (Z.of_nat j)) (seq 0 cnt).

(** Block [b] of superblock [j] starts before position [K]. *)
Definition written_before (B K j b : Z) : bool := 8 * B * j + B * b <? K.

(** The number of superblocks started before position [K]. *)
Definition n_superblocks (B K : Z) : Z := (K + 8 * B - 1) / (8 * B).

(** The positions [p < k] holding [x] preceded by a multiple of 8192 occurrences
    of [x]: the occurrences of index [0, 8192, 16384, ...]. *)
Definition sample_positions (qv : list sym) (x : sym) (k : nat) : list nat :=
  filter (fun p => sym_eqb x (nth p qv Sym0) && (rank_naive qv x (Z.of_nat p) mod 8192 =? 0))
         (seq 0 k).

Definition samples_exp (B : Z) (qv : list sym) (x : sym) (k : nat) : list Z :=
  map (fun p => (Z.of_nat p / (B * 8)) mod 2 ^ 32) (sample_positions qv x k).

(** The state of the construction loop of [RSSupportPlain::new] before iteration [k]. *)
Definition build_exp (B : Z) (qv : list sym) (k : nat) : build_state :=
  mk_bs (sbs_exp B qv (written_before B (Z.of_nat k)) (Z.to_nat (n_superblocks B (Z.of_nat k))))
        (quad_of (fun x => rank_naive qv x (Z.of_nat (Nat.min k (length qv)))))
        (quad_of (fun x => rank_naive qv x (Z.of_nat (Nat.min k (length qv)))
                           - rank_naive qv x (8 * B * ((Z.of_nat k - 1) / (8 * B)))))
        (quad_of (fun x => rank_naive qv x (Z.of_nat (Nat.min k (length qv)))))
        (quad_of (fun x => samples_exp B qv x (Nat.min k (length qv)))).

(** The blocks written by [RSSupportPlain::new] on a sequence of length [n]:
    those starting at most at [n], and the one after the block of [n]. *)
Definition written_final (B n j b : Z) : bool :=
  (8 * B * j + B * b <=? n) || ((j =? n / (8 * B)) && (b =? (n / B) mod 8 + 1)).

(** The index built by [RSSupportPlain::new] on [qv], as the construction leaves it. *)
Definition rs_built (B : Z) (qv : list sym) : RSSupportPlain :=
  let len := Z.of_nat (length qv) in
  mk_rs (sbs_exp B qv (written_final B len) (S (Z.to_nat (len / (8 * B)))))
        (quad_of (fun x => rank_naive qv x len))
        (qmap (fun l => (match l with [] => [0] | _ => l end) ++ [len / (8 * B)])
              (quad_of (fun x => samples_exp B qv x (length qv))))
        len.

(** A sequence of length 8 holding each symbol twice. *)
Definition qv8 : list sym := [Sym0; Sym1; Sym2; Sym3; Sym0; Sym1; Sym2; Sym3].

(** Helpers of the further properties of the DArray. *)

(** The word [w] read with polarity [pol]: [w] for ones, [!w] for zeros. *)
Definition pol_word (pol : bool) (w : Z) : Z := if pol then w else u64_not w.

(** Bit [p] of the [pol]-view of the words of [b], whatever [n_bits b]. *)
Definition raw_bit (pol : bool) (b : BitVector) (p : Z) : bool :=
  Z.testbit (pol_word pol (nth (Z.to_nat (p / 64)) (data b) 0)) (p mod 64).

(** The positions [a, a + 1, ..., a + n - 1]. *)
Definition bit_range (a n : nat) : list Z := map Z.of_nat (seq a n).

(** A block is dense when its positions span less than [2^16]: [flush_block]
    then stores it as a first position and one 16-bit offset per 32 positions. *)
Definition is_dense (c : list Z) : bool := last c 0 - hd 0 c <? MAX_IN_BLOCK_DISTACE.

(** The number of entries [flush_block] pushes to the subblock inventory for
    a block: [ceil(len / 32)] for a dense block, [len] for a sparse one. *)
Definition subblock_entries (c : list Z) : nat :=
  if is_dense c then ((length c + 31) / 32)%nat else length c.

End Defs.
Import Defs.

(** * Proofs *)

(** ** Monad and list lemmas *)

Lemma obind_assoc {A B C} (m : outcome A) (k1 : A -> outcome B) (k2 : B -> outcome C) :
  obind (obind m k1) k2 = obind m (fun a => obind (k1 a) k2).
Proof. destruct m; reflexivity. Qed.

Lemma obind_ext {A B} (m : outcome A) (k1 k2 : A -> outcome B) :
  (forall a, k1 a = k2 a) -> obind m k1 = obind m k2.
Proof. intros H; destruct m; simpl; auto. Qed.

Lemma ofold_app {A S} (f : S -> A -> outcome S) l1 l2 s :
  ofold f (l1 ++ l2) s = (s' <- ofold f l1 s ;; ofold f l2 s').
Proof.
  revert s; induction l1 as [|x l1 IH]; intros s; simpl; [reflexivity|].
  rewrite obind_assoc; apply obind_ext; intro; apply IH.
Qed.

Lemma omap_ok {A B} (f : A -> outcome B) (l : list A) :
  (forall a, In a l -> exists b, f a = Ret b) -> exists bs, omap f l = Ret bs.
Proof.
  induction l as [|x l IH]; intros H; simpl; [eauto|].
  destruct (H x (or_introl eq_refl)) as [y Hy]; rewrite Hy; simpl.
  destruct IH as [ys Hys]; [intros a Ha; apply H; now right|].
  rewrite Hys; simpl; eauto.
Qed.

Lemma last_in (l : list Z) (x : Z) : In (last l x) (x :: l).
Proof.
  revert x; induction l as [|y l IH]; intros x; simpl; [auto|].
  destruct l as [|z l]; [simpl; auto|].
  destruct (IH x) as [H|H]; [left; exact H | right; right; exact H].
Qed.

Lemma last_default (l : list Z) (x y : Z) : l <> [] -> last l x = last l y.
Proof.
  induction l as [|a l IH]; intros H; [congruence|].
  destruct l as [|b l]; [reflexivity|].
  simpl; apply IH; discriminate.
Qed.

(** ** DArray: the inventories are one [flush_block] per block *)

Section Blocks.

Lemma blocks_aux_fuel (f g : nat) (l : list Z) :
  (length l <= f)%nat -> (length l <= g)%nat -> blocks_aux f l = blocks_aux g l.
Proof.
  revert g l; induction f as [|f IH]; intros g l Hf Hg.
  - destruct l; [destruct g; reflexivity| simpl in Hf; lia].
  - destruct l as [|x l]; [destruct g; reflexivity|].
    destruct g as [|g]; [simpl in Hg; lia|].
    cbn [blocks_aux]; f_equal; apply IH;
      rewrite length_skipn; cbn [length] in *; lia.
Qed.

Lemma blocks_cons (l : list Z) :
  l <> [] -> darray_blocks l = firstn 1024 l :: darray_blocks (skipn 1024 l).
Proof.
  intros H; unfold darray_blocks.
  destruct l as [|x l]; [congruence|].
  simpl length at 1; simpl blocks_aux at 1; f_equal.
  apply blocks_aux_fuel; rewrite length_skipn; simpl; lia.
Qed.

Lemma blocks_full (c l : list Z) :
  length c = 1024%nat -> darray_blocks (c ++ l) = c :: darray_blocks l.
Proof.
  intros H; rewrite blocks_cons.
  - rewrite firstn_app, skipn_app, H, firstn_all2 by lia.
    replace (1024 - 1024)%nat with 0%nat by lia.
    rewrite firstn_O, app_nil_r, skipn_all2 by lia; reflexivity.
  - destruct c; simpl in *; [lia|discriminate].
Qed.

Lemma blocks_short (c : list Z) :
  c <> [] -> (length c < 1024)%nat -> darray_blocks c = [c].
Proof.
  intros H1 H2; rewrite blocks_cons by exact H1.
  rewrite firstn_all2, skipn_all2 by lia; reflexivity.
Qed.

Lemma blocks_aux_nonempty (f : nat) (l c : list Z) : In c (blocks_aux f l) -> c <> [].
Proof.
  revert l; induction f as [|f IH]; intros l H; simpl in H; [contradiction|].
  destruct l as [|x l]; [contradiction|].
  destruct H as [H|H]; [subst c; simpl; discriminate | eapply IH; eauto].
Qed.

Lemma blocks_nonempty (l c : list Z) : In c (darray_blocks l) -> c <> [].
Proof. apply blocks_aux_nonempty. Qed.

Lemma blocks_nth (l : list Z) (b : nat) :
  (1024 * b < length l)%nat -> nth_error (darray_blocks l) b = Some (darray_block l b).
Proof.
  revert l; induction b as [|b IH]; intros l H.
  - rewrite blocks_cons by (destruct l; simpl in *; [lia|discriminate]).
    reflexivity.
  - rewrite blocks_cons by (destruct l; simpl in *; [lia|discriminate]).
    cbn [nth_error]; rewrite IH.
    + unfold darray_block; rewrite skipn_skipn.
      do 3 f_equal; lia.
    + rewrite length_skipn; lia.
Qed.

End Blocks.

Section InventoriesLoop.

Lemma set_nsets_eta (me : Inventories) : set_nsets (n_sets me) me = me.
Proof. destruct me; reflexivity. Qed.

Lemma flush_block_set_nsets (x : Z) (me : Inventories) (c : list Z) :
  flush_block (set_nsets x me) c = (m <- flush_block me c ;; Ret (set_nsets x m)).
Proof.
  destruct c as [|p c]; [reflexivity|].
  unfold flush_block.
  destruct (usub _ _) as [span|]; cbn [obind]; [|reflexivity].
  destruct (span <? MAX_IN_BLOCK_DISTACE); cbn [obind]; [|reflexivity].
  destruct (omap _ _); reflexivity.
Qed.

Lemma flush_block_nsets (me m : Inventories) (c : list Z) :
  flush_block me c = Ret m -> n_sets m = n_sets me.
Proof.
  destruct c as [|p c]; unfold flush_block; [congruence|].
  destruct (usub _ _) as [span|]; cbn [obind]; [|discriminate].
  destruct (span <? MAX_IN_BLOCK_DISTACE).
  - destruct (omap _ _); cbn [obind]; intros H; inversion H; reflexivity.
  - intros H; inversion H; reflexivity.
Qed.

Lemma fold_flush_set_nsets (x : Z) (cs : list (list Z)) (me : Inventories) :
  ofold flush_block cs (set_nsets x me) = (m <- ofold flush_block cs me ;; Ret (set_nsets x m)).
Proof.
  revert me; induction cs as [|c cs IH]; intros me; simpl; [reflexivity|].
  rewrite flush_block_set_nsets, obind_assoc, obind_assoc.
  apply obind_ext; intros m; simpl; apply IH.
Qed.

Lemma fold_flush_nsets (cs : list (list Z)) (me m : Inventories) :
  ofold flush_block cs me = Ret m -> n_sets m = n_sets me.
Proof.
  revert me; induction cs as [|c cs IH]; intros me; simpl; [congruence|].
  destruct (flush_block me c) as [m'|] eqn:F; simpl; [|discriminate].
  intros H; rewrite (IH _ H); eapply flush_block_nsets; eauto.
Qed.

Lemma inv_loop (l : list Z) : forall me curr, (length curr < 1024)%nat ->
  (st <- ofold inv_push l (me, curr) ;; let '(me', c) := st in flush_block me' c)
  = (m <- ofold flush_block (darray_blocks (curr ++ l)) me ;;
     Ret (set_nsets (n_sets me + Z.of_nat (length l)) m)).
Proof.
  induction l as [|p l IH]; intros me curr Hc.
  - cbn [ofold obind length Z.of_nat]; rewrite app_nil_r, Z.add_0_r.
    destruct curr as [|x c].
    + cbn [darray_blocks blocks_aux length ofold obind flush_block].
      rewrite set_nsets_eta; reflexivity.
    + rewrite blocks_short by (discriminate || exact Hc).
      cbn [ofold]; destruct (flush_block me (x :: c)) as [m|] eqn:F;
        cbn [obind]; [|reflexivity].
      rewrite <- (flush_block_nsets _ _ _ F), set_nsets_eta; reflexivity.
  - cbn [ofold]; unfold inv_push at 1.
    destruct (Nat.eqb (length (curr ++ [p])) (Z.to_nat BLOCK_SIZE)) eqn:E.
    + apply Nat.eqb_eq in E.
      replace (curr ++ p :: l) with ((curr ++ [p]) ++ l) by (rewrite <- app_assoc; reflexivity).
      rewrite blocks_full by exact E; cbn [ofold].
      destruct (flush_block me (curr ++ [p])) as [m'|] eqn:F; simpl; [|reflexivity].
      pose proof (IH (set_nsets (n_sets m' + 1) m') [] ltac:(simpl; lia)) as IH'.
      unfold set_nsets at 1 in IH'; rewrite IH'; clear IH'.
      rewrite fold_flush_set_nsets, obind_assoc; simpl app.
      apply obind_ext; intros m; simpl.
      rewrite (flush_block_nsets _ _ _ F).
      unfold set_nsets; simpl; do 2 f_equal; lia.
    + apply Nat.eqb_neq in E.
      assert (Hc' : (length (curr ++ [p]) < 1024)%nat)
        by (rewrite length_app in *; simpl in *; lia).
      simpl.
      pose proof (IH (set_nsets (n_sets me + 1) me) (curr ++ [p]) Hc') as IH'.
      unfold set_nsets at 1 in IH'; rewrite IH'; clear IH'.
      rewrite fold_flush_set_nsets, obind_assoc, <- app_assoc; simpl app.
      apply obind_ext; intros m; simpl.
      unfold set_nsets; simpl; do 2 f_equal; lia.
Qed.

(** [Inventories::new] flushes the blocks of the position sequence in order. *)
Lemma inventories_new_blocks (bit : bool) (b : BitVector) :
  inventories_new bit b =
  (m <- ofold flush_block (darray_blocks (positions bit b)) inv_default ;;
   Ret (set_nsets (Z.of_nat (length (positions bit b))) m)).
Proof.
  unfold inventories_new.
  replace (if bit then ones b else zeros b) with (positions bit b)
    by (destruct bit; reflexivity).
  rewrite inv_loop by (simpl; lia).
  reflexivity.
Qed.

End InventoriesLoop.

(** ** The position sequences are sorted, so the construction never panics *)

Section Sortedness.

Lemma SS_app (l1 l2 : list Z) :
  StronglySorted Z.le l1 -> StronglySorted Z.le l2 ->
  (forall x y, In x l1 -> In y l2 -> x <= y) -> StronglySorted Z.le (l1 ++ l2).
Proof.
  induction l1 as [|a l1 IH]; intros H1 H2 H; simpl; [exact H2|].
  apply StronglySorted_inv in H1 as [H1a H1b].
  constructor.
  - apply IH; auto. intros x y Hx Hy; apply H; simpl; auto.
  - apply Forall_app; split; [exact H1b|].
    apply Forall_forall; intros y Hy; apply H; simpl; auto.
Qed.

Lemma SS_seq_map (base : Z) (f : nat -> bool) (a n : nat) :
  StronglySorted Z.le (map (fun t => base + Z.of_nat t) (filter f (seq a n))).
Proof.
  revert a; induction n as [|n IH]; intros a; simpl; [constructor|].
  destruct (f a); simpl; [|apply IH].
  constructor; [apply IH|].
  apply Forall_forall; intros y Hy.
  apply in_map_iff in Hy as [t [<- Ht]].
  apply filter_In in Ht as [Ht _]; apply in_seq in Ht; lia.
Qed.

Lemma word_bits_bounds (w base x : Z) :
  In x (word_bits w base) -> base <= x < base + 64.
Proof.
  unfold word_bits; destruct (w =? 0); [contradiction|].
  intros H; apply in_map_iff in H as [t [<- Ht]].
  apply filter_In in Ht as [Ht _]; apply in_seq in Ht; lia.
Qed.

Lemma word_bits_sorted (w base : Z) : StronglySorted Z.le (word_bits w base).
Proof. unfold word_bits; destruct (w =? 0); [constructor | apply SS_seq_map]. Qed.

Lemma positions_from_bounds pol b ws k x :
  In x (positions_from pol b ws k) -> 64 * k <= x.
Proof.
  revert k; induction ws as [|w ws IH]; intros k H; cbn [positions_from] in H; [contradiction|].
  apply in_app_or in H as [H|H].
  - apply word_bits_bounds in H; lia.
  - apply IH in H; lia.
Qed.

Lemma positions_from_sorted pol b ws k :
  StronglySorted Z.le (positions_from pol b ws k).
Proof.
  revert k; induction ws as [|w ws IH]; intros k; cbn [positions_from]; [constructor|].
  apply SS_app; [apply word_bits_sorted | apply IH |].
  intros x y Hx Hy; apply word_bits_bounds in Hx;
    apply positions_from_bounds in Hy; lia.
Qed.

Lemma positions_sorted (pol : bool) (b : BitVector) :
  StronglySorted Z.le (positions pol b).
Proof. apply positions_from_sorted. Qed.

Lemma SS_skipn (l : list Z) k : StronglySorted Z.le l -> StronglySorted Z.le (skipn k l).
Proof.
  revert l; induction k as [|k IH]; intros l H; [exact H|].
  destruct l as [|a l]; simpl; [constructor|].
  apply IH; apply StronglySorted_inv in H; tauto.
Qed.

Lemma SS_firstn (l : list Z) k : StronglySorted Z.le l -> StronglySorted Z.le (firstn k l).
Proof.
  revert l; induction k as [|k IH]; intros l H; simpl; [constructor|].
  destruct l as [|a l]; [constructor|].
  apply StronglySorted_inv in H as [H1 H2]; constructor; auto.
  rewrite Forall_forall in *; intros y Hy; apply H2.
  rewrite <- (firstn_skipn k l); apply in_or_app; auto.
Qed.

Lemma blocks_aux_sorted (f : nat) (l c : list Z) :
  StronglySorted Z.le l -> In c (blocks_aux f l) -> StronglySorted Z.le c.
Proof.
  revert l; induction f as [|f IH]; intros l Hl H; cbn [blocks_aux] in H; [contradiction|].
  destruct l as [|x l']; [contradiction|].
  destruct H as [<-|H]; [apply SS_firstn, Hl|].
  eapply IH; [apply SS_skipn, Hl | exact H].
Qed.

Lemma flush_block_ok (me : Inventories) (c : list Z) :
  StronglySorted Z.le c -> exists m, flush_block me c = Ret m.
Proof.
  intros Hs; destruct c as [|x l]; [exists me; reflexivity|].
  assert (Hge : forall y, In y (x :: l) -> x <= y).
  { apply StronglySorted_inv in Hs as [_ Hx]; rewrite Forall_forall in Hx.
    intros y [<-|Hy]; [lia | auto]. }
  unfold flush_block.
  unfold usub at 1; rewrite (proj2 (Z.ltb_ge _ _)) by (apply Hge; destruct (last_in (x :: l) x) as [H|H]; [left; exact H | exact H]).
  cbn [obind].
  destruct (_ <? MAX_IN_BLOCK_DISTACE); [|eauto].
  match goal with |- context [omap ?f ?l] => destruct (omap_ok f l) as [ds Hds] end.
  - intros a Ha. unfold step_by in Ha; apply filter_In in Ha as [Ha _].
    apply in_seq in Ha.
    unfold vget; rewrite (proj2 (Z.ltb_ge _ _)) by lia; rewrite Nat2Z.id.
    destruct (nth_error (x :: l) a) as [z|] eqn:E;
      [| apply nth_error_None in E; lia].
    cbn [obind]; unfold usub.
    rewrite (proj2 (Z.ltb_ge _ _)) by (apply Hge; eapply nth_error_In; eauto).
    cbn [obind]; eauto.
  - rewrite Hds; cbn [obind]; eauto.
Qed.

Lemma fold_flush_ok (cs : list (list Z)) (me : Inventories) :
  (forall c, In c cs -> StronglySorted Z.le c) ->
  exists m, ofold flush_block cs me = Ret m.
Proof.
  revert me; induction cs as [|c cs IH]; intros me H; simpl; [eauto|].
  destruct (flush_block_ok me c (H c (or_introl eq_refl))) as [m Hm].
  rewrite Hm; cbn [obind]; apply IH; intros; apply H; simpl; auto.
Qed.

Lemma inventories_new_ok (bit : bool) (b : BitVector) :
  exists inv, inventories_new bit b = Ret inv.
Proof.
  rewrite inventories_new_blocks.
  destruct (fold_flush_ok (darray_blocks (positions bit b)) inv_default) as [m Hm].
  - intros c Hc; eapply blocks_aux_sorted; [apply positions_sorted | exact Hc].
  - rewrite Hm; cbn [obind]; eauto.
Qed.

Lemma darray_new_ok (sel0 : bool) (b : BitVector) :
  exists d, darray_new sel0 b = Ret d.
Proof.
  unfold darray_new.
  destruct (inventories_new_ok true b) as [o Ho]; rewrite Ho; cbn [obind].
  destruct sel0; cbn [obind]; [|eauto].
  destruct (inventories_new_ok false b) as [z Hz]; rewrite Hz; cbn [obind]; eauto.
Qed.

End Sortedness.

(** ** Sparse blocks *)

Section SparseBlocks.

Lemma flush_sparse (me : Inventories) (x : Z) (l : list Z) :
  MAX_IN_BLOCK_DISTACE <= last (x :: l) x - x ->
  flush_block me (x :: l) =
  Ret (mk_inv (n_sets me)
         (block_inventory me ++ [- Z.of_nat (length (overflow_positions me)) - 1])
         (subblock_inventory me ++ repeat u16_MAX (length (x :: l)))
         (overflow_positions me ++ x :: l)).
Proof.
  intros H; unfold flush_block, usub.
  rewrite (proj2 (Z.ltb_ge _ _)) by (unfold MAX_IN_BLOCK_DISTACE in H; lia).
  cbn [obind]; rewrite (proj2 (Z.ltb_ge _ _)) by lia; reflexivity.
Qed.

Lemma flush_grows (me m : Inventories) (c : list Z) :
  c <> [] -> flush_block me c = Ret m ->
  (exists v, block_inventory m = block_inventory me ++ [v]) /\
  (exists os, overflow_positions m = overflow_positions me ++ os).
Proof.
  intros Hc; destruct c as [|x l]; [congruence|].
  unfold flush_block.
  destruct (usub _ _) as [span|]; cbn [obind]; [|discriminate].
  destruct (span <? MAX_IN_BLOCK_DISTACE).
  - destruct (omap _ _); cbn [obind]; intros H; inversion H; subst; simpl;
      [split; [eexists; reflexivity | exists []; rewrite app_nil_r; reflexivity]].
  - intros H; inversion H; subst; simpl; split; eexists; reflexivity.
Qed.

Lemma fold_flush_grows (cs : list (list Z)) (me m : Inventories) :
  (forall c, In c cs -> c <> []) -> ofold flush_block cs me = Ret m ->
  (exists bs, block_inventory m = block_inventory me ++ bs /\ length bs = length cs) /\
  (exists os, overflow_positions m = overflow_positions me ++ os).
Proof.
  revert me; induction cs as [|c cs IH]; intros me Hne H; cbn [ofold] in H.
  - inversion H; subst.
    split; exists []; rewrite app_nil_r; [split|]; reflexivity.
  - destruct (flush_block me c) as [m1|] eqn:F; cbn [obind] in H; [|discriminate].
    destruct (flush_grows _ _ _ (Hne c (or_introl eq_refl)) F) as [[v Hv] [o1 Ho1]].
    destruct (IH m1 (fun c' H' => Hne c' (or_intror H')) H) as [[bs [Hbs Hl]] [os Hos]].
    split.
    + exists (v :: bs); rewrite Hbs, Hv, <- app_assoc; simpl; auto.
    + exists (o1 ++ os); rewrite Hos, Ho1, app_assoc; reflexivity.
Qed.

(** A block whose positions span at least [2^16] is copied to [O], and [B]
    points to it. *)
Lemma sparse_block_layout (bit : bool) (b : BitVector) (inv : Inventories)
    (blk : nat) (c : list Z) :
  inventories_new bit b = Ret inv ->
  (1024 * blk < length (positions bit b))%nat ->
  darray_block (positions bit b) blk = c ->
  MAX_IN_BLOCK_DISTACE <= last c 0 - hd 0 c ->
  n_sets inv = Z.of_nat (length (positions bit b)) /\
  exists O1 os,
    overflow_positions inv = O1 ++ c ++ os /\
    nth_error (block_inventory inv) blk = Some (- Z.of_nat (length O1) - 1).
Proof.
  intros Hinv Hlt Ec Hspan.
  rewrite inventories_new_blocks in Hinv.
  destruct (ofold flush_block (darray_blocks (positions bit b)) inv_default)
    as [m|] eqn:F; cbn [obind] in Hinv; [|discriminate].
  inversion Hinv; subst inv; clear Hinv.
  split; [reflexivity|].
  pose proof (blocks_nth _ _ Hlt) as Hn; rewrite Ec in Hn.
  pose proof (blocks_nonempty (positions bit b)) as Hne.
  apply nth_error_split in Hn as [pre [post [Hsplit Hlen]]].
  rewrite Hsplit in F, Hne; rewrite ofold_app in F.
  destruct (ofold flush_block pre inv_default) as [m1|] eqn:F1;
    cbn [obind] in F; [|discriminate].
  cbn [ofold] in F.
  destruct (flush_block m1 c) as [m2|] eqn:F2; cbn [obind] in F; [|discriminate].
  destruct (fold_flush_grows pre inv_default m1
              ltac:(intros; apply Hne, in_or_app; auto) F1) as [[bs1 [Hb1 Hl1]] _].
  destruct (fold_flush_grows post m2 m
              ltac:(intros; apply Hne, in_or_app; simpl; auto) F) as [[bs2 [Hb2 _]] [os Ho2]].
  destruct c as [|x l].
  { exfalso; apply (Hne []); [apply in_or_app; simpl; auto | reflexivity]. }
  rewrite (last_default _ 0 x) in Hspan by discriminate; cbn [hd] in Hspan.
  rewrite flush_sparse in F2 by exact Hspan.
  inversion F2; subst m2; clear F2.
  exists (overflow_positions m1), os; cbn [set_nsets overflow_positions block_inventory].
  split.
  - rewrite Ho2; simpl; rewrite <- app_assoc; reflexivity.
  - rewrite Hb2; simpl; rewrite Hb1; simpl.
    rewrite <- app_assoc, nth_error_app2 by lia.
    replace (blk - length bs1)%nat with 0%nat by lia; reflexivity.
Qed.

(** [select] on an index of a sparse block reads [O]. *)
Lemma select_sparse (bit : bool) (d : DArray) (inv : Inventories) (i k : Z) :
  0 <= i < n_sets inv -> 0 <= k ->
  nth_error (block_inventory inv) (Z.to_nat (i / 1024)) = Some (- k - 1) ->
  select bit d i inv = (p <- vget (overflow_positions inv) (k + i mod 1024) ;; Ret (Some p)).
Proof.
  intros Hi Hk Hb; unfold select, BLOCK_SIZE.
  rewrite (proj2 (Z.leb_gt _ _)) by lia.
  unfold vget at 1; rewrite (proj2 (Z.ltb_ge _ _)) by (apply Z.div_pos; lia).
  rewrite Hb; cbn [obind].
  rewrite (proj2 (Z.ltb_lt _ _)) by lia.
  replace (- (- k - 1) - 1) with k by lia.
  change (1024 - 1) with (Z.ones 10); rewrite Z.land_ones by lia.
  reflexivity.
Qed.

End SparseBlocks.

(** ** DArray construction and the select of a polarity *)

Section DArrayNew.

Lemma vget_nth {A} (l : list A) (j : Z) (dflt : A) :
  0 <= j -> (Z.to_nat j < length l)%nat -> vget l j = Ret (nth (Z.to_nat j) l dflt).
Proof.
  intros H1 H2; unfold vget; rewrite (proj2 (Z.ltb_ge _ _)) by lia.
  rewrite (nth_error_nth' l dflt H2); reflexivity.
Qed.

Lemma darray_new_inv (sel0 pol : bool) (b : BitVector) (d : DArray) (inv : Inventories) :
  darray_new sel0 b = Ret d -> inventory_for d pol = Some inv ->
  inventories_new pol b = Ret inv /\ bv d = b /\
  forall i, select_pol pol d i = select pol d i inv.
Proof.
  unfold darray_new; intros Hd Hi.
  destruct (inventories_new true b) as [o|] eqn:E1; cbn [obind] in Hd; [|discriminate].
  destruct sel0.
  - destruct (inventories_new false b) as [z|] eqn:E2; cbn [obind] in Hd; [|discriminate].
    inversion Hd; subst d.
    destruct pol; cbn in Hi; inversion Hi; subst inv; auto.
  - cbn [obind] in Hd; inversion Hd; subst d.
    destruct pol; cbn in Hi; inversion Hi; subst inv; auto.
Qed.

Lemma length_darray_block (l : list Z) (blk : nat) :
  length (darray_block l blk) = Nat.min 1024 (length l - 1024 * blk).
Proof. unfold darray_block; rewrite length_firstn, length_skipn; reflexivity. Qed.

End DArrayNew.

(** C5: if block [blk] of the [pol]-positions spans at least [2^16] bit
    positions, the construction stores [B[blk] = -(k+1)] where [O[k..]] holds
    the positions of the block in order, and the select of every index [i] of
    the block returns [O[(-B[blk]-1) + (i mod 1024)]], the [i]-th position;
    for the bit vector of length 200000 with ones at 0 and 199999,
    [B = [-1]], [O = [0; 199999]], [select1 0 = Some 0] and
    [select1 1 = Some 199999]. *)
Theorem sparse_block_roundtrip :
  (forall (sel0 pol : bool) (b : BitVector) (d : DArray) (inv : Inventories) (blk : nat),
    darray_new sel0 b = Ret d -> inventory_for d pol = Some inv ->
    (1024 * blk < length (positions pol b))%nat ->
    MAX_IN_BLOCK_DISTACE <= last (darray_block (positions pol b) blk) 0
                            - hd 0 (darray_block (positions pol b) blk) ->
    exists k, 0 <= k /\
      nth_error (block_inventory inv) blk = Some (- (k + 1)) /\
      firstn (length (darray_block (positions pol b) blk))
        (skipn (Z.to_nat k) (overflow_positions inv)) = darray_block (positions pol b) blk /\
      forall i, Z.of_nat (1024 * blk) <= i < Z.of_nat (1024 * blk) + 1024 ->
        i < n_sets inv ->
        (Z.to_nat (k + i mod 1024) < length (overflow_positions inv))%nat /\
        select_pol pol d i
          = Ret (Some (nth (Z.to_nat (k + i mod 1024)) (overflow_positions inv) 0)) /\
        nth (Z.to_nat (k + i mod 1024)) (overflow_positions inv) 0
          = nth (Z.to_nat i) (positions pol b) 0)
  /\
  (exists d, darray_new false bv_sparse = Ret d /\
     block_inventory (ones_inventories d) = [-1] /\
     overflow_positions (ones_inventories d) = [0; 199999] /\
     select1 d 0 = Ret (Some 0) /\ select1 d 1 = Ret (Some 199999)).
Proof.
  split.
  - intros sel0 pol b d inv blk Hd Hi Hlt Hspan.
    destruct (darray_new_inv _ _ _ _ _ Hd Hi) as [Hnew [_ Hsel]].
    destruct (sparse_block_layout pol b inv blk _ Hnew Hlt eq_refl Hspan)
      as [Hn [O1 [os [HO HB]]]].
    set (c := darray_block (positions pol b) blk) in *.
    pose proof (length_darray_block (positions pol b) blk) as Hlc; fold c in Hlc.
    exists (Z.of_nat (length O1)); split; [lia|].
    split; [rewrite HB; f_equal; lia|].
    split.
    + rewrite HO, Nat2Z.id, skipn_app, skipn_all, Nat.sub_diag, skipn_0; simpl.
      rewrite firstn_app, firstn_all, Nat.sub_diag, firstn_O, app_nil_r; reflexivity.
    + intros i Hi1 Hi2.
      rewrite Hn in Hi2.
      assert (Hdiv : i / 1024 = Z.of_nat blk).
      { pose proof (Z.div_mod i 1024 ltac:(lia)); pose proof (Z.mod_pos_bound i 1024 ltac:(lia)).
        lia. }
      assert (Hmod : i mod 1024 = i - 1024 * Z.of_nat blk).
      { pose proof (Z.div_mod i 1024 ltac:(lia)); lia. }
      assert (Hr : (Z.to_nat (i mod 1024) < length c)%nat)
        by (rewrite Hlc; lia).
      assert (Hidx : Z.to_nat (Z.of_nat (length O1) + i mod 1024)
                     = (length O1 + Z.to_nat (i mod 1024))%nat) by lia.
      assert (Hbound : (Z.to_nat (Z.of_nat (length O1) + i mod 1024)
                        < length (overflow_positions inv))%nat)
        by (rewrite HO, !length_app; lia).
      split; [exact Hbound|].
      split.
      * rewrite Hsel, (select_sparse pol d inv i (Z.of_nat (length O1))).
        -- rewrite (vget_nth _ _ 0) by (lia || exact Hbound); reflexivity.
        -- rewrite Hn; lia.
        -- lia.
        -- rewrite Hdiv, Nat2Z.id; exact HB.
      * rewrite Hidx, HO, app_nth2 by lia.
        replace (length O1 + Z.to_nat (i mod 1024) - length O1)%nat
          with (Z.to_nat (i mod 1024)) by lia.
        rewrite app_nth1 by exact Hr.
        unfold c, darray_block; rewrite nth_firstn.
        rewrite (proj2 (Nat.ltb_lt _ _)) by lia.
        rewrite nth_skipn; f_equal; lia.
  - exists (mk_darray false bv_sparse (mk_inv 2 [-1] [65535; 65535] [0; 199999]) None).
    refine (conj _ (conj _ (conj _ (conj _ _)))); vm_compute; reflexivity.
Qed.

(** C8: [select0] panics on a [DArray] built without select0 support; built
    with it, [select0 i] is the select over the zeros inventory. *)
Theorem select0_needs_support (b : BitVector) (i : Z) :
  (d <- darray_new false b ;; select0 d i) = Panic /\
  exists d z, darray_new true b = Ret d /\ inventories_new false b = Ret z /\
    zeroes_inventories d = Some z /\ select0 d i = select false d i z.
Proof.
  split.
  - unfold darray_new; destruct (inventories_new true b); reflexivity.
  - unfold darray_new.
    destruct (inventories_new_ok true b) as [o Ho].
    destruct (inventories_new_ok false b) as [z Hz].
    rewrite Ho, Hz; cbn [obind].
    exists (mk_darray true b o (Some z)), z; repeat split; assumption.
Qed.

(** C9: building with or without select0 support gives the same [select1]
    answers (the construction itself never panics). *)
Theorem select1_same_with_select0_support (b : BitVector) (i : Z) :
  (d <- darray_new true b ;; select1 d i) = (d <- darray_new false b ;; select1 d i).
Proof.
  unfold darray_new.
  destruct (inventories_new true b) as [o|]; cbn [obind]; [|reflexivity].
  destruct (inventories_new_ok false b) as [z Hz]; rewrite Hz; reflexivity.
Qed.

(** ** The not-found answer of [select] *)

Section NotFound.

Lemma inventories_new_nsets (bit : bool) (b : BitVector) (inv : Inventories) :
  inventories_new bit b = Ret inv -> n_sets inv = Z.of_nat (length (positions bit b)).
Proof.
  rewrite inventories_new_blocks; intros H.
  destruct (ofold _ _ _); cbn [obind] in H; inversion H; reflexivity.
Qed.

Lemma select_none (bit : bool) (d : DArray) (i : Z) (inv : Inventories) :
  select bit d i inv = Ret None <-> n_sets inv <= i.
Proof.
  unfold select; destruct (n_sets inv <=? i) eqn:E.
  - apply Z.leb_le in E; split; auto.
  - apply Z.leb_gt in E; split; [|lia]. intros H; exfalso; revert H.
    destruct (vget (block_inventory inv) _); cbn [obind]; [|discriminate].
    destruct (_ <? 0).
    + destruct (vget (overflow_positions inv) _); cbn [obind]; discriminate.
    + destruct (vget (subblock_inventory inv) _); cbn [obind]; [|discriminate].
      destruct (_ =? 0); [discriminate|].
      destruct (get_word _ _); cbn [obind]; [|discriminate].
      destruct (scan_words _ _ _ _ _ _) as [[[? ?] ?]|]; cbn [obind]; discriminate.
Qed.

End NotFound.

(** C1 (defect): on [bv_sparse_then_dense] with [DArray<false>], the
    1025-th one is at 65537, but [select1 1024] returns 131072: the sparse
    first block pushed 1024 entries ([u16::MAX]) to the subblock inventory
    instead of 32, so the dense second block reads [S[32] = 0xFFFF] as the
    offset of its first subblock. *)
Theorem select1_wrong_after_sparse_block :
  nth 1024 (ones bv_sparse_then_dense) 0 = 65537 /\
  (d <- darray_new false bv_sparse_then_dense ;; select1 d 1024) = Ret (Some 131072).
Proof. split; vm_compute; reflexivity. Qed.

(** C3 (defect): the ones of [bv_sparse_then_dense] form a sparse block of
    1024 and a dense block of 2, so one entry per subblock would be
    [32 + 1 = 33] entries with [S[32] = 0] (the offset of the first one of the
    dense block); the construction stores 1025 entries and [S[32] = 0xFFFF]. *)
Theorem subblock_inventory_one_entry_per_position :
  map (@length Z) (darray_blocks (ones bv_sparse_then_dense)) = [1024%nat; 2%nat] /\
  (inv <- inventories_new true bv_sparse_then_dense ;;
   Ret (length (subblock_inventory inv), nth 32 (subblock_inventory inv) 0))
  = Ret (1025%nat, 65535).
Proof. split; vm_compute; reflexivity. Qed.

(** C7 (defect): [select1 i] is [None] exactly when [i >= n_sets]; but for
    [i < n_sets] it need not return a position: on [bv_sparse_then_dense]
    with [DArray<false>], [n_sets = 1026] and the 1026-th one is at 65538,
    yet [select1 1025] panics ([get_word] past the last word). *)
Theorem select1_none_iff_out_of_range :
  (forall (b : BitVector) (i : Z),
     (d <- darray_new false b ;; select1 d i) = Ret None <->
     Z.of_nat (length (ones b)) <= i) /\
  Z.of_nat (length (ones bv_sparse_then_dense)) = 1026 /\
  nth 1025 (ones bv_sparse_then_dense) 0 = 65538 /\
  (d <- darray_new false bv_sparse_then_dense ;; select1 d 1025) = Panic.
Proof.
  split.
  - intros b i; unfold darray_new.
    destruct (inventories_new_ok true b) as [o Ho]; rewrite Ho; cbn [obind].
    unfold select1; cbn [ones_inventories].
    rewrite select_none, (inventories_new_nsets _ _ _ Ho); reflexivity.
  - refine (conj _ (conj _ _)); vm_compute; reflexivity.
Qed.

(** ** [block_predecessor] *)

Section BlockPredecessor.

Lemma bp_loop_gen (c target : Z) (m : nat) : forall (k : nat) (prev : Z),
  (k + m = 7)%nat ->
  let r := bp_loop (map Z.of_nat (seq (S k) m)) (Z.shiftr c (12 * Z.of_nat k)) prev target in
  Z.of_nat k <= fst r <= 7 /\
  snd r = (if fst r =? Z.of_nat k then prev else bp_field c (fst r)) /\
  (forall j, Z.of_nat k < j <= fst r -> bp_field c j < target) /\
  (fst r < 7 -> target <= bp_field c (fst r + 1)).
Proof.
  induction m as [|m IH]; intros k prev Hk r.
  - subst r; cbn [seq map bp_loop fst snd]; unfold SBP_BLOCKS_IN_SUPERBLOCK.
    rewrite (proj2 (Z.eqb_eq _ _)) by lia.
    repeat split; try lia.
  - subst r; cbn [seq map bp_loop].
    assert (Hf : as_usize (Z.land (Z.shiftr c (12 * Z.of_nat k)) 4095)
                 = bp_field c (Z.of_nat (S k))).
    { unfold bp_field; do 3 f_equal; lia. }
    rewrite Hf.
    destruct (target <=? bp_field c (Z.of_nat (S k))) eqn:E.
    + apply Z.leb_le in E; cbn [fst snd].
      rewrite (proj2 (Z.eqb_eq _ _)) by lia.
      repeat split; try lia.
      intros _; replace (Z.of_nat (S k) - 1 + 1) with (Z.of_nat (S k)) by lia; exact E.
    + apply Z.leb_gt in E.
      replace (Z.shiftr (Z.shiftr c (12 * Z.of_nat k)) 12)
        with (Z.shiftr c (12 * Z.of_nat (S k)))
        by (rewrite Z.shiftr_shiftr by lia; f_equal; lia).
      destruct (IH (S k) (bp_field c (Z.of_nat (S k))) ltac:(lia))
        as [H1 [H2 [H3 H4]]].
      set (r := bp_loop _ _ _ _) in *.
      split; [lia|]; split; [|split; [|exact H4]].
      * rewrite H2.
        destruct (fst r =? Z.of_nat (S k)) eqn:E1;
          [apply Z.eqb_eq in E1; rewrite E1|];
          rewrite (proj2 (Z.eqb_neq _ _)) by lia; reflexivity.
      * intros j Hj.
        destruct (Z.eq_dec j (Z.of_nat (S k))) as [->|Hne]; [exact E|].
        apply H3; lia.
Qed.

Lemma mono_chain (f : Z -> Z) (H : forall j, 0 <= j < 7 -> f j <= f (j + 1)) :
  forall m i, 0 <= i -> i + Z.of_nat m <= 7 -> f i <= f (i + Z.of_nat m).
Proof.
  induction m as [|m IH]; intros i Hi Hm.
  - rewrite Z.add_0_r; lia.
  - specialize (IH i Hi ltac:(lia)); specialize (H (i + Z.of_nat m) ltac:(lia)).
    replace (i + Z.of_nat (S m)) with (i + Z.of_nat m + 1) by lia; lia.
Qed.

Lemma block_predecessor_first (sb : SuperblockPlain) (symbol : sym) (target : Z) :
  let r := block_predecessor sb symbol target in
  0 <= fst r <= 7 /\ snd r = get_block_counter sb symbol (fst r) /\
  (forall j, 1 <= j <= fst r -> get_block_counter sb symbol j < target) /\
  (fst r < 7 -> target <= get_block_counter sb symbol (fst r + 1)).
Proof.
  intros r.
  destruct (bp_loop_gen (qget (counters sb) symbol) target 7 0 0 eq_refl)
    as [H1 [H2 [H3 H4]]].
  rewrite Z.shiftr_0_r in H1, H2, H3, H4.
  change (bp_loop _ (qget (counters sb) symbol) 0 target) with r in H1, H2, H3, H4.
  assert (Hg : forall j, 1 <= j -> get_block_counter sb symbol j
                                   = bp_field (qget (counters sb) symbol) j).
  { intros j Hj; unfold get_block_counter; rewrite (proj2 (Z.eqb_neq _ _)) by lia;
    reflexivity. }
  assert (Hsnd : snd r = get_block_counter sb symbol (fst r)).
  { rewrite H2; destruct (fst r =? Z.of_nat 0) eqn:E.
    - apply Z.eqb_eq in E; rewrite E; reflexivity.
    - apply Z.eqb_neq in E; rewrite Hg by lia; reflexivity. }
  assert (Hlt : forall j, 1 <= j <= fst r -> get_block_counter sb symbol j < target)
    by (intros j Hj; rewrite Hg by lia; apply H3; lia).
  assert (Hnext : fst r < 7 -> target <= get_block_counter sb symbol (fst r + 1))
    by (intros H; rewrite Hg by lia; apply H4, H).
  split; [lia|]; split; [exact Hsnd|]; split; [exact Hlt|exact Hnext].
Qed.

End BlockPredecessor.

(** C6 (counterexample): on [sb_block1_only], [block_predecessor Sym0 3] is
    [(0, 0)], though block 7 also has a counter ([0]) below 3. *)
Lemma block_predecessor_not_largest :
  block_predecessor sb_block1_only Sym0 3 = (0, 0) /\
  get_block_counter sb_block1_only Sym0 7 = 0 /\
  ~ bp_described sb_block1_only Sym0 3 (block_predecessor sb_block1_only Sym0 3).
Proof.
  assert (E0 : block_predecessor sb_block1_only Sym0 3 = (0, 0)) by (vm_compute; reflexivity).
  split; [exact E0|]; split; [vm_compute; reflexivity|].
  rewrite E0; intros [_ [_ [H _]]]; specialize (H 7 ltac:(simpl; lia)).
  vm_compute in H; apply H; reflexivity.
Qed.

(** C6 (amended): [block_predecessor s target] returns [(b, get_block_counter
    s b)] where [b + 1] is the first block id in [1, 7] whose counter reaches
    [target], and [b = 7] when there is none; so, for [target >= 1] and block
    counters that do not decrease with the block id, [b] is the largest index
    whose counter is below [target]. *)
Theorem block_predecessor_first_reaching (sb : SuperblockPlain) (symbol : sym) (target : Z) :
  let r := block_predecessor sb symbol target in
  0 <= fst r <= 7 /\ snd r = get_block_counter sb symbol (fst r) /\
  (forall j, 1 <= j <= fst r -> get_block_counter sb symbol j < target) /\
  (fst r < 7 -> target <= get_block_counter sb symbol (fst r + 1)) /\
  (1 <= target ->
   (forall j, 0 <= j < 7 ->
      get_block_counter sb symbol j <= get_block_counter sb symbol (j + 1)) ->
   bp_described sb symbol target r).
Proof.
  intros r.
  destruct (block_predecessor_first sb symbol target) as (H1 & Hsnd & Hlt & Hnext).
  change (block_predecessor sb symbol target) with r in H1, Hsnd, Hlt, Hnext.
  split; [lia|]; split; [exact Hsnd|]; split; [exact Hlt|]; split; [exact Hnext|].
  intros Ht Hmono; unfold bp_described.
  split; [lia|]; split; [|split; [|exact Hsnd]].
  - destruct (Z.eq_dec (fst r) 0) as [E|E].
    + rewrite E; unfold get_block_counter; simpl; lia.
    + apply Hlt; lia.
  - intros j Hj.
    pose proof (mono_chain (get_block_counter sb symbol) Hmono
                  (Z.to_nat (j - (fst r + 1))) (fst r + 1) ltac:(lia) ltac:(lia)) as Hc.
    rewrite Z2Nat.id in Hc by lia.
    replace (fst r + 1 + (j - (fst r + 1))) with j in Hc by lia.
    specialize (Hnext ltac:(lia)); lia.
Qed.

(** Witness of C6 (amended) on [sb_increasing] with target 4. *)
Lemma block_predecessor_first_reaching_witness :
  block_predecessor sb_increasing Sym0 4 = (3, 3) /\
  bp_described sb_increasing Sym0 4 (block_predecessor sb_increasing Sym0 4).
Proof.
  split; [vm_compute; reflexivity|].
  destruct (block_predecessor_first_reaching sb_increasing Sym0 4) as [_ [_ [_ [_ H]]]].
  apply H; [lia|].
  intros j Hj.
  assert (j = 0 \/ j = 1 \/ j = 2 \/ j = 3 \/ j = 4 \/ j = 5 \/ j = 6) as Hc by lia.
  destruct Hc as [->|[->|[->|[->|[->|[->| ->]]]]]]; vm_compute; discriminate.
Defined.

(** ** The counters word of a [SuperblockPlain] *)

Section SuperblockWord.

Lemma qget_quad_of {A} (f : sym -> A) (x : sym) : qget (quad_of f) x = f x.
Proof. destruct x; reflexivity. Qed.

Lemma quad_of_ext {A} (f g : sym -> A) : (forall x, f x = g x) -> quad_of f = quad_of g.
Proof. intros H; unfold quad_of; rewrite !H; reflexivity. Qed.

Lemma sb_enc_cons (S f : Z) (fs : list Z) : sb_enc S (f :: fs) = f + 2 ^ 12 * sb_enc S fs.
Proof. reflexivity. Qed.

Lemma sb_enc_div (sc : Z) (fs : list Z) (k : nat) :
  Forall (fun f => 0 <= f < 2 ^ 12) fs -> (k <= length fs)%nat ->
  sb_enc sc fs / 2 ^ (12 * Z.of_nat k) = sb_enc sc (skipn k fs).
Proof.
  revert k; induction fs as [|f fs IH]; intros k Hf Hk.
  - destruct k; [|simpl in Hk; lia]. simpl; apply Z.div_1_r.
  - destruct k as [|k].
    + rewrite Z.mul_0_r, Z.pow_0_r, Z.div_1_r; reflexivity.
    + inversion Hf as [|? ? Hf1 Hf2]; subst.
      rewrite sb_enc_cons; cbn [skipn].
      replace (12 * Z.of_nat (S k)) with (12 + 12 * Z.of_nat k) by lia.
      rewrite Z.pow_add_r, <- Z.div_div by lia.
      rewrite (Z.mul_comm (2 ^ 12)), Z.add_comm, Z.div_add_l by lia.
      rewrite (Z.div_small f) by lia; rewrite Z.add_0_r.
      apply IH; [exact Hf2 | simpl in Hk; lia].
Qed.

Lemma sb_enc_mod (S f : Z) (fs : list Z) : 0 <= f < 2 ^ 12 -> sb_enc S (f :: fs) mod 2 ^ 12 = f.
Proof.
  intros H; rewrite sb_enc_cons, Z.mul_comm, Z.mod_add by lia.
  apply Z.mod_small, H.
Qed.

Lemma sb_fields_range (F : Z -> Z) :
  (forall b, 1 <= b <= 7 -> 0 <= F b < 2 ^ 12) -> Forall (fun f => 0 <= f < 2 ^ 12) (sb_fields F).
Proof. intros H; unfold sb_fields; repeat constructor; apply H; lia. Qed.

Lemma sb_field_read (S : Z) (F : Z -> Z) (b : Z) :
  (forall b', 1 <= b' <= 7 -> 0 <= F b' < 2 ^ 12) -> 1 <= b <= 7 ->
  (sb_enc S (sb_fields F) / 2 ^ (12 * (b - 1))) mod 2 ^ 12 = F b.
Proof.
  intros HF Hb.
  replace (12 * (b - 1)) with (12 * Z.of_nat (Z.to_nat (b - 1))) by lia.
  rewrite sb_enc_div by (apply sb_fields_range, HF || (unfold sb_fields; simpl; lia)).
  assert (E : skipn (Z.to_nat (b - 1)) (sb_fields F) = F b :: skipn (Z.to_nat b) (sb_fields F)).
  { assert (b = 1 \/ b = 2 \/ b = 3 \/ b = 4 \/ b = 5 \/ b = 6 \/ b = 7) as Hc by lia.
    destruct Hc as [->|[->|[->|[->|[->|[->| ->]]]]]]; reflexivity. }
  rewrite E; apply sb_enc_mod, HF, Hb.
Qed.

Lemma sb_super_read (S : Z) (F : Z -> Z) :
  (forall b', 1 <= b' <= 7 -> 0 <= F b' < 2 ^ 12) -> sb_enc S (sb_fields F) / 2 ^ 84 = S.
Proof.
  intros HF; change 84 with (12 * Z.of_nat 7).
  rewrite sb_enc_div by (apply sb_fields_range, HF || (unfold sb_fields; simpl; lia)).
  reflexivity.
Qed.

Lemma sb_enc_set (S : Z) (F : Z -> Z) (b v : Z) :
  1 <= b <= 7 ->
  sb_enc S (sb_fields F) + v * 2 ^ (12 * (b - 1))
  = sb_enc S (sb_fields (fun b' => if b' =? b then F b' + v else F b')).
Proof.
  intros Hb.
  assert (b = 1 \/ b = 2 \/ b = 3 \/ b = 4 \/ b = 5 \/ b = 6 \/ b = 7) as Hc by lia.
  destruct Hc as [->|[->|[->|[->|[->|[->| ->]]]]]];
    cbv beta iota zeta delta [sb_fields sb_enc map fold_right Z.eqb Pos.eqb];
    match goal with |- context [2 ^ (12 * ?e)] =>
      let x := eval vm_compute in (12 * e) in change (12 * e) with x end; ring.
Qed.

Lemma sb_enc_land_zero (S : Z) (F : Z -> Z) (b v : Z) :
  (forall b', 1 <= b' <= 7 -> 0 <= F b' < 2 ^ 12) -> 1 <= b <= 7 -> F b = 0 ->
  0 <= v < 2 ^ 12 ->
  Z.land (sb_enc S (sb_fields F)) (v * 2 ^ (12 * (b - 1))) = 0.
Proof.
  intros HF Hb H0 Hv; apply Z.bits_inj_0; intros m; rewrite Z.land_spec.
  destruct (Z.ltb_spec m 0) as [Hm|Hm]; [rewrite Z.testbit_neg_r by lia; reflexivity|].
  rewrite <- Z.shiftl_mul_pow2 by lia.
  destruct (Z.ltb_spec m (12 * (b - 1))) as [H1|H1].
  { rewrite Z.shiftl_spec_low by lia; apply andb_false_r. }
  rewrite Z.shiftl_spec_high by lia.
  destruct (Z.ltb_spec (m - 12 * (b - 1)) 12) as [H2|H2].
  - assert (Hx : Z.testbit (sb_enc S (sb_fields F)) m
                 = Z.testbit ((sb_enc S (sb_fields F) / 2 ^ (12 * (b - 1))) mod 2 ^ 12)
                             (m - 12 * (b - 1))).
    { rewrite Z.mod_pow2_bits_low by lia; rewrite Z.div_pow2_bits by lia.
      f_equal; lia. }
    rewrite Hx, sb_field_read, H0, Z.testbit_0_l by assumption; reflexivity.
  - rewrite <- (Z.mod_small v (2 ^ 12)) by lia.
    rewrite Z.mod_pow2_bits_high by lia; apply andb_false_r.
Qed.

Lemma lor_field (S : Z) (F : Z -> Z) (b v : Z) :
  (forall b', 1 <= b' <= 7 -> 0 <= F b' < 2 ^ 12) -> 1 <= b <= 7 -> F b = 0 ->
  0 <= v < 2 ^ 12 ->
  Z.lor (sb_enc S (sb_fields F)) (u128_shl v ((b - 1) * 12))
  = sb_enc S (sb_fields (fun b' => if b' =? b then v else F b')).
Proof.
  intros HF Hb H0 Hv; unfold u128_shl.
  rewrite Z.shiftl_mul_pow2 by lia.
  assert (Hp : 2 ^ ((b - 1) * 12) <= 2 ^ 72) by (apply Z.pow_le_mono_r; lia).
  rewrite Z.mod_small by (split; [apply Z.mul_nonneg_nonneg; lia |];
                          apply (Z.lt_le_trans _ (2 ^ 12 * 2 ^ 72)); [nia | vm_compute; discriminate]).
  replace ((b - 1) * 12) with (12 * (b - 1)) by ring.
  rewrite <- Z.lxor_lor, <- Z.add_nocarry_lxor by (apply sb_enc_land_zero; assumption).
  rewrite sb_enc_set by exact Hb.
  f_equal; unfold sb_fields; apply map_ext; intros b'.
  destruct (Z.eqb_spec b' b); [subst; rewrite H0; ring | reflexivity].
Qed.

Lemma set_block_counters_field (S : sym -> Z) (F : sym -> Z -> Z) (b : Z) (v : sym -> Z) :
  1 <= b <= 7 ->
  (forall x b', 1 <= b' <= 7 -> 0 <= F x b' < 2 ^ 12) -> (forall x, F x b = 0) ->
  (forall x, 0 <= v x < 2 ^ 12) ->
  set_block_counters (mk_sbp (quad_of (fun x => sb_enc (S x) (sb_fields (F x))))) b (quad_of v)
  = Ret (mk_sbp (quad_of (fun x => sb_enc (S x)
                            (sb_fields (fun b' => if b' =? b then v x else F x b'))))).
Proof.
  intros Hb HF H0 Hv; unfold set_block_counters.
  rewrite (proj2 (Z.ltb_lt b 8)) by lia; cbn [negb].
  assert (Hq : qall (fun c => c <? 2 ^ 12) (quad_of v) = true).
  { unfold qall, quad_of; cbn [q0 q1 q2 q3].
    repeat rewrite andb_true_iff; repeat split; apply Z.ltb_lt, Hv. }
  rewrite Hq; cbn [negb].
  rewrite (proj2 (Z.eqb_neq b 0)) by lia.
  unfold qzip, quad_of; cbn [q0 q1 q2 q3 counters].
  rewrite !lor_field by auto; reflexivity.
Qed.

Lemma sbp_new_fields (S : sym -> Z) :
  (forall x, 0 <= S x < 2 ^ 44) ->
  sbp_new (quad_of S) = mk_sbp (quad_of (fun x => sb_enc (S x) (sb_fields (fun _ => 0)))).
Proof.
  intros HS; unfold sbp_new, qmap, quad_of, u128_shl; cbn [q0 q1 q2 q3].
  assert (E : forall c, 0 <= c < 2 ^ 44 ->
              Z.shiftl c 84 mod 2 ^ 128 = sb_enc c (sb_fields (fun _ => 0))).
  { intros c Hc; rewrite Z.shiftl_mul_pow2 by lia.
    rewrite Z.mod_small by (split; [lia|];
      apply (Z.lt_le_trans _ (2 ^ 44 * 2 ^ 84)); [nia | vm_compute; discriminate]).
    unfold sb_enc, sb_fields; cbn [map fold_right]; ring. }
  rewrite !E by apply HS; reflexivity.
Qed.

Lemma get_superblock_counter_fields (S : sym -> Z) (F : sym -> Z -> Z) (x : sym) :
  (forall y b', 1 <= b' <= 7 -> 0 <= F y b' < 2 ^ 12) -> 0 <= S x < 2 ^ 64 ->
  get_superblock_counter (mk_sbp (quad_of (fun y => sb_enc (S y) (sb_fields (F y))))) x = S x.
Proof.
  intros HF HS; unfold get_superblock_counter, as_usize; cbn [counters].
  rewrite qget_quad_of, Z.shiftr_div_pow2, sb_super_read by (auto || lia).
  apply Z.mod_small, HS.
Qed.

Lemma get_block_counter_fields (S : sym -> Z) (F : sym -> Z -> Z) (x : sym) (b : Z) :
  (forall y b', 1 <= b' <= 7 -> 0 <= F y b' < 2 ^ 12) -> 1 <= b <= 7 ->
  get_block_counter (mk_sbp (quad_of (fun y => sb_enc (S y) (sb_fields (F y))))) x b = F x b.
Proof.
  intros HF Hb; unfold get_block_counter, as_usize; cbn [counters].
  rewrite (proj2 (Z.eqb_neq b 0)) by lia.
  rewrite qget_quad_of, Z.shiftr_div_pow2 by lia.
  change 4095 with (Z.ones 12); rewrite Z.land_ones by lia.
  replace ((b - 1) * 12) with (12 * (b - 1)) by ring.
  rewrite sb_field_read by auto.
  apply Z.mod_small; specialize (HF x b Hb); split; [lia|].
  apply (Z.lt_le_trans _ (2 ^ 12)); [lia | apply Z.pow_le_mono_r; lia].
Qed.

End SuperblockWord.

(** ** The rank of a symbol in a prefix *)

Section RankNaive.

Variable qv : list sym.

Lemma firstn_S_nth {A} (l : list A) (k : nat) (d : A) :
  (k < length l)%nat -> firstn (S k) l = firstn k l ++ [nth k l d].
Proof.
  revert k; induction l as [|a l IH]; intros k Hk; [simpl in Hk; lia|].
  destruct k as [|k]; [reflexivity|].
  change (firstn (S (S k)) (a :: l)) with (a :: firstn (S k) l).
  change (firstn (S k) (a :: l)) with (a :: firstn k l).
  change (nth (S k) (a :: l) d) with (nth k l d).
  rewrite IH by (simpl in Hk; lia); reflexivity.
Qed.

Lemma filter_length_le' {A} (f : A -> bool) (l : list A) : (length (filter f l) <= length l)%nat.
Proof. induction l as [|a l IH]; simpl; [lia | destruct (f a); simpl; lia]. Qed.

Lemma sym_eqb_eq (a b : sym) : sym_eqb a b = true <-> a = b.
Proof. destruct a, b; simpl; split; congruence. Qed.

Lemma sym_eqb_refl (a : sym) : sym_eqb a a = true.
Proof. destruct a; reflexivity. Qed.

Lemma rank_naive_nonpos (x : sym) (k : Z) : k <= 0 -> rank_naive qv x k = 0.
Proof. intros H; unfold rank_naive; replace (Z.to_nat k) with 0%nat by lia; reflexivity. Qed.

Lemma rank_naive_nonneg (x : sym) (k : Z) : 0 <= rank_naive qv x k.
Proof. unfold rank_naive; lia. Qed.

Lemma rank_naive_succ (x : sym) (k : nat) :
  rank_naive qv x (Z.of_nat (S k))
  = rank_naive qv x (Z.of_nat k)
    + (if (k <? length qv)%nat && sym_eqb x (nth k qv Sym0) then 1 else 0).
Proof.
  unfold rank_naive; rewrite !Nat2Z.id.
  destruct (Nat.ltb_spec k (length qv)) as [Hk|Hk].
  - rewrite (firstn_S_nth qv k Sym0 Hk), filter_app, length_app; cbn [andb].
    simpl filter; destruct (sym_eqb x (nth k qv Sym0)); simpl length; lia.
  - rewrite !firstn_all2 by lia; cbn [andb]; lia.
Qed.

Lemma rank_naive_step (x : sym) (K : Z) :
  0 <= K < Z.of_nat (length qv) ->
  rank_naive qv x (K + 1)
  = rank_naive qv x K + (if sym_eqb x (nth (Z.to_nat K) qv Sym0) then 1 else 0).
Proof.
  intros HK.
  replace (K + 1) with (Z.of_nat (S (Z.to_nat K))) by lia.
  rewrite rank_naive_succ, Z2Nat.id by lia.
  rewrite (proj2 (Nat.ltb_lt _ _)) by lia; reflexivity.
Qed.

Lemma rank_naive_sat (x : sym) (k : Z) :
  Z.of_nat (length qv) <= k -> rank_naive qv x k = rank_naive qv x (Z.of_nat (length qv)).
Proof.
  intros H; unfold rank_naive; rewrite Nat2Z.id, !firstn_all2 by lia; reflexivity.
Qed.

Lemma rank_naive_le_len (x : sym) (k : Z) : rank_naive qv x k <= Z.of_nat (length qv).
Proof.
  unfold rank_naive.
  pose proof (filter_length_le' (sym_eqb x) (firstn (Z.to_nat k) qv)).
  pose proof (length_firstn (Z.to_nat k) qv); lia.
Qed.

Lemma rank_naive_mono_nat (x : sym) (a d : nat) :
  0 <= rank_naive qv x (Z.of_nat (d + a)) - rank_naive qv x (Z.of_nat a) <= Z.of_nat d.
Proof.
  induction d as [|d IH].
  - simpl Nat.add; lia.
  - rewrite Nat.add_succ_l, rank_naive_succ.
    destruct ((_ <? _)%nat && _); lia.
Qed.

Lemma rank_naive_mono_diff (x : sym) (a b : Z) :
  0 <= a <= b -> 0 <= rank_naive qv x b - rank_naive qv x a <= b - a.
Proof.
  intros Hab.
  pose proof (rank_naive_mono_nat x (Z.to_nat a) (Z.to_nat (b - a))) as H.
  rewrite Z2Nat.id in H by lia.
  replace (Z.of_nat (Z.to_nat (b - a) + Z.to_nat a)) with b in H by lia.
  replace (Z.of_nat (Z.to_nat a)) with a in H by lia; lia.
Qed.

End RankNaive.

(** ** Arithmetic of the block and superblock indices *)

Ltac zdiv_one x c :=
  let q := fresh "q" in
  let r := fresh "r" in
  pose proof (Z.div_mod x c ltac:(lia));
  pose proof (Z.mod_pos_bound x c ltac:(lia));
  set (q := x / c) in *; set (r := x mod c) in *; clearbody q r.

Ltac zdiv_elim :=
  repeat match goal with
  | H : context [?x / ?c] |- _ => zdiv_one x c
  | |- context [?x / ?c] => zdiv_one x c
  | H : context [?x mod ?c] |- _ => zdiv_one x c
  | |- context [?x mod ?c] => zdiv_one x c
  end.

Section RSArith.

Variable B : Z.
Hypothesis HB : B = 256 \/ B = 512.

Ltac arith_B :=
  destruct HB as [-> | ->]; unfold n_superblocks in *; simpl (8 * _) in *;
  zdiv_elim; lia.

Lemma arith_new (K : Z) :
  0 <= K -> K mod (8 * B) = 0 ->
  n_superblocks B (K + 1) = n_superblocks B K + 1 /\ n_superblocks B K = K / (8 * B) /\
  8 * B * (K / (8 * B)) = K /\ K mod B = 0 /\ (K / B) mod 8 = 0 /\
  (K + 1 - 1) / (8 * B) = K / (8 * B).
Proof. intros; repeat split; arith_B. Qed.

Lemma arith_same (K : Z) :
  0 <= K -> K mod (8 * B) <> 0 ->
  n_superblocks B (K + 1) = n_superblocks B K /\ n_superblocks B K = K / (8 * B) + 1 /\
  (K - 1) / (8 * B) = K / (8 * B) /\ (K + 1 - 1) / (8 * B) = K / (8 * B).
Proof. intros; repeat split; arith_B. Qed.

Lemma arith_block (K : Z) :
  0 <= K -> K mod (8 * B) <> 0 -> K mod B = 0 ->
  1 <= (K / B) mod 8 <= 7 /\ 8 * B * (K / (8 * B)) + B * ((K / B) mod 8) = K.
Proof. intros; repeat split; arith_B. Qed.

Lemma arith_field (K j b : Z) :
  1 <= b <= 7 -> 8 * B * j + B * b = K ->
  K mod B = 0 /\ K mod (8 * B) <> 0 /\ j = K / (8 * B) /\ b = (K / B) mod 8.
Proof. intros; repeat split; arith_B. Qed.

Lemma arith_mod_B (K : Z) : K mod B <> 0 -> K mod (8 * B) <> 0.
Proof. intros; arith_B. Qed.

Lemma arith_sb_offset (K : Z) : 0 <= K - 8 * B * (K / (8 * B)) < 8 * B /\ 8 * B <= 4096.
Proof. intros; repeat split; arith_B. Qed.

Lemma arith_final (N : Z) :
  0 <= N ->
  n_superblocks B (N + 1) = N / (8 * B) + 1 /\
  8 * B * (N / (8 * B)) + B * ((N / B) mod 8) = B * (N / B) /\
  B * (N / B) <= N < B * (N / B) + B /\ 0 <= (N / B) mod 8 <= 7 /\ 0 <= N / (8 * B).
Proof. intros; repeat split; arith_B. Qed.

Lemma arith_zero : n_superblocks B 0 = 0 /\ (0 - 1) / (8 * B) = -1.
Proof. split; arith_B. Qed.

Lemma arith_J_bound (N : Z) : 0 <= N < 2 ^ 43 -> 0 <= N / (8 * B) < 2 ^ 32.
Proof. intros; split; arith_B. Qed.

Lemma arith_same_block (q M : Z) :
  0 <= q <= M -> M < B * (q / B) + B ->
  M / B = q / B /\ M / (8 * B) = q / (8 * B) /\ (M / B) mod 8 = (q / B) mod 8.
Proof. intros; repeat split; arith_B. Qed.

Lemma arith_sb_lt (j r : Z) : r < j -> 8 * B * r + 8 * B <= 8 * B * j.
Proof. intros; destruct HB as [-> | ->]; lia. Qed.

Lemma arith_sb_le (j r : Z) : j <= r -> 8 * B * j <= 8 * B * r.
Proof. intros; destruct HB as [-> | ->]; lia. Qed.

Lemma arith_b_le (b c : Z) : b <= c -> B * b <= B * c.
Proof. intros; destruct HB as [-> | ->]; lia. Qed.

Lemma arith_sb_div_le (p q : Z) : p <= q -> p / (8 * B) <= q / (8 * B).
Proof. intros; apply Z.div_le_mono; [destruct HB as [-> | ->]; lia | exact H]. Qed.

Lemma arith_pos_sb (q : Z) : 0 <= q -> B * (q / B) / (8 * B) = q / (8 * B).
Proof. intros; arith_B. Qed.

End RSArith.

(** ** The construction loop of [RSSupportPlain::new] *)

Section BuildInvariant.

Variable B : Z.
Variable qv : list sym.
Hypothesis HB : B = 256 \/ B = 512.
Hypothesis Hlen : Z.of_nat (length qv) < 2 ^ 43.

Lemma in_fields (b : Z) : In b [1; 2; 3; 4; 5; 6; 7] -> 1 <= b <= 7.
Proof. simpl; intros H; repeat (destruct H as [<- | H]; [lia |]); contradiction. Qed.

Lemma update_last_app (l : list SuperblockPlain) (x : SuperblockPlain) f :
  update_last (l ++ [x]) f = (y <- f x ;; Ret (l ++ [y])).
Proof.
  unfold update_last; destruct (l ++ [x]) as [|s0 l'] eqn:E.
  - destruct l; discriminate.
  - rewrite <- E, last_last, removelast_last; reflexivity.
Qed.

Lemma set_block_counters_zero (sb : SuperblockPlain) :
  set_block_counters sb 0 (qconst 0) = Ret sb.
Proof. reflexivity. Qed.

Lemma qset_quad_of {A} (f : sym -> A) (y : sym) (a : A) :
  qset (quad_of f) y a = quad_of (fun x => if sym_eqb x y then a else f x).
Proof. destruct y; reflexivity. Qed.

Lemma sb_exp_ext (w1 w2 : Z -> Z -> bool) (j : Z) :
  (forall b, 1 <= b <= 7 -> w1 j b = w2 j b) -> sb_exp B qv w1 j = sb_exp B qv w2 j.
Proof.
  intros H; unfold sb_exp; f_equal; apply quad_of_ext; intros x; f_equal.
  unfold sb_fields; apply map_ext_in; intros b Hb; rewrite H by (apply in_fields, Hb).
  reflexivity.
Qed.

Lemma sbs_exp_ext (w1 w2 : Z -> Z -> bool) (cnt : nat) :
  (forall j b, 0 <= j < Z.of_nat cnt -> 1 <= b <= 7 -> w1 j b = w2 j b) ->
  sbs_exp B qv w1 cnt = sbs_exp B qv w2 cnt.
Proof.
  intros H; unfold sbs_exp; apply map_ext_in; intros j Hj; apply in_seq in Hj.
  apply sb_exp_ext; intros b Hb; apply H; lia.
Qed.

Lemma sbs_exp_S (w : Z -> Z -> bool) (cnt : nat) :
  sbs_exp B qv w (S cnt) = sbs_exp B qv w cnt ++ [sb_exp B qv w (Z.of_nat cnt)].
Proof. unfold sbs_exp; rewrite seq_S, map_app; reflexivity. Qed.

Lemma written_before_succ (K j b : Z) :
  8 * B * j + B * b <> K -> written_before B (K + 1) j b = written_before B K j b.
Proof.
  intros H; unfold written_before.
  destruct (Z.ltb_spec (8 * B * j + B * b) (K + 1)), (Z.ltb_spec (8 * B * j + B * b) K);
    reflexivity || lia.
Qed.

Lemma rank_naive_bound (x : sym) (k : Z) : 0 <= rank_naive qv x k < 2 ^ 43.
Proof. pose proof (rank_naive_nonneg qv x k); pose proof (rank_naive_le_len qv x k); lia. Qed.

Lemma sb_exp_fields_range (w : Z -> Z -> bool) (j : Z) :
  0 <= j ->
  forall x b', 1 <= b' <= 7 ->
  0 <= (if w j b' then rank_naive qv x (8 * B * j + B * b') - rank_naive qv x (8 * B * j)
        else 0) < 2 ^ 12.
Proof.
  intros Hj x b' Hb; destruct (w j b'); [| lia].
  assert (0 <= 8 * B * j) by (destruct HB; subst; lia).
  pose proof (rank_naive_mono_diff qv x (8 * B * j) (8 * B * j + B * b')
                ltac:(destruct HB; subst; lia)).
  destruct HB; subst; lia.
Qed.

Lemma set_block_counters_sb_exp (w : Z -> Z -> bool) (j bid : Z) (v : sym -> Z) :
  0 <= j -> 1 <= bid <= 7 -> w j bid = false -> (forall x, 0 <= v x < 2 ^ 12) ->
  set_block_counters (sb_exp B qv w j) bid (quad_of v)
  = Ret (mk_sbp (quad_of (fun x => sb_enc (rank_naive qv x (8 * B * j))
           (sb_fields (fun b' => if b' =? bid then v x
                                 else if w j b'
                                 then rank_naive qv x (8 * B * j + B * b')
                                      - rank_naive qv x (8 * B * j)
                                 else 0))))).
Proof.
  intros Hj Hb Hw Hv; unfold sb_exp.
  apply (set_block_counters_field (fun x => rank_naive qv x (8 * B * j))
           (fun x b => if w j b then rank_naive qv x (8 * B * j + B * b)
                                     - rank_naive qv x (8 * B * j) else 0)).
  - exact Hb.
  - apply sb_exp_fields_range, Hj.
  - intros x; rewrite Hw; reflexivity.
  - exact Hv.
Qed.

Lemma sbs_case_A (k : nat) :
  (k <= length qv)%nat -> Z.of_nat k mod (8 * B) = 0 ->
  update_last (sbs_exp B qv (written_before B (Z.of_nat k))
                 (Z.to_nat (n_superblocks B (Z.of_nat k)))
               ++ [sbp_new (quad_of (fun x => rank_naive qv x (Z.of_nat k)))])
    (fun sb => set_block_counters sb ((Z.of_nat k / B) mod 8) (qconst 0))
  = Ret (sbs_exp B qv (written_before B (Z.of_nat (S k)))
           (Z.to_nat (n_superblocks B (Z.of_nat (S k))))).
Proof.
  intros Hk HK; set (K := Z.of_nat k) in *.
  destruct (arith_new B HB K ltac:(lia) HK) as (E1 & E2 & E3 & E4 & E5 & E6).
  rewrite E5, update_last_app, set_block_counters_zero; cbn [obind]; f_equal.
  replace (Z.of_nat (S k)) with (K + 1) by lia.
  assert (HJ : 0 <= K / (8 * B)) by (apply Z.div_pos; destruct HB; subst; lia).
  rewrite E1, Z2Nat.inj_add, Nat.add_1_r, sbs_exp_S by lia; f_equal.
  - symmetry; apply sbs_exp_ext; intros j b Hj Hb; apply written_before_succ.
    intros E; destruct (arith_field B HB K j b Hb E) as (_ & H & _); contradiction.
  - rewrite sbp_new_fields by (intros x; pose proof (rank_naive_bound x K); lia).
    rewrite Z2Nat.id, E2 by lia; unfold sb_exp; rewrite E3; f_equal; f_equal.
    apply quad_of_ext; intros x; f_equal; unfold sb_fields; apply map_ext_in.
    intros b Hb%in_fields; unfold written_before; rewrite E3.
    destruct (Z.ltb_spec (K + B * b) (K + 1)); [destruct HB; subst; lia | reflexivity].
Qed.

Lemma sbs_case_B (k : nat) :
  (k <= length qv)%nat -> Z.of_nat k mod (8 * B) <> 0 -> Z.of_nat k mod B = 0 ->
  update_last (sbs_exp B qv (written_before B (Z.of_nat k))
                 (Z.to_nat (n_superblocks B (Z.of_nat k))))
    (fun sb => set_block_counters sb ((Z.of_nat k / B) mod 8)
       (quad_of (fun x => rank_naive qv x (Z.of_nat k)
                          - rank_naive qv x (8 * B * ((Z.of_nat k - 1) / (8 * B))))))
  = Ret (sbs_exp B qv (written_before B (Z.of_nat (S k)))
           (Z.to_nat (n_superblocks B (Z.of_nat (S k))))).
Proof.
  intros Hk HK HKB; set (K := Z.of_nat k) in *.
  destruct (arith_same B HB K ltac:(lia) HK) as (E1 & E2 & E3 & _).
  destruct (arith_block B HB K ltac:(lia) HK HKB) as (Hb & Hpos).
  replace (Z.of_nat (S k)) with (K + 1) by lia.
  rewrite E1, E2, E3.
  set (J := K / (8 * B)) in *; set (bid := (K / B) mod 8) in *.
  assert (HJ : 0 <= J) by (apply Z.div_pos; destruct HB; subst; lia).
  rewrite Z2Nat.inj_add, Nat.add_1_r, !sbs_exp_S, update_last_app by lia.
  rewrite Z2Nat.id by lia.
  rewrite set_block_counters_sb_exp; cycle 1.
  { exact HJ. }
  { exact Hb. }
  { unfold written_before; rewrite Hpos; apply Z.ltb_irrefl. }
  { intros x; pose proof (rank_naive_mono_diff qv x (8 * B * J) K
                            ltac:(destruct HB; subst; lia)).
    pose proof (arith_sb_offset B HB K); fold J in H0; lia. }
  cbn [obind]; f_equal; f_equal.
  - apply sbs_exp_ext; intros j b Hj Hb'; symmetry; apply written_before_succ.
    intros E; destruct (arith_field B HB K j b Hb' E) as (_ & _ & H & _); lia.
  - f_equal; unfold sb_exp; f_equal; apply quad_of_ext; intros x; f_equal.
    unfold sb_fields; apply map_ext_in; intros b Hb'%in_fields.
    destruct (Z.eqb_spec b bid) as [->|Hne].
    + unfold written_before; rewrite Hpos, (proj2 (Z.ltb_lt K (K + 1))) by lia.
      reflexivity.
    + rewrite written_before_succ; [reflexivity|].
      intros E; destruct (arith_field B HB K J b Hb' E) as (_ & _ & _ & H); contradiction.
Qed.

Lemma sbs_case_C (k : nat) :
  Z.of_nat k mod B <> 0 ->
  sbs_exp B qv (written_before B (Z.of_nat k)) (Z.to_nat (n_superblocks B (Z.of_nat k)))
  = sbs_exp B qv (written_before B (Z.of_nat (S k)))
      (Z.to_nat (n_superblocks B (Z.of_nat (S k)))).
Proof.
  intros HKB; set (K := Z.of_nat k) in *.
  destruct (arith_same B HB K ltac:(lia) (arith_mod_B B HB K HKB)) as (E1 & _).
  replace (Z.of_nat (S k)) with (K + 1) by lia; rewrite E1.
  apply sbs_exp_ext; intros j b Hj Hb; symmetry; apply written_before_succ.
  intros E; destruct (arith_field B HB K j b Hb E) as (H & _); contradiction.
Qed.

Lemma samples_exp_S (x : sym) (k : nat) :
  samples_exp B qv x (S k)
  = samples_exp B qv x k
    ++ (if sym_eqb x (nth k qv Sym0) && (rank_naive qv x (Z.of_nat k) mod 8192 =? 0)
        then [(Z.of_nat k / (B * 8)) mod 2 ^ 32] else []).
Proof.
  unfold samples_exp, sample_positions; rewrite seq_S, filter_app, map_app.
  cbn [filter]; destruct (_ && _); reflexivity.
Qed.

Lemma quad_incr (k : nat) (D : sym -> Z) :
  (k < length qv)%nat ->
  qset (quad_of (fun x => rank_naive qv x (Z.of_nat k) - D x)) (nth k qv Sym0)
    (qget (quad_of (fun x => rank_naive qv x (Z.of_nat k) - D x)) (nth k qv Sym0) + 1)
  = quad_of (fun x => rank_naive qv x (Z.of_nat (S k)) - D x).
Proof.
  intros Hk; rewrite qget_quad_of, qset_quad_of; apply quad_of_ext; intros x.
  rewrite rank_naive_succ, (proj2 (Nat.ltb_lt k (length qv))) by exact Hk; cbn [andb].
  destruct (sym_eqb x (nth k qv Sym0)) eqn:Ex; [apply sym_eqb_eq in Ex; rewrite Ex|]; ring.
Qed.

Lemma quad_incr0 (k : nat) :
  (k < length qv)%nat ->
  qset (quad_of (fun x => rank_naive qv x (Z.of_nat k))) (nth k qv Sym0)
    (qget (quad_of (fun x => rank_naive qv x (Z.of_nat k))) (nth k qv Sym0) + 1)
  = quad_of (fun x => rank_naive qv x (Z.of_nat (S k))).
Proof.
  intros Hk; pose proof (quad_incr k (fun _ => 0) Hk) as H.
  rewrite !(quad_of_ext (fun x => _ - 0) (fun x => rank_naive qv x _)) in H
    by (intros; ring); exact H.
Qed.

Lemma samples_incr (k : nat) :
  (k < length qv)%nat ->
  (if qget (quad_of (fun x => rank_naive qv x (Z.of_nat k))) (nth k qv Sym0) mod 8192 =? 0
   then qset (quad_of (fun x => samples_exp B qv x k)) (nth k qv Sym0)
          (qget (quad_of (fun x => samples_exp B qv x k)) (nth k qv Sym0)
           ++ [Z.of_nat k / (B * 8) mod 2 ^ 32])
   else quad_of (fun x => samples_exp B qv x k))
  = quad_of (fun x => samples_exp B qv x (S k)).
Proof.
  intros Hk; rewrite !qget_quad_of.
  destruct (rank_naive qv (nth k qv Sym0) (Z.of_nat k) mod 8192 =? 0) eqn:Es.
  - rewrite qset_quad_of; apply quad_of_ext; intros x; rewrite samples_exp_S.
    destruct (sym_eqb x (nth k qv Sym0)) eqn:Ex; cbn [andb].
    + apply sym_eqb_eq in Ex; rewrite Ex, Es; reflexivity.
    + rewrite app_nil_r; reflexivity.
  - apply quad_of_ext; intros x; rewrite samples_exp_S.
    destruct (sym_eqb x (nth k qv Sym0)) eqn:Ex; cbn [andb].
    + apply sym_eqb_eq in Ex; rewrite Ex, Es, app_nil_r; reflexivity.
    + rewrite app_nil_r; reflexivity.
Qed.

Ltac build_tail k :=
  replace (Z.of_nat (S k) - 1) with (Z.of_nat k) by lia;
  destruct (Z.ltb_spec (Z.of_nat k) (Z.of_nat (length qv))) as [Hlt|Hge];
  [ rewrite (Nat.min_l (S k)) by lia; cbv zeta;
    rewrite quad_incr0, quad_incr, samples_incr by lia; reflexivity
  | replace (Nat.min (S k) (length qv)) with k by lia; reflexivity ].

Lemma build_step_exp (k : nat) :
  (k <= length qv)%nat ->
  build_step B qv (build_exp B qv k) (Z.of_nat k) = Ret (build_exp B qv (S k)).
Proof.
  intros Hk.
  unfold build_step, build_exp.
  cbn [bs_superblocks bs_superblock_counters bs_block_counters bs_occs bs_select_samples].
  unfold BLOCKS_IN_SUPERBLOCK, SELECT_NUM_SAMPLES, superblock_index.
  rewrite (Nat.min_l k) by lia; rewrite Nat2Z.id.
  destruct (Z.eqb_spec (Z.of_nat k mod (8 * B)) 0) as [E1|E1].
  - destruct (arith_new B HB (Z.of_nat k) ltac:(lia) E1) as (_ & _ & E3 & E4 & _).
    rewrite (proj2 (Z.eqb_eq _ _) E4); cbv beta iota zeta.
    rewrite sbs_case_A by assumption; cbn [obind].
    replace (qconst 0) with (quad_of (fun x => rank_naive qv x (Z.of_nat k)
               - rank_naive qv x (8 * B * (Z.of_nat k / (8 * B)))))
      by (rewrite E3; unfold qconst, quad_of; rewrite !Z.sub_diag; reflexivity).
    build_tail k.
  - destruct (arith_same B HB (Z.of_nat k) ltac:(lia) E1) as (_ & _ & E3 & _).
    destruct (Z.eqb_spec (Z.of_nat k mod B) 0) as [E2|E2]; cbv beta iota zeta.
    + rewrite sbs_case_B by assumption; cbn [obind]; rewrite E3.
      build_tail k.
    + rewrite sbs_case_C by assumption; cbn [obind]; rewrite E3.
      build_tail k.
Qed.

Local Abbreviation N := (Z.of_nat (length qv)).

Lemma build_exp_0 : bs_init = build_exp B qv 0.
Proof.
  unfold bs_init, build_exp; destruct (arith_zero B HB) as [E1 E2].
  change (Z.of_nat 0) with 0; rewrite E1, E2, Nat.min_0_l.
  unfold qconst, quad_of; rewrite !(rank_naive_nonpos qv) by (destruct HB; subst; lia).
  reflexivity.
Qed.

Lemma loop_exp (k : nat) :
  (k <= S (length qv))%nat ->
  ofold (build_step B qv) (map Z.of_nat (seq 0 k)) bs_init = Ret (build_exp B qv k).
Proof.
  induction k as [|k IH]; intros Hk.
  - cbn [seq map ofold]; rewrite build_exp_0; reflexivity.
  - rewrite seq_S, map_app, ofold_app, IH by lia; cbn [obind ofold map].
    rewrite Nat.add_0_l, build_step_exp by lia; reflexivity.
Qed.

Lemma sbs_final :
  (if (N / B) mod 8 + 1 <? 8 then
     update_last (sbs_exp B qv (written_before B (N + 1)) (Z.to_nat (n_superblocks B (N + 1))))
       (fun sb => set_block_counters sb ((N / B) mod 8 + 1)
          (quad_of (fun x => rank_naive qv x N - rank_naive qv x (8 * B * (N / (8 * B))))))
   else Ret (sbs_exp B qv (written_before B (N + 1)) (Z.to_nat (n_superblocks B (N + 1)))))
  = Ret (sbs_exp B qv (written_final B N) (S (Z.to_nat (N / (8 * B))))).
Proof.
  destruct (arith_final B HB N ltac:(lia)) as (E1 & E2 & E3 & E4 & E5).
  pose proof (arith_sb_offset B HB N) as E6.
  rewrite E1, Z2Nat.inj_add, Nat.add_1_r by lia.
  set (J := N / (8 * B)) in *; set (nb := (N / B) mod 8) in *.
  assert (Hw : forall j b, 1 <= b <= 7 -> ~ (j = J /\ b = nb + 1) ->
               written_before B (N + 1) j b = written_final B N j b).
  { intros j b Hb Hn; unfold written_before, written_final; fold J nb.
    destruct (Z.eqb_spec j J), (Z.eqb_spec b (nb + 1)); [tauto | | |];
      cbn [andb]; rewrite Bool.orb_false_r;
      destruct (Z.ltb_spec (8 * B * j + B * b) (N + 1)),
               (Z.leb_spec (8 * B * j + B * b) N); reflexivity || lia. }
  destruct (Z.ltb_spec (nb + 1) 8) as [Hlt|Hge].
  - rewrite sbs_exp_S, update_last_app, Z2Nat.id by lia.
    rewrite set_block_counters_sb_exp; cycle 1.
    { lia. }
    { lia. }
    { apply Z.ltb_ge; rewrite Z.mul_add_distr_l; lia. }
    { intros x; pose proof (rank_naive_mono_diff qv x (8 * B * J) N
                              ltac:(destruct HB; subst; lia)); lia. }
    cbn [obind]; f_equal; rewrite sbs_exp_S, Z2Nat.id by lia; f_equal.
    + apply sbs_exp_ext; intros j b Hj Hb; apply Hw; lia.
    + f_equal; unfold sb_exp; f_equal; apply quad_of_ext; intros x; f_equal.
      unfold sb_fields; apply map_ext_in; intros b Hb%in_fields.
      destruct (Z.eqb_spec b (nb + 1)) as [->|Hne].
      * unfold written_final; fold J nb; rewrite !Z.eqb_refl, Bool.orb_true_r.
        rewrite (rank_naive_sat qv x (8 * B * J + B * (nb + 1)))
          by (rewrite Z.mul_add_distr_l; lia).
        reflexivity.
      * rewrite Hw by lia; reflexivity.
  - f_equal; apply sbs_exp_ext; intros j b Hj Hb; apply Hw; lia.
Qed.

Lemma length_sbs_exp (w : Z -> Z -> bool) (cnt : nat) : length (sbs_exp B qv w cnt) = cnt.
Proof. unfold sbs_exp; rewrite length_map, length_seq; reflexivity. Qed.

Lemma rs_new_shape : rs_new B qv = Ret (rs_built B qv).
Proof.
  unfold rs_new.
  rewrite (proj2 (Z.ltb_lt _ _) Hlen).
  replace ((B =? 256) || (B =? 512)) with true by (destruct HB; subst; reflexivity).
  cbv beta iota zeta delta [negb].
  rewrite loop_exp by lia; cbn [obind].
  unfold build_exp; cbn [bs_superblocks bs_block_counters bs_occs bs_select_samples].
  rewrite Nat.min_r by lia.
  replace (Z.of_nat (S (length qv)) - 1) with N by lia.
  replace (Z.of_nat (S (length qv))) with (N + 1) by lia.
  unfold BLOCKS_IN_SUPERBLOCK.
  rewrite sbs_final; cbn [obind].
  rewrite length_sbs_exp.
  pose proof (arith_J_bound B HB N ltac:(lia)) as HJ.
  replace ((Z.of_nat (S (Z.to_nat (N / (8 * B)))) mod 2 ^ 32 - 1) mod 2 ^ 32) with (N / (8 * B))
    by (rewrite Zminus_mod_idemp_l; replace (Z.of_nat (S (Z.to_nat (N / (8 * B)))) - 1)
          with (N / (8 * B)) by lia; rewrite Z.mod_small; lia).
  reflexivity.
Qed.

End BuildInvariant.

(** ** Reading the built index *)

Section ReadIndex.

Variable B : Z.
Variable qv : list sym.
Hypothesis HB : B = 256 \/ B = 512.
Hypothesis Hlen : Z.of_nat (length qv) < 2 ^ 43.

Local Abbreviation N := (Z.of_nat (length qv)).

Lemma vget_sbs_exp (w : Z -> Z -> bool) (cnt : nat) (j : Z) :
  0 <= j < Z.of_nat cnt -> vget (sbs_exp B qv w cnt) j = Ret (sb_exp B qv w j).
Proof.
  intros Hj; unfold vget; rewrite (proj2 (Z.ltb_ge j 0)) by lia.
  rewrite (nth_error_nth' _ (sb_exp B qv w (Z.of_nat 0)))
    by (rewrite length_sbs_exp; lia).
  unfold sbs_exp; rewrite (map_nth (fun j => sb_exp B qv w (Z.of_nat j)) (seq 0 cnt) 0%nat).
  rewrite seq_nth, Nat.add_0_l, Z2Nat.id by lia; reflexivity.
Qed.

Lemma sb_exp_counter (w : Z -> Z -> bool) (j : Z) (x : sym) :
  0 <= j -> get_superblock_counter (sb_exp B qv w j) x = rank_naive qv x (8 * B * j).
Proof.
  intros Hj; unfold sb_exp.
  apply (get_superblock_counter_fields (fun y => rank_naive qv y (8 * B * j))
           (fun y b => if w j b then rank_naive qv y (8 * B * j + B * b)
                                     - rank_naive qv y (8 * B * j) else 0)).
  - apply sb_exp_fields_range; assumption.
  - pose proof (rank_naive_bound qv Hlen x (8 * B * j)); lia.
Qed.

Lemma sb_exp_block (w : Z -> Z -> bool) (j : Z) (x : sym) (b : Z) :
  0 <= j -> 1 <= b <= 7 ->
  get_block_counter (sb_exp B qv w j) x b
  = if w j b then rank_naive qv x (8 * B * j + B * b) - rank_naive qv x (8 * B * j) else 0.
Proof.
  intros Hj Hb; unfold sb_exp.
  apply (get_block_counter_fields (fun y => rank_naive qv y (8 * B * j))
           (fun y b => if w j b then rank_naive qv y (8 * B * j + B * b)
                                     - rank_naive qv y (8 * B * j) else 0)).
  - apply sb_exp_fields_range; assumption.
  - exact Hb.
Qed.

(** [rank_block] on the built index, at any position up to the length. *)
Lemma rank_block_built (s : sym) (i : Z) :
  0 <= i <= N -> rank_block B (rs_built B qv) s i = Ret (rank_naive qv s (i / B * B)).
Proof.
  intros Hi; unfold rank_block, superblock_index, block_index, BLOCKS_IN_SUPERBLOCK, rs_built.
  cbn [superblocks].
  replace (B * 8) with (8 * B) by ring.
  destruct (arith_final B HB i ltac:(lia)) as (_ & E2 & E3 & E4 & E5).
  assert (Hj : i / (8 * B) <= N / (8 * B))
    by (apply Z.div_le_mono; [destruct HB as [E|E]; rewrite E; lia | lia]).
  rewrite vget_sbs_exp by lia; cbn [obind].
  rewrite sb_exp_counter by lia.
  replace (i / B * B) with (8 * B * (i / (8 * B)) + B * ((i / B) mod 8)) by lia.
  destruct (Z.eq_dec ((i / B) mod 8) 0) as [E0|E0].
  - rewrite E0; unfold get_block_counter; rewrite Z.eqb_refl.
    rewrite Z.mul_0_r, !Z.add_0_r; reflexivity.
  - rewrite sb_exp_block by lia.
    unfold written_final; rewrite (proj2 (Z.leb_le _ _)) by lia; cbn [orb].
    f_equal; ring.
Qed.

Lemma rank_naive_mono (x : sym) (a b : Z) : a <= b -> rank_naive qv x a <= rank_naive qv x b.
Proof.
  intros Hab; destruct (Z.le_gt_cases 0 a) as [Ha|Ha].
  - pose proof (rank_naive_mono_diff qv x a b ltac:(lia)); lia.
  - rewrite (rank_naive_nonpos qv x a) by lia; apply rank_naive_nonneg.
Qed.

(** The [t]-th occurrence of [x] (from 0) exists below the number of occurrences. *)
Lemma exists_occ (x : sym) (t : Z) :
  0 <= t < rank_naive qv x N ->
  exists q, 0 <= q < N /\ rank_naive qv x q = t /\ rank_naive qv x (q + 1) = t + 1.
Proof.
  intros Ht.
  assert (H : forall k, (k <= length qv)%nat -> t < rank_naive qv x (Z.of_nat k) ->
              exists q, 0 <= q < Z.of_nat k /\ rank_naive qv x q = t /\
                        rank_naive qv x (q + 1) = t + 1).
  { induction k as [|k IH]; intros Hk Hlt.
    - rewrite rank_naive_nonpos in Hlt by lia; lia.
    - pose proof (rank_naive_succ qv x k) as Hs.
      rewrite (proj2 (Nat.ltb_lt k (length qv))) in Hs by lia; cbn [andb] in Hs.
      destruct (Z.lt_ge_cases t (rank_naive qv x (Z.of_nat k))) as [Hl|Hg].
      + destruct (IH ltac:(lia) Hl) as (q & Hq & E1 & E2); exists q; split; [lia|]; auto.
      + exists (Z.of_nat k); split; [lia|].
        replace (Z.of_nat k + 1) with (Z.of_nat (S k)) by lia.
        destruct (sym_eqb x (nth k qv Sym0)); lia. }
  destruct (H (length qv) (le_n _) ltac:(lia)) as (q & Hq & E1 & E2); exists q; auto.
Qed.

Lemma occ_le (x : sym) (q p : Z) :
  0 <= q -> rank_naive qv x (q + 1) = rank_naive qv x q + 1 ->
  rank_naive qv x p <= rank_naive qv x q -> p <= q.
Proof.
  intros Hq E H; destruct (Z.le_gt_cases p q) as [|Hgt]; [assumption|].
  pose proof (rank_naive_mono x (q + 1) p ltac:(lia)); lia.
Qed.

Lemma sample_positions_S (x : sym) (k : nat) :
  sample_positions qv x (S k)
  = sample_positions qv x k
    ++ (if sym_eqb x (nth k qv Sym0) && (rank_naive qv x (Z.of_nat k) mod 8192 =? 0)
        then [k] else []).
Proof.
  unfold sample_positions; rewrite seq_S, filter_app, Nat.add_0_l.
  cbn [filter]; destruct (_ && _); reflexivity.
Qed.

Lemma ceil_8192 (c : Z) :
  0 <= c ->
  (c mod 8192 = 0 -> (c + 1 + 8191) / 8192 = (c + 8191) / 8192 + 1 /\
                     (c + 8191) / 8192 = c / 8192 /\ c = 8192 * (c / 8192)) /\
  (c mod 8192 <> 0 -> (c + 1 + 8191) / 8192 = (c + 8191) / 8192).
Proof. intros; repeat split; intros; zdiv_elim; lia. Qed.

(** The sampled positions of [x]: one for every 8192nd occurrence. *)
Lemma sample_positions_spec (x : sym) (k : nat) :
  (k <= length qv)%nat ->
  length (sample_positions qv x k)
  = Z.to_nat ((rank_naive qv x (Z.of_nat k) + 8191) / 8192) /\
  forall m p, nth_error (sample_positions qv x k) m = Some p ->
    rank_naive qv x (Z.of_nat p) = 8192 * Z.of_nat m /\
    rank_naive qv x (Z.of_nat p + 1) = 8192 * Z.of_nat m + 1 /\ (p < k)%nat.
Proof.
  induction k as [|k IH]; intros Hk.
  - split; [rewrite rank_naive_nonpos by lia; reflexivity|].
    intros m p H; destruct m; discriminate.
  - destruct (IH ltac:(lia)) as [IHl IHp].
    rewrite sample_positions_S.
    pose proof (rank_naive_succ qv x k) as Hs.
    rewrite (proj2 (Nat.ltb_lt k (length qv))) in Hs by lia; cbn [andb] in Hs.
    replace (Z.of_nat (S k)) with (Z.of_nat k + 1) in Hs |- * by lia.
    pose proof (rank_naive_nonneg qv x (Z.of_nat k)) as Hc0.
    destruct (ceil_8192 (rank_naive qv x (Z.of_nat k)) Hc0) as [C1 C2].
    set (c := rank_naive qv x (Z.of_nat k)) in *.
    destruct (sym_eqb x (nth k qv Sym0)) eqn:Ex; cbn [andb].
    + destruct (Z.eqb_spec (c mod 8192) 0) as [Em|Em].
      * destruct (C1 Em) as (D1 & D2 & D3).
        rewrite Hs; split.
        { rewrite length_app, IHl, D1; cbn [length].
          rewrite Z2Nat.inj_add by (try apply Z.div_pos; lia); reflexivity. }
        intros m p Hm.
        destruct (Nat.lt_ge_cases m (length (sample_positions qv x k))) as [Hl|Hg].
        { rewrite nth_error_app1 in Hm by exact Hl.
          destruct (IHp m p Hm) as (E1 & E2 & E3); repeat split; auto. }
        rewrite nth_error_app2 in Hm by exact Hg.
        destruct (m - length (sample_positions qv x k))%nat as [|d] eqn:Ed;
          [| destruct d; discriminate].
        cbn in Hm; injection Hm as <-.
        assert (Hm : Z.of_nat m = c / 8192)
          by (rewrite IHl, D2 in Hg; rewrite IHl, D2 in Ed;
              assert (0 <= c / 8192) by (apply Z.div_pos; lia); lia).
        rewrite Hm; fold c; rewrite Hs; repeat split; lia.
      * rewrite app_nil_r, Hs; split; [rewrite IHl, C2 by exact Em; reflexivity|].
        intros m p Hm; destruct (IHp m p Hm) as (E1 & E2 & E3); repeat split; auto.
    + rewrite app_nil_r, Hs, Z.add_0_r; split; [exact IHl|].
      intros m p Hm; destruct (IHp m p Hm) as (E1 & E2 & E3); repeat split; auto.
Qed.

Lemma qget_qmap_quad_of {A C} (F : A -> C) (g : sym -> A) (x : sym) :
  qget (qmap F (quad_of g)) x = F (g x).
Proof. destruct x; reflexivity. Qed.

(** The two select samples read by [select_block] bracket the superblock of
    the [i]-th occurrence. *)
Lemma samples_bracket (s : sym) (i q : Z) :
  0 <= q < N -> rank_naive qv s q = i - 1 -> rank_naive qv s (q + 1) = i ->
  exists f0 nx,
    vget (qget (select_samples (rs_built B qv)) s) ((i - 1) / SELECT_NUM_SAMPLES) = Ret f0 /\
    vget (qget (select_samples (rs_built B qv)) s) ((i - 1) / SELECT_NUM_SAMPLES + 1)
      = Ret nx /\
    0 <= f0 <= q / (8 * B) /\ q / (8 * B) <= nx <= N / (8 * B).
Proof.
  intros Hq E1 E2.
  unfold rs_built; cbn [select_samples]; rewrite qget_qmap_quad_of.
  unfold SELECT_NUM_SAMPLES; change (2 ^ 13) with 8192.
  destruct (sample_positions_spec s (length qv) (le_n _)) as [Hl Hp].
  pose proof (rank_naive_le_len qv s N) as HcN.
  pose proof (rank_naive_mono s (q + 1) N ltac:(lia)) as HqN.
  pose proof (rank_naive_nonneg qv s q) as Hq0.
  set (m := (i - 1) / 8192).
  assert (Hm0 : 0 <= m) by (apply Z.div_pos; lia).
  assert (HmT : (Z.to_nat m < length (sample_positions qv s (length qv)))%nat)
    by (rewrite Hl; unfold m; zdiv_elim; lia).
  assert (Hsamp : forall k p, nth_error (sample_positions qv s (length qv)) k = Some p ->
            nth_error (samples_exp B qv s (length qv)) k = Some (Z.of_nat p / (8 * B))).
  { intros k p Hk; unfold samples_exp; rewrite nth_error_map, Hk; cbn [option_map].
    destruct (Hp k p Hk) as (_ & _ & Hpk).
    pose proof (arith_J_bound B HB (Z.of_nat p) ltac:(lia)).
    replace (B * 8) with (8 * B) by ring; rewrite Z.mod_small by lia; reflexivity. }
  assert (Hne : samples_exp B qv s (length qv) <> []).
  { unfold samples_exp; intros H; apply map_eq_nil in H; rewrite H in HmT; simpl in HmT; lia. }
  assert (Hlen' : length (samples_exp B qv s (length qv))
                  = length (sample_positions qv s (length qv)))
    by (unfold samples_exp; apply length_map).
  destruct (samples_exp B qv s (length qv)) as [|a l] eqn:Es; [congruence|].
  rewrite <- Es in Hlen', Hsamp |- *.
  destruct (nth_error (sample_positions qv s (length qv)) (Z.to_nat m)) as [pm|] eqn:Epm;
    [| apply nth_error_None in Epm; lia].
  destruct (Hp _ _ Epm) as (Pm1 & Pm2 & Pm3).
  rewrite Z2Nat.id in Pm1 by lia.
  assert (Hpq : Z.of_nat pm <= q).
  { apply (occ_le s q); [lia | lia |]. rewrite Pm1, E1; unfold m; zdiv_elim; lia. }
  exists (Z.of_nat pm / (8 * B)).
  unfold vget; rewrite (proj2 (Z.ltb_ge m 0)) by lia.
  rewrite (proj2 (Z.ltb_ge (m + 1) 0)) by lia.
  rewrite nth_error_app1 by lia; rewrite (Hsamp _ _ Epm).
  destruct (Nat.lt_ge_cases (Z.to_nat (m + 1)) (length (sample_positions qv s (length qv))))
    as [Hlt|Hge].
  - destruct (nth_error (sample_positions qv s (length qv)) (Z.to_nat (m + 1))) as [pn|] eqn:Epn;
      [| apply nth_error_None in Epn; lia].
    destruct (Hp _ _ Epn) as (Pn1 & Pn2 & Pn3).
    rewrite Z2Nat.id in Pn1 by lia.
    assert (Hqp : q < Z.of_nat pn).
    { destruct (Z.le_gt_cases (Z.of_nat pn) q) as [Hle|]; [|assumption].
      pose proof (rank_naive_mono s _ _ Hle); unfold m in Pn1; zdiv_elim; lia. }
    exists (Z.of_nat pn / (8 * B)).
    rewrite nth_error_app1 by lia; rewrite (Hsamp _ _ Epn).
    split; [reflexivity|]; split; [reflexivity|].
    pose proof (arith_sb_div_le B HB (Z.of_nat pm) q Hpq).
    pose proof (arith_sb_div_le B HB q (Z.of_nat pn) ltac:(lia)).
    pose proof (arith_sb_div_le B HB (Z.of_nat pn) N ltac:(lia)).
    assert (0 <= Z.of_nat pm / (8 * B)) by (apply Z.div_pos; destruct HB; lia).
    lia.
  - exists (N / (8 * B)).
    rewrite nth_error_app2 by lia; rewrite Hlen'.
    replace (Z.to_nat (m + 1) - length (sample_positions qv s (length qv)))%nat with 0%nat
      by (rewrite Hl in *; unfold m in *; zdiv_elim; lia).
    cbn [nth_error].
    split; [reflexivity|]; split; [reflexivity|].
    pose proof (arith_sb_div_le B HB (Z.of_nat pm) q Hpq).
    pose proof (arith_sb_div_le B HB q N ltac:(lia)).
    assert (0 <= Z.of_nat pm / (8 * B)) by (apply Z.div_pos; destruct HB; lia).
    lia.
Qed.

Lemma usub_ok (a b : Z) : b <= a -> usub a b = Ret (a - b).
Proof. intros H; unfold usub; rewrite (proj2 (Z.ltb_ge a b)) by lia; reflexivity. Qed.

(** A [gallop] loop from [first <= r] over superblocks whose counter reaches
    [i] exactly beyond [r] stops at the first probe past [r]. *)
Lemma gallop_spec (sbs : list SuperblockPlain) (x : sym) (i step lo last r : Z) :
  1 <= step -> r < last ->
  (forall j, lo <= j < last -> exists sb, vget sbs j = Ret sb /\
     (i <=? get_superblock_counter sb x) = (r <? j)) ->
  forall fuel first, lo <= first <= r -> last - first < Z.of_nat fuel ->
  exists g, gallop fuel sbs x i step first last = Ret g /\ r < g /\ first <= g - step <= r.
Proof.
  intros Hs Hr Hp fuel; induction fuel as [|f IH]; intros first Hf Hfuel; [lia|].
  cbn [gallop]; rewrite (proj2 (Z.ltb_lt first last)) by lia.
  destruct (Hp first ltac:(lia)) as (sb & Hv & Hc); rewrite Hv; cbn [obind].
  rewrite Hc, (proj2 (Z.ltb_ge r first)) by lia.
  destruct (Z.le_gt_cases (first + step) r) as [Hle|Hgt].
  - destruct (IH (first + step) ltac:(lia) ltac:(lia)) as (g & Hg & H1 & H2).
    exists g; split; [exact Hg | lia].
  - exists (first + step); split; [|lia].
    destruct f as [|f']; [lia|]; cbn [gallop].
    destruct (Z.ltb_spec (first + step) last) as [Hl|Hl]; [|reflexivity].
    destruct (Hp (first + step) ltac:(lia)) as (sb' & Hv' & Hc'); rewrite Hv'; cbn [obind].
    rewrite Hc', (proj2 (Z.ltb_lt r _)) by lia; reflexivity.
Qed.

(** [select_block] on the built index, for the [i]-th occurrence [q] of [s],
    and any square root that is not negative. *)
Lemma select_block_built (fsqrt : Z -> Z) (Hf : forall d, 0 <= fsqrt d) (s : sym) (i q : Z) :
  0 <= q < N -> rank_naive qv s q = i - 1 -> rank_naive qv s (q + 1) = i ->
  select_block_with fsqrt B (rs_built B qv) s i
  = Ret (B * (q / B), rank_naive qv s (B * (q / B))).
Proof.
  intros Hq E1 E2.
  pose proof (rank_naive_nonneg qv s q) as Hq0.
  destruct (samples_bracket s i q Hq E1 E2) as (f0 & nx & Hf0 & Hnx & Hb1 & Hb2).
  pose proof (arith_sb_offset B HB q) as Hoff.
  pose proof (arith_J_bound B HB N ltac:(lia)) as HJ.
  unfold select_block_with.
  rewrite (usub_ok i 1) by lia; cbn [obind].
  rewrite Hf0; cbn [obind]; rewrite Hnx; cbn [obind].
  rewrite (usub_ok (1 + nx) f0) by lia; cbn [obind].
  assert (Hp : forall j, f0 <= j < 1 + nx ->
            exists sb, vget (superblocks (rs_built B qv)) j = Ret sb /\
                       (i <=? get_superblock_counter sb s) = (q / (8 * B) <? j)).
  { intros j Hj; exists (sb_exp B qv (written_final B N) j); split.
    - change (superblocks (rs_built B qv))
        with (sbs_exp B qv (written_final B N) (S (Z.to_nat (N / (8 * B))))).
      apply vget_sbs_exp; lia.
    - rewrite sb_exp_counter by lia.
      destruct (Z.ltb_spec (q / (8 * B)) j) as [Hl|Hl].
      + apply Z.leb_le; pose proof (arith_sb_lt B HB j (q / (8 * B)) Hl).
        pose proof (rank_naive_mono s (q + 1) (8 * B * j) ltac:(lia)); lia.
      + apply Z.leb_gt; pose proof (arith_sb_le B HB j (q / (8 * B)) Hl).
        pose proof (rank_naive_mono s (8 * B * j) q ltac:(lia)); lia. }
  destruct (gallop_spec _ s i (fsqrt (1 + nx - f0) + 1) f0 (1 + nx) (q / (8 * B))
              ltac:(specialize (Hf (1 + nx - f0)); lia) ltac:(lia) Hp
              (S (Z.to_nat (1 + nx - f0))) f0 ltac:(lia) ltac:(lia)) as (g1 & Hg1 & G1 & G2).
  rewrite Hg1; cbn [obind].
  rewrite (usub_ok g1) by lia; cbn [obind].
  destruct (gallop_spec _ s i 1 f0 (1 + nx) (q / (8 * B)) ltac:(lia) ltac:(lia) Hp
              (S (Z.to_nat (1 + nx - f0))) (g1 - (fsqrt (1 + nx - f0) + 1))
              ltac:(lia) ltac:(lia)) as (g2 & Hg2 & G3 & G4).
  rewrite Hg2; cbn [obind].
  rewrite (usub_ok g2 1) by lia; cbn [obind].
  replace (g2 - 1) with (q / (8 * B)) by lia.
  change (superblocks (rs_built B qv))
    with (sbs_exp B qv (written_final B N) (S (Z.to_nat (N / (8 * B))))).
  rewrite vget_sbs_exp by lia; cbn [obind].
  rewrite sb_exp_counter by lia.
  pose proof (rank_naive_mono s (8 * B * (q / (8 * B))) q ltac:(lia)) as Hsq.
  rewrite (usub_ok i) by lia; cbn [obind].
  destruct (arith_final B HB q ltac:(lia)) as (_ & F2 & F3 & F4 & F5).
  set (r := q / (8 * B)) in *; set (bst := (q / B) mod 8) in *.
  set (sb := sb_exp B qv (written_final B N) r).
  set (t := i - rank_naive qv s (8 * B * r)).
  pose proof (block_predecessor_first sb s t) as Hbp; cbv zeta in Hbp.
  destruct (block_predecessor sb s t) as [bid brank] eqn:Ebp.
  cbn [fst snd] in Hbp; destruct Hbp as (H1 & Hsnd & Hlt & Hnext).
  assert (Hlo : forall b, 1 <= b <= bst -> get_block_counter sb s b < t).
  { intros b Hb; unfold sb; rewrite sb_exp_block by lia.
    pose proof (arith_b_le B HB b bst ltac:(lia)).
    unfold written_final; rewrite (proj2 (Z.leb_le _ _)) by lia; cbn [orb].
    pose proof (rank_naive_mono s (8 * B * r + B * b) q ltac:(lia)); unfold t; lia. }
  assert (Hhi : bst < 7 -> t <= get_block_counter sb s (bst + 1)).
  { intros Hb7; unfold sb; rewrite sb_exp_block by lia.
    assert (Hx : 8 * B * r + B * (bst + 1) = B * (q / B) + B) by (rewrite Z.mul_add_distr_l; lia).
    destruct (Z.leb_spec (8 * B * r + B * (bst + 1)) N) as [HN|HN].
    - unfold written_final; rewrite (proj2 (Z.leb_le _ _)) by lia; cbn [orb].
      pose proof (rank_naive_mono s (q + 1) (8 * B * r + B * (bst + 1)) ltac:(lia)).
      unfold t; lia.
    - destruct (arith_same_block B HB q N ltac:(lia) ltac:(lia)) as (_ & S2 & S3).
      unfold written_final; rewrite (proj2 (Z.leb_gt _ _)) by lia.
      rewrite S2, S3; fold r bst; rewrite !Z.eqb_refl; cbn [orb andb].
      rewrite (rank_naive_sat qv s (8 * B * r + B * (bst + 1))) by lia.
      pose proof (rank_naive_mono s (q + 1) N ltac:(lia)); unfold t; lia. }
  assert (Hbid : bid = bst).
  { destruct (Z.lt_trichotomy bid bst) as [Hl|[He|Hg]]; [exfalso | exact He | exfalso].
    - specialize (Hnext ltac:(lia)); specialize (Hlo (bid + 1) ltac:(lia)); lia.
    - specialize (Hlt (bst + 1) ltac:(lia)); specialize (Hhi ltac:(lia)); lia. }
  subst bid; rewrite Hsnd.
  destruct (Z.eq_dec bst 0) as [E0|E0].
  - rewrite E0; unfold get_block_counter; rewrite Z.eqb_refl.
    rewrite E0, Z.mul_0_r, Z.add_0_r in F2.
    rewrite <- F2; unfold BLOCKS_IN_SUPERBLOCK; f_equal; f_equal; ring.
  - unfold sb; rewrite sb_exp_block by lia.
    unfold written_final; rewrite (proj2 (Z.leb_le _ _)) by lia; cbn [orb].
    rewrite <- F2; unfold BLOCKS_IN_SUPERBLOCK; f_equal; f_equal; ring.
Qed.

End ReadIndex.

Lemma n_occs_built (B : Z) (qv : list sym) (s : sym) :
  n_occs (rs_built B qv) s = rank_naive qv s (Z.of_nat (length qv)).
Proof.
  unfold n_occs, rs_built; cbn [occs].
  exact (qget_quad_of (fun x => rank_naive qv x (Z.of_nat (length qv))) s).
Qed.

(** C4: on the index built by [RSSupportPlain::new] from a sequence shorter
    than 2^43, [rank_block] at any position [i <= qv.len()] is the number of
    occurrences of the symbol before [floor(i / B) * B], the start of the
    block of [i]. *)
Theorem rank_block_rank_at_block_start (B : Z) (qv : list sym) :
  (B = 256 \/ B = 512) -> Z.of_nat (length qv) < 2 ^ 43 ->
  exists rs, rs_new B qv = Ret rs /\
    forall s i, 0 <= i <= Z.of_nat (length qv) ->
      rank_block B rs s i = Ret (rank_naive qv s (i / B * B)).
Proof.
  intros HB Hlen; exists (rs_built B qv); split.
  - apply rs_new_shape; assumption.
  - intros s i Hi; apply rank_block_built; assumption.
Qed.

(** Witness of C4 on [qv8] with blocks of 256. *)
Lemma rank_block_rank_at_block_start_witness :
  (256 = 256 \/ 256 = 512) /\ Z.of_nat (length qv8) < 2 ^ 43 /\
  exists rs, rs_new 256 qv8 = Ret rs /\
    forall s i, 0 <= i <= Z.of_nat (length qv8) ->
      rank_block 256 rs s i = Ret (rank_naive qv8 s (i / 256 * 256)).
Proof.
  split; [left; reflexivity|]; split; [reflexivity|].
  apply rank_block_rank_at_block_start; [left; reflexivity | reflexivity].
Defined.

(** C2: on the index built by [RSSupportPlain::new] from a sequence shorter
    than 2^43, for [1 <= i <= n_occs s], [select_block s i] returns
    [(pos, rank)] where [pos] is the start of the block of [B] positions
    holding the [i]-th occurrence [q] of [s] and [rank] the number of
    occurrences of [s] before [pos]; so [rank_block s pos = rank] and
    [rank <= i - 1 < rank + (occurrences of s in the block)]. *)
Theorem select_block_block_of_occurrence (B : Z) (qv : list sym) :
  (B = 256 \/ B = 512) -> Z.of_nat (length qv) < 2 ^ 43 ->
  exists rs, rs_new B qv = Ret rs /\
    forall s i, 1 <= i <= n_occs rs s ->
      exists q pos rank,
        0 <= q < Z.of_nat (length qv) /\ nth (Z.to_nat q) qv Sym0 = s /\
        rank_naive qv s q = i - 1 /\
        select_block B rs s i = Ret (pos, rank) /\
        pos = q / B * B /\ rank = rank_naive qv s pos /\
        rank_block B rs s pos = Ret rank /\
        rank <= i - 1 < rank + (rank_naive qv s (pos + B) - rank_naive qv s pos).
Proof.
  intros HB Hlen; exists (rs_built B qv); split; [apply rs_new_shape; assumption|].
  intros s i Hi; rewrite n_occs_built in Hi.
  destruct (exists_occ qv s (i - 1) ltac:(lia)) as (q & Hq & E1 & E2).
  replace (i - 1 + 1) with i in E2 by lia.
  assert (HBp : 0 < B) by (destruct HB; lia).
  assert (Hpos : B * (q / B) <= q < B * (q / B) + B)
    by (split; [apply Z.mul_div_le; lia|];
        pose proof (Z.mod_pos_bound q B HBp); pose proof (Z.div_mod q B ltac:(lia)); lia).
  exists q, (B * (q / B)), (rank_naive qv s (B * (q / B))).
  split; [exact Hq|]; split.
  { rewrite rank_naive_step in E2 by lia.
    destruct (sym_eqb s (nth (Z.to_nat q) qv Sym0)) eqn:Es; [|lia].
    symmetry; apply sym_eqb_eq, Es. }
  split; [exact E1|]; split.
  { unfold select_block; apply select_block_built; auto using Z.sqrt_nonneg. }
  split; [ring|]; split; [reflexivity|]; split.
  { rewrite rank_block_built by (auto; lia).
    rewrite (Z.mul_comm B (q / B)), Z.div_mul by lia; reflexivity. }
  pose proof (rank_naive_mono qv s (B * (q / B)) q ltac:(lia)).
  pose proof (rank_naive_mono qv s (q + 1) (B * (q / B) + B) ltac:(lia)).
  lia.
Qed.

(** Witness of C2 on [qv8] with blocks of 256. *)
Lemma select_block_block_of_occurrence_witness :
  (256 = 256 \/ 256 = 512) /\ Z.of_nat (length qv8) < 2 ^ 43 /\
  exists rs, rs_new 256 qv8 = Ret rs /\
    forall s i, 1 <= i <= n_occs rs s ->
      exists q pos rank,
        0 <= q < Z.of_nat (length qv8) /\ nth (Z.to_nat q) qv8 Sym0 = s /\
        rank_naive qv8 s q = i - 1 /\
        select_block 256 rs s i = Ret (pos, rank) /\
        pos = q / 256 * 256 /\ rank = rank_naive qv8 s pos /\
        rank_block 256 rs s pos = Ret rank /\
        rank <= i - 1 < rank + (rank_naive qv8 s (pos + 256) - rank_naive qv8 s pos).
Proof.
  split; [left; reflexivity|]; split; [reflexivity|].
  apply select_block_block_of_occurrence; [left; reflexivity | reflexivity].
Defined.

(** C10: on the index built by [RSSupportPlain::new] from a sequence shorter
    than 2^43, [select_block s i] for [1 <= i <= n_occs s] does not panic (no
    superblock or sample read out of range, no [usize] subtraction below
    zero), and the superblock it reads for [block_predecessor] counts fewer
    than [i] occurrences of [s]. *)
Theorem select_block_total (B : Z) (qv : list sym) :
  (B = 256 \/ B = 512) -> Z.of_nat (length qv) < 2 ^ 43 ->
  exists rs, rs_new B qv = Ret rs /\
    forall s i, 1 <= i <= n_occs rs s ->
      exists pos rank sb,
        select_block B rs s i = Ret (pos, rank) /\
        vget (superblocks rs) (pos / (8 * B)) = Ret sb /\
        get_superblock_counter sb s < i.
Proof.
  intros HB Hlen; exists (rs_built B qv); split; [apply rs_new_shape; assumption|].
  intros s i Hi; rewrite n_occs_built in Hi.
  destruct (exists_occ qv s (i - 1) ltac:(lia)) as (q & Hq & E1 & E2).
  replace (i - 1 + 1) with i in E2 by lia.
  pose proof (arith_J_bound B HB (Z.of_nat (length qv)) ltac:(lia)) as HJ.
  pose proof (arith_sb_div_le B HB q (Z.of_nat (length qv)) ltac:(lia)) as Hr.
  assert (Hr0 : 0 <= q / (8 * B)) by (apply Z.div_pos; destruct HB; lia).
  exists (B * (q / B)), (rank_naive qv s (B * (q / B))),
    (sb_exp B qv (written_final B (Z.of_nat (length qv))) (q / (8 * B))).
  split; [unfold select_block; apply select_block_built; auto using Z.sqrt_nonneg|].
  rewrite arith_pos_sb by (auto; lia).
  split.
  - change (superblocks (rs_built B qv))
      with (sbs_exp B qv (written_final B (Z.of_nat (length qv)))
              (S (Z.to_nat (Z.of_nat (length qv) / (8 * B))))).
    apply vget_sbs_exp; lia.
  - rewrite sb_exp_counter by (auto; lia).
    pose proof (arith_sb_offset B HB q).
    pose proof (rank_naive_mono qv s (8 * B * (q / (8 * B))) q ltac:(lia)); lia.
Qed.

(** Witness of C10 on [qv8] with blocks of 256. *)
Lemma select_block_total_witness :
  (256 = 256 \/ 256 = 512) /\ Z.of_nat (length qv8) < 2 ^ 43 /\
  exists rs, rs_new 256 qv8 = Ret rs /\
    forall s i, 1 <= i <= n_occs rs s ->
      exists pos rank sb,
        select_block 256 rs s i = Ret (pos, rank) /\
        vget (superblocks rs) (pos / (8 * 256)) = Ret sb /\
        get_superblock_counter sb s < i.
Proof.
  split; [left; reflexivity|]; split; [reflexivity|].
  apply select_block_total; [left; reflexivity | reflexivity].
Defined.

(** * Further properties of the code *)

(** ** Helper lemmas *)

Section ExtraRSHelpers.

Lemma vget_none {A} (l : list A) (j : Z) :
  0 <= j -> (length l <= Z.to_nat j)%nat -> vget l j = Panic.
Proof.
  intros H1 H2; unfold vget; rewrite (proj2 (Z.ltb_ge _ _)) by lia.
  rewrite (proj2 (nth_error_None l _) H2); reflexivity.
Qed.

Lemma rank_naive_count (qv : list sym) (s : sym) :
  rank_naive qv s (Z.of_nat (length qv)) = Z.of_nat (length (filter (sym_eqb s) qv)).
Proof. unfold rank_naive; rewrite Nat2Z.id, firstn_all; reflexivity. Qed.

Lemma count_syms (qv : list sym) :
  (length (filter (sym_eqb Sym0) qv) + length (filter (sym_eqb Sym1) qv)
  + length (filter (sym_eqb Sym2) qv) + length (filter (sym_eqb Sym3) qv) = length qv)%nat.
Proof. induction qv as [|[] qv IH]; simpl; lia. Qed.

Lemma bits_high12 (a m : Z) : 0 <= a < 2 ^ 12 -> 12 <= m -> Z.testbit a m = false.
Proof.
  intros Ha Hm; rewrite <- (Z.mod_small a (2 ^ 12)) by lia.
  apply Z.mod_pow2_bits_high; lia.
Qed.

Lemma as_usize_field (x : Z) : as_usize (Z.land x 4095) = Z.land x 4095.
Proof.
  unfold as_usize; change 4095 with (Z.ones 12); rewrite Z.land_ones by lia.
  apply Z.mod_small; pose proof (Z.mod_pos_bound x (2 ^ 12) ltac:(lia)).
  split; [lia|]; apply (Z.lt_le_trans _ (2 ^ 12)); [lia | vm_compute; discriminate].
Qed.

Lemma u128_shl_bits (v k m : Z) :
  0 <= v < 2 ^ 12 -> 0 <= k <= 72 -> 0 <= m ->
  Z.testbit (u128_shl v k) m = (k <=? m) && Z.testbit v (m - k).
Proof.
  intros Hv Hk Hm; unfold u128_shl.
  destruct (Z.ltb_spec m 128) as [H1|H1].
  - rewrite Z.mod_pow2_bits_low by lia.
    destruct (Z.leb_spec k m).
    + rewrite Z.shiftl_spec_high by lia; reflexivity.
    + rewrite Z.shiftl_spec_low by lia; reflexivity.
  - rewrite Z.mod_pow2_bits_high by lia.
    rewrite (bits_high12 v (m - k)) by lia; apply eq_sym, andb_false_r.
Qed.

End ExtraRSHelpers.

Section ExtraInventoryHelpers.

Lemma step_by_S (n s : nat) :
  step_by (S n) s = step_by n s ++ (if Nat.eqb (Nat.modulo n s) 0 then [n] else []).
Proof.
  unfold step_by; rewrite seq_S, filter_app; cbn [filter Nat.add].
  destruct (Nat.eqb _ 0); reflexivity.
Qed.

Lemma step_by_spec (n s : nat) :
  (0 < s)%nat ->
  (forall j, (j < length (step_by n s))%nat <-> (s * j < n)%nat) /\
  (forall j, (s * j < n)%nat -> nth_error (step_by n s) j = Some (s * j)%nat).
Proof.
  intros Hs; induction n as [|n [IHl IHn]].
  - split; [intros j; simpl; lia | intros j Hj; lia].
  - rewrite step_by_S.
    destruct (Nat.eqb_spec (Nat.modulo n s) 0) as [E|E].
    + pose proof (Nat.div_mod n s ltac:(lia)) as Hd; rewrite E, Nat.add_0_r in Hd.
      set (q := Nat.div n s) in *.
      assert (HL : length (step_by n s) = q).
      { destruct (Nat.lt_trichotomy (length (step_by n s)) q) as [H|[H|H]]; [|exact H|].
        - exfalso; specialize (IHl (length (step_by n s))); nia.
        - exfalso; specialize (IHl q); nia. }
      rewrite length_app; cbn [length].
      split.
      * intros j; specialize (IHl j); nia.
      * intros j Hj.
        destruct (Nat.lt_ge_cases (s * j) n) as [Hl|Hg].
        -- rewrite nth_error_app1 by (apply IHl; exact Hl); apply IHn, Hl.
        -- assert (j = q) by nia; subst j.
           rewrite nth_error_app2 by lia; rewrite HL, Nat.sub_diag; cbn.
           f_equal; lia.
    + rewrite app_nil_r; split.
      * intros j; rewrite IHl; split; [lia|].
        intros Hj; destruct (Nat.eq_dec (s * j) n) as [Ej|Ej]; [|lia].
        exfalso; apply E; rewrite <- Ej, Nat.mul_comm; apply Nat.Div0.mod_mul.
      * intros j Hj; apply IHn.
        destruct (Nat.eq_dec (s * j) n) as [Ej|Ej]; [|lia].
        exfalso; apply E; rewrite <- Ej, Nat.mul_comm; apply Nat.Div0.mod_mul.
Qed.

Lemma step_by_32_length (n : nat) : length (step_by n 32) = ((n + 31) / 32)%nat.
Proof.
  destruct (step_by_spec n 32 ltac:(lia)) as [Sl _].
  set (L := length (step_by n 32)) in *.
  pose proof (Nat.div_mod (n + 31) 32 ltac:(lia)) as Hd.
  pose proof (Nat.mod_upper_bound (n + 31) 32 ltac:(lia)) as Hm.
  set (q := ((n + 31) / 32)%nat) in *.
  pose proof (Sl L) as H1.
  destruct L as [|L'].
  - pose proof (Sl 0%nat); lia.
  - pose proof (Sl L'); lia.
Qed.

Lemma usub_ge (a b : Z) : b <= a -> usub a b = Ret (a - b).
Proof. intros H; unfold usub; rewrite (proj2 (Z.ltb_ge _ _) H); reflexivity. Qed.

Lemma omap_nth {A B} (f : A -> outcome B) (l : list A) (ys : list B) :
  omap f l = Ret ys ->
  length ys = length l /\
  forall j a, nth_error l j = Some a -> exists y, f a = Ret y /\ nth_error ys j = Some y.
Proof.
  revert ys; induction l as [|x l IH]; intros ys H; cbn [omap] in H.
  - inversion H; subst; split; [reflexivity|]; intros [|j] a Ha; discriminate.
  - destruct (f x) as [y|] eqn:Ef; cbn [obind] in H; [|discriminate].
    destruct (omap f l) as [ys'|]; cbn [obind] in H; [|discriminate].
    inversion H; subst ys; clear H.
    destruct (IH ys' eq_refl) as [Hl Hn].
    split; [simpl; lia|].
    intros [|j] a Ha; cbn [nth_error] in Ha |- *.
    + inversion Ha; subst; eauto.
    + apply Hn, Ha.
Qed.

Lemma SS_le_last (l : list Z) (y d : Z) : StronglySorted Z.le l -> In y l -> y <= last l d.
Proof.
  revert y; induction l as [|a l IH]; intros y Hs Hy; [contradiction|].
  apply StronglySorted_inv in Hs as [Hs Ha].
  destruct l as [|b l].
  - destruct Hy as [<-|[]]; simpl; lia.
  - change (last (a :: b :: l) d) with (last (b :: l) d).
    destruct Hy as [<-|Hy].
    + rewrite Forall_forall in Ha.
      pose proof (Ha b (or_introl eq_refl)).
      pose proof (IH b Hs (or_introl eq_refl)); lia.
    + apply IH; assumption.
Qed.

Lemma flush_dense (me : Inventories) (x : Z) (l : list Z) :
  StronglySorted Z.le (x :: l) -> last (x :: l) x - x < MAX_IN_BLOCK_DISTACE ->
  exists ds,
    flush_block me (x :: l) =
    Ret (mk_inv (n_sets me) (block_inventory me ++ [x]) (subblock_inventory me ++ ds)
                (overflow_positions me)) /\
    length ds = length (step_by (length (x :: l)) 32) /\
    forall j, (32 * j < length (x :: l))%nat -> nth_error ds j = Some (nth (32 * j) (x :: l) 0 - x).
Proof.
  intros Hs Hd.
  assert (Hge : forall y, In y (x :: l) -> x <= y).
  { pose proof Hs as Hs'; apply StronglySorted_inv in Hs' as [_ Hx]; rewrite Forall_forall in Hx.
    intros y [<-|Hy]; [lia | auto]. }
  assert (Hle : forall y, In y (x :: l) -> y <= last (x :: l) x)
    by (intros y Hy; apply SS_le_last; assumption).
  unfold flush_block.
  unfold usub at 1; rewrite (proj2 (Z.ltb_ge _ _))
    by (apply Hge; destruct (last_in (x :: l) x) as [H|H]; [left; exact H | exact H]).
  cbn [obind]; rewrite (proj2 (Z.ltb_lt _ _) Hd).
  change (Z.to_nat SUBBLOCK_SIZE) with 32%nat.
  set (f := fun i : nat => p <- vget (x :: l) (Z.of_nat i) ;; d <- usub p x ;; Ret (d mod 2 ^ 16)).
  assert (Hf : forall i, (i < length (x :: l))%nat ->
            f i = Ret (nth i (x :: l) 0 - x)).
  { intros i Hi; unfold f.
    rewrite (vget_nth _ _ 0) by lia; cbn [obind]; rewrite Nat2Z.id.
    assert (Hin : In (nth i (x :: l) 0) (x :: l)) by (apply nth_In; exact Hi).
    rewrite usub_ge by (apply Hge; exact Hin); cbn [obind].
    rewrite Z.mod_small; [reflexivity|].
    pose proof (Hge _ Hin); pose proof (Hle _ Hin); unfold MAX_IN_BLOCK_DISTACE in Hd; lia. }
  destruct (step_by_spec (length (x :: l)) 32 ltac:(lia)) as [Sl Sn].
  destruct (omap_ok f (step_by (length (x :: l)) 32)) as [ds Hds].
  { intros a Ha; apply In_nth_error in Ha as [j Hj].
    assert (Hjl : (j < length (step_by (length (x :: l)) 32))%nat)
      by (apply nth_error_Some; rewrite Hj; discriminate).
    rewrite Sn in Hj by (apply Sl; exact Hjl); inversion Hj; subst a.
    eexists; apply Hf; apply Sl in Hjl; lia. }
  rewrite Hds; cbn [obind].
  exists ds; split; [reflexivity|].
  destruct (omap_nth f _ ds Hds) as [Hl Hn].
  split; [exact Hl|].
  intros j Hj.
  destruct (Hn j (32 * j)%nat (Sn j Hj)) as [y [Hy1 Hy2]].
  rewrite Hf in Hy1 by lia; inversion Hy1; subst y; exact Hy2.
Qed.

Lemma flush_block_cases (me m : Inventories) (c : list Z) :
  c <> [] -> StronglySorted Z.le c -> flush_block me c = Ret m ->
  n_sets m = n_sets me /\
  block_inventory m = block_inventory me ++ [if is_dense c then hd 0 c
                                             else - Z.of_nat (length (overflow_positions me)) - 1] /\
  overflow_positions m = overflow_positions me ++ (if is_dense c then [] else c) /\
  (exists ss, subblock_inventory m = subblock_inventory me ++ ss /\ length ss = subblock_entries c).
Proof.
  intros Hne Hs H.
  destruct c as [|x l]; [congruence|].
  unfold subblock_entries, is_dense; cbn [hd].
  rewrite (last_default _ 0 x) by discriminate.
  destruct (Z.ltb_spec (last (x :: l) x - x) MAX_IN_BLOCK_DISTACE) as [Hd|Hd].
  - destruct (flush_dense me x l Hs Hd) as (ds & E & Hl & _).
    rewrite E in H; inversion H; subst m; cbn.
    split; [reflexivity|]; split; [reflexivity|]; split; [rewrite app_nil_r; reflexivity|].
    exists ds; split; [reflexivity|]; rewrite Hl; apply step_by_32_length.
  - rewrite flush_sparse in H by exact Hd.
    inversion H; subst m; cbn.
    split; [reflexivity|]; split; [reflexivity|]; split; [reflexivity|].
    exists (repeat u16_MAX (length (x :: l))); split; [reflexivity | apply repeat_length].
Qed.

Lemma fold_flush_layout (cs : list (list Z)) (me m : Inventories) :
  (forall c, In c cs -> c <> [] /\ StronglySorted Z.le c) ->
  ofold flush_block cs me = Ret m ->
  n_sets m = n_sets me /\
  length (block_inventory m) = (length (block_inventory me) + length cs)%nat /\
  (exists bs, block_inventory m = block_inventory me ++ bs) /\
  (forall k c, nth_error cs k = Some c -> is_dense c = true ->
     nth_error (block_inventory m) (length (block_inventory me) + k) = Some (hd 0 c)) /\
  overflow_positions m
    = overflow_positions me ++ concat (filter (fun c => negb (is_dense c)) cs) /\
  (exists ss, subblock_inventory m = subblock_inventory me ++ ss /\
     length ss = list_sum (map subblock_entries cs)).
Proof.
  revert me; induction cs as [|c cs IH]; intros me Hcs H; cbn [ofold] in H.
  - inversion H; subst m; cbn.
    split; [reflexivity|]; split; [lia|]; split; [exists []; rewrite app_nil_r; reflexivity|].
    split; [intros [|k] c Hk; discriminate|].
    split; [rewrite app_nil_r; reflexivity|].
    exists []; rewrite app_nil_r; split; reflexivity.
  - destruct (flush_block me c) as [m1|] eqn:F; cbn [obind] in H; [|discriminate].
    destruct (Hcs c (or_introl eq_refl)) as [Hne Hs].
    destruct (flush_block_cases me m1 c Hne Hs F) as (N1 & B1 & O1 & [ss1 [S1 L1]]).
    destruct (IH m1 (fun c' H' => Hcs c' (or_intror H')) H)
      as (N2 & BL2 & [bs2 B2] & BD2 & O2 & [ss2 [S2 L2]]).
    split; [congruence|].
    split; [rewrite BL2, B1, length_app; simpl; lia|].
    split; [rewrite B2, B1, <- app_assoc; eexists; reflexivity|].
    split.
    + intros [|k] c' Hk Hd; cbn [nth_error] in Hk.
      * inversion Hk; subst c'.
        rewrite B2, B1, Hd, <- app_assoc, Nat.add_0_r.
        rewrite nth_error_app2 by lia; rewrite Nat.sub_diag; reflexivity.
      * replace (length (block_inventory me) + S k)%nat with (length (block_inventory m1) + k)%nat
          by (rewrite B1, length_app; simpl; lia).
        apply BD2; assumption.
    + split.
      * rewrite O2, O1, <- app_assoc; cbn [filter].
        destruct (is_dense c); cbn [negb]; [reflexivity|].
        cbn [concat]; reflexivity.
      * exists (ss1 ++ ss2); rewrite S2, S1, <- app_assoc; split; [reflexivity|].
        rewrite length_app, L1, L2; reflexivity.
Qed.

Lemma blocks_sorted_nonempty (bit : bool) (b : BitVector) (c : list Z) :
  In c (darray_blocks (positions bit b)) -> c <> [] /\ StronglySorted Z.le c.
Proof.
  intros H; split; [eapply blocks_nonempty; exact H|].
  eapply blocks_aux_sorted; [apply positions_sorted | exact H].
Qed.

Lemma positions_nonneg (bit : bool) (b : BitVector) (p : Z) : In p (positions bit b) -> 0 <= p.
Proof. intros H; apply positions_from_bounds in H; lia. Qed.

Lemma blocks_in (l c : list Z) : In c (darray_blocks l) -> incl c l.
Proof.
  unfold darray_blocks; generalize (length l) as f; intros f; revert l.
  induction f as [|f IH]; intros l H; cbn [blocks_aux] in H; [contradiction|].
  destruct l as [|x l']; [contradiction|].
  destruct H as [<-|H].
  - intros y Hy; rewrite <- (firstn_skipn 1024 (x :: l')); apply in_or_app; left; exact Hy.
  - intros y Hy; rewrite <- (firstn_skipn 1024 (x :: l')); apply in_or_app; right.
    eapply IH; eauto.
Qed.

Lemma subblock_entries_full (c : list Z) :
  is_dense c = true -> length c = 1024%nat -> subblock_entries c = 32%nat.
Proof.
  intros Hd Hl; unfold subblock_entries; rewrite Hd, Hl; reflexivity.
Qed.

Lemma sum_full_dense (pre : list (list Z)) :
  (forall c, In c pre -> is_dense c = true /\ length c = 1024%nat) ->
  list_sum (map subblock_entries pre) = (32 * length pre)%nat.
Proof.
  induction pre as [|c pre IH]; intros H; [reflexivity|].
  change (list_sum (map subblock_entries (c :: pre)))
    with (subblock_entries c + list_sum (map subblock_entries pre))%nat.
  cbn [length].
  destruct (H c (or_introl eq_refl)) as [H1 H2].
  rewrite subblock_entries_full by assumption.
  rewrite (IH (fun c' Hc' => H c' (or_intror Hc'))); lia.
Qed.

Lemma dense_block_layout (bit : bool) (b : BitVector) (inv : Inventories) (blk : nat) :
  inventories_new bit b = Ret inv ->
  (1024 * blk < length (positions bit b))%nat ->
  (forall k, (k <= blk)%nat -> is_dense (darray_block (positions bit b) k) = true) ->
  nth_error (block_inventory inv) blk = Some (hd 0 (darray_block (positions bit b) blk)) /\
  exists S1 ds S2, subblock_inventory inv = S1 ++ ds ++ S2 /\ length S1 = (32 * blk)%nat /\
    forall j, (32 * j < length (darray_block (positions bit b) blk))%nat ->
      nth_error ds j = Some (nth (32 * j) (darray_block (positions bit b) blk) 0
                             - hd 0 (darray_block (positions bit b) blk)).
Proof.
  intros Hinv Hlt Hd.
  pose proof (blocks_sorted_nonempty bit b) as Hne.
  set (P := positions bit b) in *.
  remember (darray_block P blk) as c eqn:Ec.
  rewrite inventories_new_blocks in Hinv; fold P in Hinv.
  destruct (ofold flush_block (darray_blocks P) inv_default) as [m|] eqn:F;
    cbn [obind] in Hinv; [|discriminate].
  inversion Hinv; subst inv; clear Hinv; cbn [set_nsets block_inventory subblock_inventory].
  pose proof (blocks_nth _ _ Hlt) as Hn; rewrite <- Ec in Hn.
  assert (Hdc : is_dense c = true) by (rewrite Ec; apply Hd; lia).
  split.
  { destruct (fold_flush_layout _ _ _ Hne F) as (_ & _ & _ & BD & _).
    exact (BD blk c Hn Hdc). }
  assert (Hpre : forall k c', nth_error (darray_blocks P) k = Some c' -> (k < blk)%nat ->
                   is_dense c' = true /\ length c' = 1024%nat).
  { intros k c' Hk Hkb; rewrite blocks_nth in Hk by lia; inversion Hk; subst c'.
    split; [apply Hd; lia|]; rewrite length_darray_block; lia. }
  apply nth_error_split in Hn as [pre [post [Hsplit Hlen]]].
  rewrite Hsplit in F, Hne, Hpre; rewrite ofold_app in F.
  destruct (ofold flush_block pre inv_default) as [m1|] eqn:F1; cbn [obind] in F; [|discriminate].
  cbn [ofold] in F.
  destruct (flush_block m1 c) as [m2|] eqn:F2; cbn [obind] in F; [|discriminate].
  destruct (fold_flush_layout pre inv_default m1
              (fun c' H => Hne c' (in_or_app _ _ _ (or_introl H))) F1)
    as (_ & _ & _ & _ & _ & [ss1 [S1 L1]]).
  destruct (fold_flush_layout post m2 m
              (fun c' H => Hne c' (in_or_app _ _ _ (or_intror (in_cons _ _ _ H)))) F)
    as (_ & _ & _ & _ & _ & [ss2 [S2 _]]).
  destruct (Hne c (in_or_app _ _ _ (or_intror (in_eq _ _)))) as [Hcne Hcs].
  destruct c as [|x l]; [congruence|].
  assert (Hsp : last (x :: l) x - x < MAX_IN_BLOCK_DISTACE).
  { unfold is_dense in Hdc; cbn [hd] in Hdc.
    rewrite (last_default _ x 0) by discriminate; apply Z.ltb_lt, Hdc. }
  destruct (flush_dense m1 x l Hcs Hsp) as (ds & E & _ & Hds).
  rewrite E in F2; inversion F2; subst m2; clear F2.
  cbn [subblock_inventory] in S2.
  change (subblock_inventory inv_default) with (@nil Z) in S1; rewrite app_nil_l in S1.
  exists ss1, ds, ss2; split; [rewrite S2, S1, <- app_assoc; reflexivity|].
  split; [|exact Hds].
  rewrite L1, sum_full_dense, Hlen; [reflexivity|].
  intros c' Hc'; apply In_nth_error in Hc' as [k Hk].
  assert (Hkl : (k < length pre)%nat) by (apply nth_error_Some; rewrite Hk; discriminate).
  apply (Hpre k); [rewrite nth_error_app1 by exact Hkl; exact Hk | lia].
Qed.

Lemma darray_block_nth (l : list Z) (blk j : nat) :
  (j < 1024)%nat -> nth j (darray_block l blk) 0 = nth (1024 * blk + j) l 0.
Proof.
  intros Hj; unfold darray_block.
  rewrite nth_firstn, (proj2 (Nat.ltb_lt _ _) Hj), nth_skipn; reflexivity.
Qed.

End ExtraInventoryHelpers.

Section ExtraScanHelpers.

Lemma filter_nil_all {A} (f : A -> bool) (l : list A) :
  (forall x, In x l -> f x = false) -> filter f l = [].
Proof.
  induction l as [|x l IH]; intros H; [reflexivity|]; cbn [filter].
  rewrite (H x (or_introl eq_refl)); apply IH; intros y Hy; apply H; right; exact Hy.
Qed.

Lemma filter_map_comm {A B} (f : B -> bool) (h : A -> B) (l : list A) :
  filter f (map h l) = map h (filter (fun x => f (h x)) l).
Proof.
  induction l as [|x l IH]; [reflexivity|]; cbn [map filter].
  destruct (f (h x)); cbn [map]; rewrite IH; reflexivity.
Qed.

Lemma bit_range_shift (a n : nat) :
  bit_range a n = map (fun t => Z.of_nat a + Z.of_nat t) (seq 0 n).
Proof.
  unfold bit_range; revert a; induction n as [|n IH]; intros a; [reflexivity|].
  cbn [seq map]; rewrite (IH (S a)), <- seq_shift, map_map.
  f_equal; [lia|]; apply map_ext; intros t; lia.
Qed.

Lemma bit_range_app (a n m : nat) :
  bit_range a (n + m) = bit_range a n ++ bit_range (a + n) m.
Proof. unfold bit_range; rewrite seq_app, map_app; reflexivity. Qed.

Lemma bit_range_in (a n : nat) (p : Z) :
  In p (bit_range a n) <-> Z.of_nat a <= p < Z.of_nat a + Z.of_nat n.
Proof.
  unfold bit_range; rewrite in_map_iff; split.
  - intros [t [<- Ht]]; apply in_seq in Ht; lia.
  - intros Hp; exists (Z.to_nat p); split; [lia|]; apply in_seq; lia.
Qed.

Lemma bit_range_sorted (a n : nat) : StronglySorted Z.lt (bit_range a n).
Proof.
  revert a; induction n as [|n IH]; intros a; [constructor|].
  unfold bit_range; cbn [seq map]; constructor; [apply IH|].
  apply Forall_forall; intros p Hp; apply (bit_range_in (S a) n) in Hp; lia.
Qed.

Lemma word_bits_filter (x : Z) (a : nat) :
  word_bits x (Z.of_nat a) = filter (fun p => Z.testbit x (p - Z.of_nat a)) (bit_range a 64).
Proof.
  unfold word_bits; destruct (Z.eqb_spec x 0) as [->|_].
  - symmetry; apply filter_nil_all; intros p _; apply Z.testbit_0_l.
  - rewrite bit_range_shift, filter_map_comm; f_equal.
    apply filter_ext; intros t; f_equal; lia.
Qed.

Lemma word_bits_base (w base : Z) : word_bits w base = map (Z.add base) (word_bits w 0).
Proof.
  unfold word_bits; destruct (w =? 0); [reflexivity|].
  rewrite map_map; apply map_ext; intros t; reflexivity.
Qed.

Lemma pol_word_bit (pol : bool) (w t : Z) :
  0 <= t < 64 -> Z.testbit (pol_word pol w) t = Z.testbit (if pol then w else Z.lnot w) t.
Proof.
  intros Ht; destruct pol; [reflexivity|]; cbn.
  unfold u64_not, u64_max; rewrite Z.lxor_spec, Z.lnot_spec by lia.
  replace (2 ^ 64 - 1) with (Z.ones 64) by reflexivity.
  rewrite Z.ones_spec_low by lia; apply xorb_true_r.
Qed.

Lemma raw_bit_at (pol : bool) (b : BitVector) (k : nat) (t : Z) :
  0 <= t < 64 ->
  raw_bit pol b (Z.of_nat (64 * k) + t) = Z.testbit (pol_word pol (nth k (data b) 0)) t.
Proof.
  intros Ht; unfold raw_bit.
  replace ((Z.of_nat (64 * k) + t) / 64) with (Z.of_nat k)
    by (apply Z.div_unique with t; lia).
  replace ((Z.of_nat (64 * k) + t) mod 64) with t
    by (apply Z.mod_unique with (Z.of_nat k); lia).
  rewrite Nat2Z.id; reflexivity.
Qed.

Lemma skipn_cons_nth {A} (l ws : list A) (k : nat) (w d : A) :
  skipn k l = w :: ws -> nth k l d = w /\ skipn (S k) l = ws.
Proof.
  revert l; induction k as [|k IH]; intros [|x l] H; cbn in H |- *; try discriminate.
  - inversion H; subst; split; reflexivity.
  - apply IH, H.
Qed.

Lemma positions_from_filter (pol : bool) (b : BitVector) :
  forall ws (kn : nat), skipn kn (data b) = ws ->
  positions_from pol b ws (Z.of_nat kn)
  = filter (fun p => raw_bit pol b p && (p <? n_bits b)) (bit_range (64 * kn) (64 * length ws)).
Proof.
  induction ws as [|w ws IH]; intros kn Hs; [reflexivity|].
  destruct (skipn_cons_nth (data b) ws kn w 0 Hs) as [Hw Hs'].
  cbn [positions_from length].
  replace (Z.of_nat kn + 1) with (Z.of_nat (S kn)) by lia.
  rewrite (IH (S kn) Hs').
  replace (64 * S (length ws))%nat with (64 + 64 * length ws)%nat by lia.
  rewrite bit_range_app, filter_app.
  replace (64 * kn + 64)%nat with (64 * S kn)%nat by lia.
  f_equal.
  replace (64 * Z.of_nat kn) with (Z.of_nat (64 * kn)) by lia.
  rewrite word_bits_filter; apply filter_ext_in; intros p Hp.
  apply bit_range_in in Hp.
  replace p with (Z.of_nat (64 * kn) + (p - Z.of_nat (64 * kn))) at 2 by lia.
  rewrite raw_bit_at by lia.
  rewrite Z.land_spec, pol_word_bit, Hw by lia.
  f_equal; unfold live_mask.
  rewrite Z.testbit_ones_nonneg by lia.
  destruct (Z.ltb_spec (p - Z.of_nat (64 * kn)) (Z.max 0 (Z.min 64 (n_bits b - 64 * Z.of_nat kn))));
    destruct (Z.ltb_spec p (n_bits b)); lia.
Qed.

Lemma positions_filter (pol : bool) (b : BitVector) :
  positions pol b
  = filter (fun p => raw_bit pol b p && (p <? n_bits b)) (bit_range 0 (64 * length (data b))).
Proof. apply (positions_from_filter pol b (data b) 0); reflexivity. Qed.

Lemma filter_raw_word (pol : bool) (b : BitVector) (k m : nat) :
  filter (raw_bit pol b) (bit_range (64 * k) (64 + m))
  = word_bits (pol_word pol (nth k (data b) 0)) (Z.of_nat (64 * k))
    ++ filter (raw_bit pol b) (bit_range (64 * S k) m).
Proof.
  rewrite bit_range_app, filter_app.
  replace (64 * k + 64)%nat with (64 * S k)%nat by lia; f_equal.
  rewrite word_bits_filter; apply filter_ext_in; intros p Hp.
  apply bit_range_in in Hp.
  replace p with (Z.of_nat (64 * k) + (p - Z.of_nat (64 * k))) at 1 by lia.
  apply raw_bit_at; lia.
Qed.

Lemma scan_words_spec (pol : bool) (b : BitVector) :
  forall fuel (wi : nat) word r,
  (wi < length (data b))%nat -> (length (data b) - wi <= fuel)%nat -> 0 <= r ->
  r < Z.of_nat (length (word_bits word (Z.of_nat (64 * wi))
                        ++ filter (raw_bit pol b)
                             (bit_range (64 * S wi) (64 * (length (data b) - S wi))))) ->
  exists wi' w' r',
    scan_words fuel pol b (Z.of_nat wi) word r = Ret (wi', w', r') /\
    Z.shiftl wi' 6 + select_in_word w' r'
    = nth (Z.to_nat r) (word_bits word (Z.of_nat (64 * wi))
                        ++ filter (raw_bit pol b)
                             (bit_range (64 * S wi) (64 * (length (data b) - S wi)))) 0.
Proof.
  induction fuel as [|f IH]; intros wi word r Hwi Hf Hr0 Hr; [lia|].
  cbn [scan_words]; unfold popcnt64.
  assert (Hlw : length (word_bits word (Z.of_nat (64 * wi))) = length (word_bits word 0))
    by (rewrite (word_bits_base word (Z.of_nat (64 * wi))), length_map; reflexivity).
  destruct (Z.ltb_spec r (Z.of_nat (length (word_bits word 0)))) as [Hlt|Hge].
  - do 3 eexists; split; [reflexivity|].
    rewrite app_nth1 by lia.
    rewrite Z.shiftl_mul_pow2 by lia; unfold select_in_word.
    rewrite (word_bits_base word (Z.of_nat (64 * wi))).
    rewrite (nth_indep _ 0 (Z.of_nat (64 * wi) + 64)) by (rewrite length_map; lia).
    rewrite map_nth; lia.
  - rewrite length_app in Hr.
    set (rest := filter (raw_bit pol b) (bit_range (64 * S wi) (64 * (length (data b) - S wi)))) in *.
    assert (HS : (S wi < length (data b))%nat).
    { destruct (Nat.lt_ge_cases (S wi) (length (data b))) as [H|H]; [exact H|].
      exfalso; unfold rest in Hr.
      replace (64 * (length (data b) - S wi))%nat with 0%nat in Hr by lia.
      unfold bit_range in Hr; cbn [seq map filter length] in Hr; lia. }
    unfold get_word; rewrite (vget_nth _ _ 0) by lia; cbn [obind].
    replace (Z.to_nat (Z.of_nat wi + 1)) with (S wi) by lia.
    replace (Z.of_nat wi + 1) with (Z.of_nat (S wi)) by lia.
    assert (Hrest : rest = word_bits (pol_word pol (nth (S wi) (data b) 0)) (Z.of_nat (64 * S wi))
                    ++ filter (raw_bit pol b)
                         (bit_range (64 * S (S wi)) (64 * (length (data b) - S (S wi))))).
    { unfold rest; rewrite <- filter_raw_word; do 2 f_equal; lia. }
    destruct (IH (S wi) (pol_word pol (nth (S wi) (data b) 0)) (r - Z.of_nat (length (word_bits word 0))))
      as (wi' & w' & r' & E & V); [lia | lia | lia | rewrite <- Hrest; lia |].
    exists wi', w', r'; split.
    + rewrite <- E; destruct pol; reflexivity.
    + rewrite V, <- Hrest, app_nth2 by lia.
      f_equal; lia.
Qed.

Lemma vget_some {A} (l : list A) (j : Z) (x : A) :
  0 <= j -> nth_error l (Z.to_nat j) = Some x -> vget l j = Ret x.
Proof. intros H1 H2; unfold vget; rewrite (proj2 (Z.ltb_ge _ _)) by lia; rewrite H2; reflexivity. Qed.

Lemma first_word_bits (pol : bool) (b : BitVector) (wi : nat) (sh : Z) :
  0 <= sh < 64 ->
  word_bits (Z.land (pol_word pol (nth wi (data b) 0)) (u64_shl u64_max sh)) (Z.of_nat (64 * wi))
  = filter (fun p => raw_bit pol b p && (Z.of_nat (64 * wi) + sh <=? p)) (bit_range (64 * wi) 64).
Proof.
  intros Hsh; rewrite word_bits_filter; apply filter_ext_in; intros p Hp.
  apply bit_range_in in Hp.
  replace p with (Z.of_nat (64 * wi) + (p - Z.of_nat (64 * wi))) at 2 by lia.
  rewrite raw_bit_at by lia.
  rewrite Z.land_spec; f_equal.
  unfold u64_shl, u64_max.
  replace (2 ^ 64 - 1) with (Z.ones 64) by reflexivity.
  rewrite Z.land_spec, (Z.ones_spec_low 64) by lia; rewrite andb_true_r.
  destruct (Z.leb_spec sh (p - Z.of_nat (64 * wi))).
  - rewrite Z.shiftl_spec_high, Z.ones_spec_low by lia.
    symmetry; apply Z.leb_le; lia.
  - rewrite Z.shiftl_spec_low by lia.
    symmetry; apply Z.leb_gt; lia.
Qed.

Lemma scan_list_eq (pol : bool) (b : BitVector) (wi : nat) (sh : Z) :
  (wi < length (data b))%nat -> 0 <= sh < 64 ->
  word_bits (Z.land (pol_word pol (nth wi (data b) 0)) (u64_shl u64_max sh)) (Z.of_nat (64 * wi))
  ++ filter (raw_bit pol b) (bit_range (64 * S wi) (64 * (length (data b) - S wi)))
  = filter (fun p => raw_bit pol b p && (Z.of_nat (64 * wi) + sh <=? p))
           (bit_range 0 (64 * length (data b))).
Proof.
  intros Hwi Hsh.
  replace (64 * length (data b))%nat with (64 * wi + (64 + 64 * (length (data b) - S wi)))%nat
    by lia.
  rewrite (bit_range_app 0 (64 * wi)), (bit_range_app (0 + 64 * wi) 64), !filter_app.
  rewrite (filter_nil_all _ (bit_range 0 (64 * wi)))
    by (intros p Hp; apply bit_range_in in Hp; cbv beta; rewrite (proj2 (Z.leb_gt _ _)) by lia;
        apply andb_false_r).
  rewrite app_nil_l, (first_word_bits pol b wi sh Hsh).
  replace (0 + 64 * wi)%nat with (64 * wi)%nat by lia.
  replace (64 * wi + 64)%nat with (64 * S wi)%nat by lia.
  f_equal; apply filter_ext_in; intros p Hp; apply bit_range_in in Hp.
  rewrite (proj2 (Z.leb_le _ _)) by lia; apply eq_sym, andb_true_r.
Qed.

Lemma filter_lt_prefix (f : Z -> bool) (n : Z) (U : list Z) :
  StronglySorted Z.lt U -> exists R, filter f U = filter (fun p => f p && (p <? n)) U ++ R.
Proof.
  induction U as [|u U IH]; intros Hs; [exists []; reflexivity|].
  apply StronglySorted_inv in Hs as [Hs Hu]; rewrite Forall_forall in Hu.
  destruct (IH Hs) as [R HR]; cbn [filter].
  destruct (f u); cbn [andb].
  - destruct (Z.ltb_spec u n).
    + exists R; rewrite HR; reflexivity.
    + exists (u :: filter f U).
      rewrite (filter_nil_all (fun p => f p && (p <? n)) U); [reflexivity|].
      intros p Hp; apply Hu in Hp; cbv beta; rewrite (proj2 (Z.ltb_ge _ _)) by lia; apply andb_false_r.
  - exists R; exact HR.
Qed.

Lemma filter_from_nth (f : Z -> bool) (n s : Z) (U : list Z) (i0 r : nat) :
  StronglySorted Z.lt U ->
  (i0 + r < length (filter (fun p => f p && (p <? n)%Z) U))%nat ->
  nth i0 (filter (fun p => f p && (p <? n)%Z) U) 0 = s ->
  (r < length (filter (fun p => f p && (s <=? p)%Z) U))%nat /\
  nth r (filter (fun p => f p && (s <=? p)%Z) U) 0
  = nth (i0 + r) (filter (fun p => f p && (p <? n)%Z) U) 0.
Proof.
  revert i0; induction U as [|u U IH]; intros i0 Hs Hl Hn; [cbn in Hl; lia|].
  pose proof Hs as Hs'; apply StronglySorted_inv in Hs' as [HsU Hu]; rewrite Forall_forall in Hu.
  assert (Hin : In s (u :: U)).
  { rewrite <- Hn; eapply filter_In, nth_In; lia. }
  destruct (Z.lt_trichotomy u s) as [Hlt|[Heq|Hgt]].
  - cbn [filter] in Hl, Hn |- *.
    rewrite (proj2 (Z.leb_gt s u)) by lia; rewrite andb_false_r.
    destruct (f u && (u <? n)).
    + destruct i0 as [|i0]; cbn [nth length] in Hn, Hl |- *; [lia|].
      apply IH; [exact HsU | lia | exact Hn].
    + apply IH; assumption.
  - subst u.
    assert (Hg : f s && (s <? n) = true).
    { assert (Hs2 : In s (filter (fun p => f p && (p <? n)) (s :: U)))
        by (rewrite <- Hn at 1; apply nth_In; lia).
      apply filter_In in Hs2 as [_ Hs2]; exact Hs2. }
    cbn [filter] in Hl, Hn |- *; rewrite Hg in Hl, Hn |- *.
    rewrite Z.leb_refl, andb_true_r.
    destruct (andb_prop _ _ Hg) as [Hf _]; rewrite Hf.
    rewrite (filter_ext_in (fun p => f p && (s <=? p)) f U)
      by (intros p Hp; apply Hu in Hp; rewrite (proj2 (Z.leb_le _ _)) by lia; apply andb_true_r).
    destruct i0 as [|i0].
    + destruct (filter_lt_prefix f n U HsU) as [R HR]; rewrite HR.
      cbn [length] in Hl |- *; rewrite length_app.
      split; [lia|].
      destruct r as [|r]; [reflexivity|]; cbn [nth Nat.add].
      apply app_nth1; lia.
    + exfalso; cbn [nth length] in Hn, Hl.
      assert (In s U) by (rewrite <- Hn; eapply filter_In, nth_In; lia).
      pose proof (Hu s H); lia.
  - exfalso; destruct Hin as [->|Hin]; [lia|]; pose proof (Hu s Hin); lia.
Qed.

Lemma positions_range (pol : bool) (b : BitVector) (p : Z) :
  In p (positions pol b) -> 0 <= p < Z.of_nat (64 * length (data b)).
Proof.
  rewrite positions_filter; intros H; apply filter_In in H as [H _].
  apply bit_range_in in H; lia.
Qed.

Lemma positions_strict (pol : bool) (b : BitVector) :
  StronglySorted Z.lt (bit_range 0 (64 * length (data b))).
Proof. apply bit_range_sorted. Qed.

End ExtraScanHelpers.

(** ** RSSupportPlain *)


(** On a sequence shorter than [2^43] and [B] in {256, 512},
    [RSSupportPlain::new] returns an index whose [len] is the length of the
    sequence and whose [n_occs s] counts the occurrences of [s]; the four
    counts add up to the length. *)
Theorem rs_new_counts (B : Z) (qv : list sym) :
  (B = 256 \/ B = 512) -> Z.of_nat (length qv) < 2 ^ 43 ->
  exists rs, rs_new B qv = Ret rs /\ rs_len rs = Z.of_nat (length qv) /\
    (forall s, n_occs rs s = Z.of_nat (length (filter (sym_eqb s) qv))) /\
    n_occs rs Sym0 + n_occs rs Sym1 + n_occs rs Sym2 + n_occs rs Sym3 = Z.of_nat (length qv).
Proof.
  intros HB Hlen; exists (rs_built B qv).
  split; [apply rs_new_shape; assumption|].
  split; [reflexivity|].
  assert (E : forall s, n_occs (rs_built B qv) s = Z.of_nat (length (filter (sym_eqb s) qv)))
    by (intros s; rewrite n_occs_built; apply rank_naive_count).
  split; [exact E|].
  rewrite !E; pose proof (count_syms qv); lia.
Qed.

(** Witness: [qv8] with blocks of 256. *)
Lemma rs_new_counts_witness :
  (256 = 256 \/ 256 = 512) /\ Z.of_nat (length qv8) < 2 ^ 43 /\
  exists rs, rs_new 256 qv8 = Ret rs /\ rs_len rs = Z.of_nat (length qv8) /\
    (forall s, n_occs rs s = Z.of_nat (length (filter (sym_eqb s) qv8))) /\
    n_occs rs Sym0 + n_occs rs Sym1 + n_occs rs Sym2 + n_occs rs Sym3
    = Z.of_nat (length qv8).
Proof.
  split; [left; reflexivity|]; split; [reflexivity|].
  apply rs_new_counts; [left; reflexivity | reflexivity].
Defined.


(** On a sequence of length [n < 2^43] and [B] in {256, 512},
    [RSSupportPlain::new] stores [n / (8B) + 1] superblocks, and
    [rank_block s i] for [i >= 0] panics exactly when [i] lies beyond them,
    that is when [8B (n / (8B) + 1) <= i]. *)
Theorem rank_block_in_bounds (B : Z) (qv : list sym) :
  (B = 256 \/ B = 512) -> Z.of_nat (length qv) < 2 ^ 43 ->
  exists rs, rs_new B qv = Ret rs /\
    Z.of_nat (length (superblocks rs)) = Z.of_nat (length qv) / (8 * B) + 1 /\
    forall s i, 0 <= i ->
      (rank_block B rs s i = Panic <-> 8 * B * (Z.of_nat (length qv) / (8 * B) + 1) <= i).
Proof.
  intros HB Hlen; exists (rs_built B qv).
  split; [apply rs_new_shape; assumption|].
  assert (HBp : 0 < 8 * B) by (destruct HB; lia).
  assert (HN : 0 <= Z.of_nat (length qv) / (8 * B)) by (apply Z.div_pos; lia).
  unfold rs_built; cbn [superblocks].
  rewrite length_sbs_exp.
  split; [lia|].
  intros s i Hi; unfold rank_block, superblock_index, BLOCKS_IN_SUPERBLOCK; cbn [superblocks].
  replace (B * 8) with (8 * B) by ring.
  set (M := Z.of_nat (length qv) / (8 * B)) in *.
  assert (Hd : 0 <= i / (8 * B)) by (apply Z.div_pos; lia).
  split.
  - intros H.
    destruct (Z_lt_le_dec (i / (8 * B)) (M + 1)) as [Hl|Hl].
    + rewrite vget_sbs_exp in H by (auto; lia); discriminate.
    + apply (Z.mul_le_mono_pos_l _ _ (8 * B)) in Hl; [|lia].
      pose proof (Z.mul_div_le i (8 * B) HBp); lia.
  - intros H.
    rewrite vget_none; [reflexivity|lia|].
    rewrite length_sbs_exp.
    assert (M + 1 <= i / (8 * B)) by (apply Z.div_le_lower_bound; lia).
    lia.
Qed.

(** Witness: [qv8] with blocks of 256. *)
Lemma rank_block_in_bounds_witness :
  (256 = 256 \/ 256 = 512) /\ Z.of_nat (length qv8) < 2 ^ 43 /\
  exists rs, rs_new 256 qv8 = Ret rs /\
    Z.of_nat (length (superblocks rs)) = Z.of_nat (length qv8) / (8 * 256) + 1 /\
    forall s i, 0 <= i ->
      (rank_block 256 rs s i = Panic <->
       8 * 256 * (Z.of_nat (length qv8) / (8 * 256) + 1) <= i).
Proof.
  split; [left; reflexivity|]; split; [reflexivity|].
  apply rank_block_in_bounds; [left; reflexivity | reflexivity].
Defined.


(** [SuperblockPlain::new] on 64-bit counters stores each counter so that
    [get_superblock_counter] reads it back modulo [2^44] and every
    [get_block_counter] of blocks 0 to 7 reads 0. *)
Theorem superblock_new_counters (sbc : quad Z) :
  (forall s, 0 <= qget sbc s < 2 ^ 64) ->
  forall s, get_superblock_counter (sbp_new sbc) s = qget sbc s mod 2 ^ 44 /\
    forall j, 0 <= j < 8 -> get_block_counter (sbp_new sbc) s j = 0.
Proof.
  intros Hs s.
  assert (Hq : qget (counters (sbp_new sbc)) s = Z.shiftl (qget sbc s) 84 mod 2 ^ 128)
    by (destruct s; reflexivity).
  assert (Hbit : forall m, 0 <= m ->
            Z.testbit (Z.shiftl (qget sbc s) 84 mod 2 ^ 128) m
            = (84 <=? m) && (m <? 128) && Z.testbit (qget sbc s) (m - 84)).
  { intros m Hm.
    destruct (Z.ltb_spec m 128) as [H1|H1].
    - rewrite Z.mod_pow2_bits_low by lia.
      destruct (Z.leb_spec 84 m) as [H2|H2].
      + rewrite Z.shiftl_spec_high by lia; reflexivity.
      + rewrite Z.shiftl_spec_low by lia; reflexivity.
    - rewrite Z.mod_pow2_bits_high by lia; rewrite andb_false_r, andb_false_l; reflexivity. }
  split.
  - unfold get_superblock_counter, as_usize; rewrite Hq.
    assert (E : Z.shiftr (Z.shiftl (qget sbc s) 84 mod 2 ^ 128) 84 = qget sbc s mod 2 ^ 44).
    { apply Z.bits_inj'; intros m Hm.
      rewrite Z.shiftr_spec, Hbit by lia.
      destruct (Z.ltb_spec m 44) as [H44|H44].
      - rewrite Z.mod_pow2_bits_low by lia.
        rewrite (proj2 (Z.leb_le _ _)), (proj2 (Z.ltb_lt _ _)) by lia.
        cbn [andb]; rewrite Z.add_simpl_r; reflexivity.
      - rewrite Z.mod_pow2_bits_high by lia.
        rewrite (proj2 (Z.ltb_ge (m + 84) 128)) by lia.
        rewrite andb_false_r; reflexivity. }
    rewrite E; apply Z.mod_small.
    pose proof (Z.mod_pos_bound (qget sbc s) (2 ^ 44) ltac:(lia)).
    split; [lia|]; apply (Z.lt_le_trans _ (2 ^ 44)); [lia | vm_compute; discriminate].
  - intros j Hj; unfold get_block_counter.
    destruct (Z.eqb_spec j 0) as [|Hj0]; [reflexivity|].
    unfold as_usize; rewrite Hq.
    replace (Z.land (Z.shiftr (Z.shiftl (qget sbc s) 84 mod 2 ^ 128) ((j - 1) * 12)) 4095)
      with 0; [reflexivity|].
    symmetry; apply Z.bits_inj_0; intros m.
    destruct (Z.ltb_spec m 0) as [Hm|Hm]; [apply Z.testbit_neg_r; lia|].
    rewrite Z.land_spec.
    change 4095 with (Z.ones 12).
    destruct (Z.ltb_spec m 12) as [H12|H12].
    + rewrite Z.shiftr_spec, Hbit by lia.
      rewrite (proj2 (Z.leb_gt 84 _)) by lia; reflexivity.
    + rewrite Z.ones_spec_high by lia; apply andb_false_r.
Qed.

(** Witness: the counters 1, 2, 3, 4. *)
Lemma superblock_new_counters_witness :
  (forall s, 0 <= qget (mk_quad 1 2 3 4) s < 2 ^ 64) /\
  forall s, get_superblock_counter (sbp_new (mk_quad 1 2 3 4)) s
            = qget (mk_quad 1 2 3 4) s mod 2 ^ 44 /\
    forall j, 0 <= j < 8 -> get_block_counter (sbp_new (mk_quad 1 2 3 4)) s j = 0.
Proof.
  assert (H : forall s, 0 <= qget (mk_quad 1 2 3 4) s < 2 ^ 64)
    by (intros [ | | | ]; cbn; lia).
  split; [exact H|].
  apply superblock_new_counters; exact H.
Defined.


(** For [block_id >= 0] and non-negative counters,
    [set_block_counters] panics exactly when [block_id >= 8] or a counter
    needs more than 12 bits. Otherwise it changes nothing for block 0, keeps
    the superblock counters, and ORs each counter into the 12-bit field of
    block [block_id], leaving the fields of the other blocks unchanged. *)
Theorem set_block_counters_behaviour (sb : SuperblockPlain) (block_id : Z) (cs : quad Z) :
  0 <= block_id -> (forall s, 0 <= qget cs s) ->
  (set_block_counters sb block_id cs = Panic <->
     8 <= block_id \/ exists s, 2 ^ 12 <= qget cs s) /\
  (block_id < 8 -> (forall s, qget cs s < 2 ^ 12) ->
   exists sb', set_block_counters sb block_id cs = Ret sb' /\
     (block_id = 0 -> sb' = sb) /\
     forall s, get_superblock_counter sb' s = get_superblock_counter sb s /\
       forall j, 1 <= j < 8 ->
         get_block_counter sb' s j
         = if j =? block_id then Z.lor (get_block_counter sb s j) (qget cs s)
           else get_block_counter sb s j).
Proof.
  intros Hb0 Hc0.
  assert (Hq : qall (fun c => c <? 2 ^ 12) cs = true <-> forall s, qget cs s < 2 ^ 12).
  { unfold qall; rewrite !andb_true_iff, !Z.ltb_lt; split.
    - intros [[[H0 H1] H2] H3] [ | | | ]; assumption.
    - intros H; repeat split; apply (H Sym0) || apply (H Sym1) || apply (H Sym2) || apply (H Sym3). }
  split.
  - unfold set_block_counters; split.
    + intros H.
      destruct (Z.ltb_spec block_id 8) as [H8|H8]; cbn [negb] in H; [|left; exact H8].
      right; destruct (qall _ cs) eqn:E; cbn [negb] in H.
      * destruct (Z.eqb _ 0); discriminate.
      * destruct (Z_lt_le_dec (qget cs Sym0) (2 ^ 12)); [|exists Sym0; assumption].
        destruct (Z_lt_le_dec (qget cs Sym1) (2 ^ 12)); [|exists Sym1; assumption].
        destruct (Z_lt_le_dec (qget cs Sym2) (2 ^ 12)); [|exists Sym2; assumption].
        destruct (Z_lt_le_dec (qget cs Sym3) (2 ^ 12)); [|exists Sym3; assumption].
        exfalso; assert (Hf : false = true) by (apply Hq; intros [ | | | ]; assumption).
        discriminate.
    + intros [H|[s H]].
      * rewrite (proj2 (Z.ltb_ge _ _) H); reflexivity.
      * destruct (block_id <? 8); cbn [negb]; [|reflexivity].
        destruct (qall _ cs) eqn:E; [|reflexivity].
        pose proof (proj1 Hq ltac:(first [reflexivity | exact E]) s); lia.
  - intros H8 Hlt.
    unfold set_block_counters.
    rewrite (proj2 (Z.ltb_lt _ _) H8); cbn [negb].
    rewrite (proj2 Hq Hlt); cbn [negb].
    destruct (Z.eqb_spec block_id 0) as [E0|E0].
    + exists sb; split; [reflexivity|]; split; [reflexivity|].
      intros s; split; [reflexivity|]; intros j Hj.
      rewrite (proj2 (Z.eqb_neq j block_id)) by lia; reflexivity.
    + eexists; split; [reflexivity|]; split; [intros; contradiction|].
      intros s.
      assert (Hc : qget (counters (mk_sbp (qzip (fun c v => Z.lor c (u128_shl v ((block_id - 1) * 12)))
                        (counters sb) cs))) s
                   = Z.lor (qget (counters sb) s) (u128_shl (qget cs s) ((block_id - 1) * 12)))
        by (destruct s; reflexivity).
      pose proof (Hc0 s); pose proof (Hlt s).
      split.
      * unfold get_superblock_counter; rewrite Hc; f_equal.
        apply Z.bits_inj'; intros m Hm.
        rewrite !Z.shiftr_spec, Z.lor_spec, u128_shl_bits by lia.
        rewrite (bits_high12 (qget cs s)) by lia.
        rewrite andb_false_r, orb_false_r; reflexivity.
      * intros j Hj; unfold get_block_counter.
        rewrite (proj2 (Z.eqb_neq j 0)) by lia.
        rewrite Hc, !as_usize_field.
        apply Z.bits_inj'; intros m Hm.
        change 4095 with (Z.ones 12).
        destruct (Z.ltb_spec m 12) as [H12|H12].
        -- rewrite Z.land_spec, Z.ones_spec_low by lia.
           rewrite Z.shiftr_spec, Z.lor_spec, u128_shl_bits by lia.
           destruct (Z.eqb_spec j block_id) as [->|Ej].
           ++ rewrite Z.lor_spec, Z.land_spec, Z.ones_spec_low, Z.shiftr_spec by lia.
              rewrite (proj2 (Z.leb_le _ _)) by lia.
              rewrite !andb_true_r, andb_true_l; do 2 f_equal; lia.
           ++ rewrite Z.land_spec, Z.ones_spec_low, Z.shiftr_spec by lia.
              rewrite andb_true_r.
              destruct (Z.leb_spec ((block_id - 1) * 12) (m + (j - 1) * 12)); cbn [andb].
              ** rewrite (bits_high12 (qget cs s)) by lia.
                 rewrite ?andb_true_r, ?orb_false_r; reflexivity.
              ** rewrite ?andb_true_r, ?orb_false_r; reflexivity.
        -- rewrite Z.land_spec, Z.ones_spec_high by lia; rewrite andb_false_r.
           destruct (j =? block_id).
           ++ rewrite Z.lor_spec, Z.land_spec, Z.ones_spec_high by lia.
              rewrite (bits_high12 (qget cs s)) by lia.
              rewrite andb_false_r; reflexivity.
           ++ rewrite Z.land_spec, Z.ones_spec_high by lia; apply eq_sym, andb_false_r.
Qed.

(** Witness: block 3 of a fresh superblock, counters 5, 6, 7, 8. *)
Lemma set_block_counters_behaviour_witness :
  0 <= 3 /\ (forall s, 0 <= qget (mk_quad 5 6 7 8) s) /\
  (set_block_counters (sbp_new (mk_quad 1 2 3 4)) 3 (mk_quad 5 6 7 8) = Panic <->
     8 <= 3 \/ exists s, 2 ^ 12 <= qget (mk_quad 5 6 7 8) s) /\
  (3 < 8 -> (forall s, qget (mk_quad 5 6 7 8) s < 2 ^ 12) ->
   exists sb', set_block_counters (sbp_new (mk_quad 1 2 3 4)) 3 (mk_quad 5 6 7 8) = Ret sb' /\
     (3 = 0 -> sb' = sbp_new (mk_quad 1 2 3 4)) /\
     forall s, get_superblock_counter sb' s
               = get_superblock_counter (sbp_new (mk_quad 1 2 3 4)) s /\
       forall j, 1 <= j < 8 ->
         get_block_counter sb' s j
         = if j =? 3 then Z.lor (get_block_counter (sbp_new (mk_quad 1 2 3 4)) s j)
                                (qget (mk_quad 5 6 7 8) s)
           else get_block_counter (sbp_new (mk_quad 1 2 3 4)) s j).
Proof.
  assert (H : forall s, 0 <= qget (mk_quad 5 6 7 8) s) by (intros [ | | | ]; cbn; lia).
  split; [lia|]; split; [exact H|].
  apply set_block_counters_behaviour; [lia | exact H].
Defined.


(** ** DArray *)


(** [DArray::new] never panics: it keeps the bit vector and the
    [SELECT0_SUPPORT] flag, counts the ones in the inventory of ones, and
    builds the inventory of zeros, counting the zeros, exactly when
    [SELECT0_SUPPORT] is set. *)
Theorem darray_new_never_panics (sel0 : bool) (b : BitVector) :
  exists d, darray_new sel0 b = Ret d /\ bv d = b /\ select0_support d = sel0 /\
    n_sets (ones_inventories d) = Z.of_nat (length (ones b)) /\
    (if sel0 then exists z, zeroes_inventories d = Some z /\
                            n_sets z = Z.of_nat (length (zeros b))
     else zeroes_inventories d = None).
Proof.
  unfold darray_new.
  destruct (inventories_new_ok true b) as [o Ho]; rewrite Ho; cbn [obind].
  pose proof (inventories_new_nsets true b o Ho) as No.
  destruct sel0.
  - destruct (inventories_new_ok false b) as [z Hz]; rewrite Hz; cbn [obind].
    pose proof (inventories_new_nsets false b z Hz) as Nz.
    eexists; split; [reflexivity|]; cbn.
    split; [reflexivity|]; split; [reflexivity|]; split; [exact No|].
    exists z; split; [reflexivity | exact Nz].
  - cbn [obind]; eexists; split; [reflexivity|]; cbn.
    split; [reflexivity|]; split; [reflexivity|]; split; [exact No | reflexivity].
Qed.

(** On a [DArray<true>], [select0 i] returns [None] exactly when [i] is
    at least the number of zeros of the bit vector. *)
Theorem select0_none_iff_out_of_range (b : BitVector) (i : Z) :
  (d <- darray_new true b ;; select0 d i) = Ret None <-> Z.of_nat (length (zeros b)) <= i.
Proof.
  unfold darray_new.
  destruct (inventories_new_ok true b) as [o Ho]; rewrite Ho; cbn [obind].
  destruct (inventories_new_ok false b) as [z Hz]; rewrite Hz; cbn [obind].
  unfold select0; cbn [select0_support zeroes_inventories].
  rewrite select_none, (inventories_new_nsets false b z Hz); reflexivity.
Qed.

(** [select1_unchecked] and [select0_unchecked] return the position the
    checked selects return, and panic where those return [None]: for [i] at
    least the number of ones (resp. zeros); [select0_unchecked] panics on a
    [DArray<false>]. *)
Theorem select_unchecked_out_of_range (sel0 : bool) (b : BitVector) (d : DArray) (i : Z) :
  darray_new sel0 b = Ret d ->
  (forall p, select1_unchecked d i = Ret p <-> select1 d i = Ret (Some p)) /\
  (Z.of_nat (length (ones b)) <= i -> select1_unchecked d i = Panic) /\
  (sel0 = false -> select0_unchecked d i = Panic) /\
  (forall p, select0_unchecked d i = Ret p <-> select0 d i = Ret (Some p)) /\
  (sel0 = true -> Z.of_nat (length (zeros b)) <= i -> select0_unchecked d i = Panic).
Proof.
  intros Hd.
  assert (Hu : forall r : outcome (option Z), forall p,
             (x <- r ;; match x with Some p => Ret p | None => Panic end) = Ret p <->
             r = Ret (Some p)).
  { intros r p; destruct r as [[q|]|]; cbn [obind]; split; intros H;
      try discriminate; inversion H; reflexivity. }
  unfold darray_new in Hd.
  destruct (inventories_new true b) as [o|] eqn:Ho; cbn [obind] in Hd; [|discriminate].
  split; [intros p; apply Hu|].
  split.
  { intros Hi; unfold select1_unchecked.
    assert (E : select1 d i = Ret None).
    { destruct sel0.
      - destruct (inventories_new false b); cbn [obind] in Hd; [|discriminate].
        inversion Hd; subst d; unfold select1; cbn [ones_inventories].
        apply select_none; rewrite (inventories_new_nsets true b o Ho); exact Hi.
      - inversion Hd; subst d; unfold select1; cbn [ones_inventories].
        apply select_none; rewrite (inventories_new_nsets true b o Ho); exact Hi. }
    rewrite E; reflexivity. }
  split.
  { intros ->; inversion Hd; subst d; reflexivity. }
  split; [intros p; apply Hu|].
  intros -> Hi.
  destruct (inventories_new false b) as [z|] eqn:Hz; cbn [obind] in Hd; [|discriminate].
  inversion Hd; subst d; unfold select0_unchecked, select0; cbn [select0_support zeroes_inventories].
  replace (select false _ i z) with (@Ret (option Z) None); [reflexivity|].
  symmetry; apply select_none; rewrite (inventories_new_nsets false b z Hz); exact Hi.
Qed.

(** Witness: [select1_unchecked 2] on the bits 1, 0, 1. *)
Lemma select_unchecked_out_of_range_witness :
  darray_new false (mk_bv [5] 3) = Ret (mk_darray false (mk_bv [5] 3) (mk_inv 2 [0] [0] []) None) /\
  select1_unchecked (mk_darray false (mk_bv [5] 3) (mk_inv 2 [0] [0] []) None) 2 = Panic.
Proof.
  assert (H : darray_new false (mk_bv [5] 3)
              = Ret (mk_darray false (mk_bv [5] 3) (mk_inv 2 [0] [0] []) None))
    by (vm_compute; reflexivity).
  split; [exact H|].
  destruct (select_unchecked_out_of_range false (mk_bv [5] 3) _ 2 H) as (_ & H2 & _).
  apply H2, Z.leb_le; vm_compute; reflexivity.
Defined.


(** [Inventories::new] stores one block-inventory entry per block of
    1024 positions, the first position for a dense block. The overflow
    positions are the sparse blocks, concatenated in order. The subblock
    inventory has [ceil(len/32)] entries per dense block and [len] per sparse
    block. *)
Theorem inventories_block_layout (bit : bool) (b : BitVector) (inv : Inventories) :
  inventories_new bit b = Ret inv ->
  length (block_inventory inv) = length (darray_blocks (positions bit b)) /\
  (forall k c, nth_error (darray_blocks (positions bit b)) k = Some c -> is_dense c = true ->
     nth_error (block_inventory inv) k = Some (hd 0 c) /\ 0 <= hd 0 c) /\
  overflow_positions inv
    = concat (filter (fun c => negb (is_dense c)) (darray_blocks (positions bit b))) /\
  length (subblock_inventory inv)
    = list_sum (map subblock_entries (darray_blocks (positions bit b))).
Proof.
  intros Hinv; rewrite inventories_new_blocks in Hinv.
  destruct (ofold flush_block (darray_blocks (positions bit b)) inv_default) as [m|] eqn:F;
    cbn [obind] in Hinv; [|discriminate].
  inversion Hinv; subst inv; clear Hinv.
  destruct (fold_flush_layout _ _ _ (blocks_sorted_nonempty bit b) F)
    as (_ & BL & _ & BD & O & [ss [S L]]).
  cbn [set_nsets block_inventory overflow_positions subblock_inventory] in *.
  cbn [inv_default block_inventory overflow_positions subblock_inventory length app] in *.
  split; [exact BL|]; split; [|split; [exact O | rewrite S; exact L]].
  intros k c Hk Hd; split; [exact (BD k c Hk Hd)|].
  apply nth_error_In in Hk.
  destruct (blocks_sorted_nonempty bit b c Hk) as [Hne _].
  destruct c as [|x l]; [congruence|].
  apply (positions_nonneg bit b); apply (blocks_in _ _ Hk); left; reflexivity.
Qed.

(** Witness: the ones of the bits 1, 0, 1. *)
Lemma inventories_block_layout_witness :
  inventories_new true (mk_bv [5] 3) = Ret (mk_inv 2 [0] [0] []) /\
  length (block_inventory (mk_inv 2 [0] [0] []))
    = length (darray_blocks (positions true (mk_bv [5] 3))) /\
  (forall k c, nth_error (darray_blocks (positions true (mk_bv [5] 3))) k = Some c ->
     is_dense c = true ->
     nth_error (block_inventory (mk_inv 2 [0] [0] [])) k = Some (hd 0 c) /\ 0 <= hd 0 c) /\
  overflow_positions (mk_inv 2 [0] [0] [])
    = concat (filter (fun c => negb (is_dense c)) (darray_blocks (positions true (mk_bv [5] 3)))) /\
  length (subblock_inventory (mk_inv 2 [0] [0] []))
    = list_sum (map subblock_entries (darray_blocks (positions true (mk_bv [5] 3)))).
Proof.
  assert (H : inventories_new true (mk_bv [5] 3) = Ret (mk_inv 2 [0] [0] []))
    by (vm_compute; reflexivity).
  split; [exact H|].
  apply inventories_block_layout; exact H.
Defined.


(** If the blocks of [i]'s polarity up to the block of [i] are all dense,
    [select1 i] (resp. [select0 i]) returns the [i]-th one (resp. zero) of
    the bit vector, for every [0 <= i] below their number. This holds both
    on the subblock start and on the word scan. *)
Theorem select_dense_correct (sel0 pol : bool) (b : BitVector) (d : DArray)
    (inv : Inventories) (i : Z) :
  darray_new sel0 b = Ret d -> inventory_for d pol = Some inv ->
  0 <= i < Z.of_nat (length (positions pol b)) ->
  (forall k, (k <= Z.to_nat (i / 1024))%nat ->
     is_dense (darray_block (positions pol b) k) = true) ->
  select_pol pol d i = Ret (Some (nth (Z.to_nat i) (positions pol b) 0)).
Proof.
  intros Hd Hi Hrange Hdense.
  destruct (darray_new_inv sel0 pol b d inv Hd Hi) as (Hinv & Hbv & Hsel).
  rewrite Hsel; clear Hsel.
  set (P := positions pol b) in *.
  set (blk := Z.to_nat (i / 1024)) in *.
  assert (Hq : 0 <= i / 1024) by (apply Z.div_pos; lia).
  assert (Hblk : (1024 * blk <= Z.to_nat i)%nat).
  { unfold blk; pose proof (Z.mul_div_le i 1024 ltac:(lia)); lia. }
  assert (Hlt : (1024 * blk < length P)%nat) by lia.
  destruct (dense_block_layout pol b inv blk Hinv Hlt Hdense) as [Hb (S1 & ds & S2 & HS & HS1 & Hds)].
  fold P in Hb, Hds.
  set (c := darray_block P blk) in *.
  assert (Hc0 : hd 0 c = nth (1024 * blk) P 0).
  { unfold c; rewrite <- (Nat.add_0_r (1024 * blk)), <- darray_block_nth by lia.
    destruct (darray_block P blk); reflexivity. }
  assert (HinP : forall k, (k < length P)%nat -> In (nth k P 0) P) by (intros; apply nth_In; lia).
  assert (Hhd : 0 <= hd 0 c)
    by (rewrite Hc0; apply (positions_range pol b), HinP; lia).
  unfold select.
  rewrite (inventories_new_nsets pol b inv Hinv); fold P.
  rewrite (proj2 (Z.leb_gt _ _)) by lia.
  unfold BLOCK_SIZE; rewrite (vget_some _ _ _ Hq Hb); cbn [obind].
  rewrite (proj2 (Z.ltb_ge _ _)) by lia.
  (* the subblock of [i] *)
  set (j := Z.to_nat ((i mod 1024) / 32)).
  assert (Hm : 0 <= i mod 1024 < 1024) by (apply Z.mod_pos_bound; lia).
  assert (Hj32 : (32 * j <= Z.to_nat (i mod 1024))%nat).
  { unfold j; pose proof (Z.mul_div_le (i mod 1024) 32 ltac:(lia));
    assert (0 <= i mod 1024 / 32) by (apply Z.div_pos; lia); lia. }
  assert (Hdiv : i = 1024 * (i / 1024) + i mod 1024) by (apply Z.div_mod; lia).
  assert (Hsub : i / SUBBLOCK_SIZE = Z.of_nat (32 * blk + j)).
  { unfold SUBBLOCK_SIZE, j, blk.
    rewrite Hdiv at 1.
    replace (1024 * (i / 1024)) with ((32 * (i / 1024)) * 32) by ring.
    rewrite Z.add_comm, Z.div_add by lia.
    assert (0 <= i mod 1024 / 32) by (apply Z.div_pos; lia); lia. }
  assert (Hlc : length c = Nat.min 1024 (length P - 1024 * blk)) by apply length_darray_block.
  assert (Hjc : (32 * j < length c)%nat).
  { rewrite Hlc; apply Nat.min_glb_lt; [lia|].
    assert (Z.to_nat i = 1024 * blk + Z.to_nat (i mod 1024))%nat by (unfold blk; lia).
    lia. }
  specialize (Hds j Hjc).
  assert (Hsb : nth_error (subblock_inventory inv) (Z.to_nat (i / SUBBLOCK_SIZE))
                = Some (nth (32 * j) c 0 - hd 0 c)).
  { rewrite Hsub, Nat2Z.id, HS, nth_error_app2 by lia.
    rewrite HS1, Nat.add_sub_swap, Nat.sub_diag, Nat.add_0_l by lia.
    rewrite nth_error_app1; [exact Hds|].
    apply nth_error_Some; rewrite Hds; discriminate. }
  assert (H32 : 0 <= i / SUBBLOCK_SIZE) by (unfold SUBBLOCK_SIZE; apply Z.div_pos; lia).
  rewrite (vget_some _ _ _ H32 Hsb); cbn [obind].
  replace (hd 0 c + (nth (32 * j) c 0 - hd 0 c)) with (nth (32 * j) c 0) by ring.
  (* the position at the start of the subblock *)
  set (i0 := (1024 * blk + 32 * j)%nat).
  assert (Hi0 : Z.of_nat i0 = i - i mod 32).
  { unfold i0, j, blk.
    assert (Hm32 : i mod 32 = (i mod 1024) mod 32).
    { rewrite Hdiv at 1.
      replace (1024 * (i / 1024)) with ((32 * (i / 1024)) * 32) by ring.
      rewrite Z.add_comm, Z.mod_add by lia; reflexivity. }
    pose proof (Z.div_mod (i mod 1024) 32 ltac:(lia)).
    assert (0 <= i mod 1024 / 32) by (apply Z.div_pos; lia). lia. }
  assert (Hstart : nth (32 * j) c 0 = nth i0 P 0) by (apply darray_block_nth; lia).
  rewrite Hstart.
  assert (Hi0P : (i0 < length P)%nat) by (pose proof (Z.mod_pos_bound i 32 ltac:(lia)); lia).
  unfold SUBBLOCK_SIZE; change (32 - 1) with (Z.ones 5); rewrite Z.land_ones by lia.
  change (2 ^ 5) with 32.
  destruct (Z.eqb_spec (i mod 32) 0) as [Hr0|Hr0].
  { do 2 f_equal; f_equal; lia. }
  (* scanning the words from the start of the subblock *)
  set (start := nth i0 P 0) in *.
  pose proof (positions_range pol b start (HinP i0 Hi0P)) as Hst.
  rewrite Z.shiftr_div_pow2 by lia; change (2 ^ 6) with 64.
  change 63 with (Z.ones 6); rewrite Z.land_ones by lia; change (2 ^ 6) with 64.
  set (wi := Z.to_nat (start / 64)).
  assert (Hwi0 : 0 <= start / 64) by (apply Z.div_pos; lia).
  assert (Hwi : (wi < length (data b))%nat).
  { unfold wi; assert (start / 64 < Z.of_nat (length (data b))) by (apply Z.div_lt_upper_bound; lia).
    lia. }
  assert (Hsh : 0 <= start mod 64 < 64) by (apply Z.mod_pos_bound; lia).
  rewrite Hbv; unfold get_word.
  rewrite (vget_nth _ _ 0) by lia; cbn [obind]; fold wi.
  replace (if pol then Z.land (nth wi (data b) 0) (u64_shl u64_max (start mod 64))
           else Z.land (u64_not (nth wi (data b) 0)) (u64_shl u64_max (start mod 64)))
    with (Z.land (pol_word pol (nth wi (data b) 0)) (u64_shl u64_max (start mod 64)))
    by (destruct pol; reflexivity).
  assert (Hstart64 : Z.of_nat (64 * wi) + start mod 64 = start)
    by (unfold wi; pose proof (Z.div_mod start 64 ltac:(lia)); lia).
  pose proof (scan_list_eq pol b wi (start mod 64) Hwi Hsh) as HL.
  rewrite Hstart64 in HL.
  assert (HP : P = filter (fun p => raw_bit pol b p && (p <? n_bits b))
                     (bit_range 0 (64 * length (data b)))) by apply positions_filter.
  set (r := Z.to_nat (i mod 32)).
  assert (Hr : (i0 + r < length P)%nat) by (unfold r; pose proof (Z.mod_pos_bound i 32 ltac:(lia)); lia).
  rewrite HP in Hr.
  destruct (filter_from_nth (raw_bit pol b) (n_bits b) start _ i0 r
              (positions_strict pol b) Hr ltac:(rewrite <- HP; reflexivity)) as [Hrl Hnth].
  rewrite <- HP in Hnth; rewrite <- HL in Hnth, Hrl.
  replace (Z.of_nat wi) with (start / 64) in * by (unfold wi; lia).
  pose proof (Z.mod_pos_bound i 32 ltac:(lia)) as Hi32.
  destruct (scan_words_spec pol b (S (length (data b))) wi
              (Z.land (pol_word pol (nth wi (data b) 0)) (u64_shl u64_max (start mod 64)))
              (i mod 32) Hwi ltac:(lia) ltac:(lia) ltac:(unfold r in Hrl; lia))
    as (wi' & w' & r' & Escan & Vscan).
  replace (Z.of_nat wi) with (start / 64) in Escan by (unfold wi; lia).
  rewrite Escan; cbn [obind].
  rewrite Vscan; fold r; rewrite Hnth.
  do 3 f_equal; unfold r; lia.
Qed.

(** Witness: [select1 2] on the 100 bits whose ones are 0, 2, 65, 66: the
    scan crosses into the second word. *)
Lemma select_dense_correct_witness :
  darray_new false (mk_bv [5; 6] 100)
    = Ret (mk_darray false (mk_bv [5; 6] 100) (mk_inv 4 [0] [0] []) None) /\
  inventory_for (mk_darray false (mk_bv [5; 6] 100) (mk_inv 4 [0] [0] []) None) true
    = Some (mk_inv 4 [0] [0] []) /\
  0 <= 2 < Z.of_nat (length (positions true (mk_bv [5; 6] 100))) /\
  (forall k, (k <= Z.to_nat (2 / 1024))%nat ->
     is_dense (darray_block (positions true (mk_bv [5; 6] 100)) k) = true) /\
  select_pol true (mk_darray false (mk_bv [5; 6] 100) (mk_inv 4 [0] [0] []) None) 2
    = Ret (Some (nth (Z.to_nat 2) (positions true (mk_bv [5; 6] 100)) 0)).
Proof.
  assert (H1 : darray_new false (mk_bv [5; 6] 100)
               = Ret (mk_darray false (mk_bv [5; 6] 100) (mk_inv 4 [0] [0] []) None))
    by (vm_compute; reflexivity).
  assert (H2 : inventory_for (mk_darray false (mk_bv [5; 6] 100) (mk_inv 4 [0] [0] []) None) true
               = Some (mk_inv 4 [0] [0] [])) by reflexivity.
  assert (H3 : 0 <= 2 < Z.of_nat (length (positions true (mk_bv [5; 6] 100))))
    by (split; [lia | apply Z.ltb_lt; vm_compute; reflexivity]).
  assert (H4 : forall k, (k <= Z.to_nat (2 / 1024))%nat ->
                 is_dense (darray_block (positions true (mk_bv [5; 6] 100)) k) = true).
  { intros k Hk; change (Z.to_nat (2 / 1024)) with 0%nat in Hk.
    replace k with 0%nat by lia; vm_compute; reflexivity. }
  split; [exact H1|]; split; [exact H2|]; split; [exact H3|]; split; [exact H4|].
  apply (select_dense_correct false true (mk_bv [5; 6] 100) _ _ 2 H1 H2 H3 H4).
Defined.
